(** * Proof-of-work subsystem of bitbi (src/pow.cpp, src/pow.h, src/util/syncstack.h)

    A shallow embedding of the difficulty retarget functions, the
    proof-of-work check, the epoch-key derivation, the verifier pool and
    the mining loop, followed by the properties established about them.

    Conventions.
    - [uint32_t], [int64_t] and [arith_uint256] values are integers of [Z];
      wrap-around is written out where the C++ type wraps, and the signed
      64-bit operations whose overflow is undefined return [None].
    - A [uint256] blob is the integer its 32 bytes spell in little-endian
      order, which is the number [UintToArith256] yields.
    - Byte buffers are [list byte]; [WriteLE32] and [memcpy] of a blob are
      little-endian splits. *)

From Stdlib Require Import ZArith List Bool Lia.
From Stdlib Require Ascii String.
From coqutil Require Import Byte Word.LittleEndianList.
Import ListNotations.
Local Open Scope Z_scope.

(* ===================================================================== *)
(** ** Fixed-width integers *)
(* ===================================================================== *)

Definition wrap32 (z : Z) : Z := z mod 2 ^ 32.
Definition wrap64 (z : Z) : Z := z mod 2 ^ 64.
Definition wrap256 (z : Z) : Z := z mod 2 ^ 256.

Definition INT64_MIN : Z := - 2 ^ 63.
Definition INT64_MAX : Z := 2 ^ 63 - 1.

Definition in_int64 (z : Z) : bool := (INT64_MIN <=? z) && (z <=? INT64_MAX).

(** A small error monad for the signed arithmetic of the retarget code:
    [None] stands for behaviour the C++ standard leaves undefined (signed
    overflow, division by zero) or for a thrown [uint_error]. *)
Definition bind {A B : Type} (m : option A) (k : A -> option B) : option B :=
  match m with
  | Some a => k a
  | None => None
  end.

Notation "x <- m ;; k" := (bind m (fun x => k))
  (at level 61, m at next level, right associativity).

Definition i64_checked (z : Z) : option Z :=
  if in_int64 z then Some z else None.

Definition i64_sub (a b : Z) : option Z := i64_checked (a - b).
Definition i64_mul (a b : Z) : option Z := i64_checked (a * b).

(** [a / b] on [int64_t]: truncation toward zero. *)
Definition i64_div (a b : Z) : option Z :=
  if b =? 0 then None else i64_checked (Z.quot a b).

(** [a % b] on [int64_t]: the sign follows the dividend. *)
Definition i64_rem (a b : Z) : option Z :=
  if b =? 0 then None
  else if (a =? INT64_MIN) && (b =? -1) then None
  else Some (Z.rem a b).

(* ===================================================================== *)
(** ** arith_uint256 *)
(* ===================================================================== *)

Module arith_uint256.

(** The result of decoding a compact target: the 256-bit magnitude and
    the two indications [SetCompact] writes through its out-pointers. *)
Record decoded : Type := mkDecoded {
  target : Z;
  fNegative : bool;
  fOverflow : bool
}.

(** Modelled from the spec: [base_uint::bits] of arith_uint256.cpp, which
    is not under src/: the position of the highest set bit plus one, and
    zero for zero. *)
Definition bits (x : Z) : Z :=
  if x =? 0 then 0 else Z.log2 x + 1.

(** Modelled from the spec: [base_uint::GetLow64]. *)
Definition GetLow64 (x : Z) : Z := wrap64 x.

(** Modelled from the spec: [operator<<=] of the 256-bit integer; bits
    shifted past position 255 are lost. *)
Definition shl (x n : Z) : Z := wrap256 (Z.shiftl x n).

(** Modelled from the spec: [operator>>=]. *)
Definition shr (x n : Z) : Z := Z.shiftr x n.

(** Modelled from the spec: [operator*=(uint32_t)], the overload an
    [int64_t] operand selects (an integral conversion is preferred to the
    converting constructor); the product is reduced to 256 bits. *)
Definition mul_u32 (x b : Z) : Z := wrap256 (x * wrap32 b).

(** Modelled from the spec: [operator/=(const base_uint&)], reached from
    an integer operand through the [uint64_t] constructor; truncating,
    and a zero divisor raises [uint_error]. *)
Definition div (a b : Z) : option Z :=
  let d := wrap64 b in
  if d =? 0 then None else Some (a / d).

(** Modelled from the spec: [arith_uint256::SetCompact] (decodeCompact),
    from arith_uint256.cpp, which is not under src/.  The compact form is
    a 3-byte mantissa with its high bit as sign and an exponent byte; the
    mantissa is shifted by [8 * (exponent - 3)] bits.  Negativity and
    overflow are reported apart from a numerically zero mantissa. *)
Definition SetCompact (nCompact : Z) : decoded :=
  let nSize := Z.shiftr nCompact 24 in
  let nWord := Z.land nCompact 0x007fffff in
  let nWord := if nSize <=? 3 then Z.shiftr nWord (8 * (3 - nSize)) else nWord in
  let value := if nSize <=? 3 then nWord else shl nWord (8 * (nSize - 3)) in
  {| target := value;
     fNegative := negb (nWord =? 0) && negb (Z.land nCompact 0x00800000 =? 0);
     fOverflow := negb (nWord =? 0) &&
                  ((nSize >? 34) ||
                   ((nWord >? 0xff) && (nSize >? 33)) ||
                   ((nWord >? 0xffff) && (nSize >? 32))) |}.

(** Modelled from the spec: [arith_uint256::GetCompact] (encodeCompact)
    with its default [fNegative = false], from arith_uint256.cpp, which
    is not under src/.  Keeps the three most significant bytes; when the
    mantissa would have its sign bit set it is divided by 256 and the
    exponent is increased. *)
Definition GetCompact (x : Z) : Z :=
  let nSize := (bits x + 7) / 8 in
  let nCompact :=
    if nSize <=? 3
    then wrap32 (Z.shiftl (GetLow64 x) (8 * (3 - nSize)))
    else wrap32 (GetLow64 (shr x (8 * (nSize - 3)))) in
  let carry := negb (Z.land nCompact 0x00800000 =? 0) in
  let nCompact' := if carry then Z.shiftr nCompact 8 else nCompact in
  let nSize' := if carry then nSize + 1 else nSize in
  Z.lor nCompact' (Z.shiftl nSize' 24).

(** The compact values [GetCompact] produces from a 256-bit integer. *)
Definition canonical (nBits : Z) : Prop :=
  exists x, 0 <= x < 2 ^ 256 /\ GetCompact x = nBits.

End arith_uint256.

Import arith_uint256.

(** [UintToArith256]: the blob read as a little-endian number. *)
Definition UintToArith256 (u : Z) : Z := u.

(* ===================================================================== *)
(** ** Consensus parameters and the chain-index view *)
(* ===================================================================== *)

Module Consensus.

Record Params : Type := mkParams {
  powLimit : Z;                        (* uint256 *)
  fPowAllowMinDifficultyBlocks : bool;
  fPowNoRetargeting : bool;
  nPowTargetSpacing : Z;               (* int64_t *)
  nPowTargetTimespan : Z               (* int64_t *)
}.

(** Modelled from the spec: [Params::DifficultyAdjustmentInterval] of
    consensus/params.h, which is not under src/:
    [targetTimespan / targetSpacing]. *)
Definition DifficultyAdjustmentInterval (p : Params) : option Z :=
  i64_div (nPowTargetTimespan p) (nPowTargetSpacing p).

End Consensus.

Module CBlockIndex.

Record t : Type := mk {
  nHeight : Z;   (* int *)
  nTime : Z;     (* uint32_t *)
  nBits : Z      (* uint32_t *)
}.

(** [GetBlockTime]: the timestamp widened to [int64_t]. *)
Definition GetBlockTime (b : t) : Z := nTime b.

End CBlockIndex.

Module CBlockHeader.

Record t : Type := mk {
  nVersion : Z;        (* int32_t *)
  hashPrevBlock : Z;   (* uint256 *)
  hashMerkleRoot : Z;  (* uint256 *)
  nTime : Z;           (* uint32_t *)
  nBits : Z;           (* uint32_t *)
  nNonce : Z           (* uint32_t *)
}.

End CBlockHeader.

(* ===================================================================== *)
(** ** Difficulty retarget (pow.cpp, lines 59-134) *)
(* ===================================================================== *)

Definition CalculateNextWorkRequired
    (pindexLast : CBlockIndex.t) (nFirstBlockTime : Z)
    (params : Consensus.Params) : option Z :=
  if Consensus.fPowNoRetargeting params then Some (CBlockIndex.nBits pindexLast)
  else
    let T := Consensus.nPowTargetTimespan params in
    (* Limit adjustment step *)
    nActualTimespan <- i64_sub (CBlockIndex.GetBlockTime pindexLast) nFirstBlockTime ;;
    lo <- i64_div T 4 ;;
    let nActualTimespan := if nActualTimespan <? lo then lo else nActualTimespan in
    hi <- i64_mul T 4 ;;
    let nActualTimespan := if nActualTimespan >? hi then hi else nActualTimespan in
    (* Retarget *)
    let bnPowLimit := UintToArith256 (Consensus.powLimit params) in
    let bnNew := target (SetCompact (CBlockIndex.nBits pindexLast)) in
    scaled <- i64_mul nActualTimespan 2048 ;;
    ratio <- i64_div scaled T ;;
    let bnNew := mul_u32 bnNew ratio in
    bnNew <- arith_uint256.div bnNew 2048 ;;
    let bnNew := if bnNew >? bnPowLimit then bnPowLimit else bnNew in
    Some (GetCompact bnNew).

Definition PermittedDifficultyTransition
    (params : Consensus.Params) (height old_nbits new_nbits : Z) : option bool :=
  if Consensus.fPowAllowMinDifficultyBlocks params then Some true
  else
    interval <- Consensus.DifficultyAdjustmentInterval params ;;
    r <- i64_rem height interval ;;
    if r =? 0 then
      let T := Consensus.nPowTargetTimespan params in
      smallest_timespan <- i64_div T 4 ;;
      largest_timespan <- i64_mul T 4 ;;
      let pow_limit := UintToArith256 (Consensus.powLimit params) in
      let observed_new_target := target (SetCompact new_nbits) in
      (* Calculate the largest difficulty value possible: *)
      let largest := target (SetCompact old_nbits) in
      let largest := mul_u32 largest largest_timespan in
      largest <- arith_uint256.div largest T ;;
      let largest := if largest >? pow_limit then pow_limit else largest in
      (* Round and then compare this new calculated value to what is observed. *)
      let maximum_new_target := target (SetCompact (GetCompact largest)) in
      if maximum_new_target <? observed_new_target then Some false
      else
        (* Calculate the smallest difficulty value possible: *)
        let smallest := target (SetCompact old_nbits) in
        let smallest := mul_u32 smallest smallest_timespan in
        smallest <- arith_uint256.div smallest T ;;
        let smallest := if smallest >? pow_limit then pow_limit else smallest in
        let minimum_new_target := target (SetCompact (GetCompact smallest)) in
        if minimum_new_target >? observed_new_target then Some false
        else Some true
    else if negb (old_nbits =? new_nbits) then Some false
    else Some true.

(* ===================================================================== *)
(** ** Proof-of-work check (pow.cpp, lines 136-153) *)
(* ===================================================================== *)

Definition CheckProofOfWork (hash nBits : Z) (params : Consensus.Params) : bool :=
  let d := SetCompact nBits in
  let bnTarget := target d in
  (* Check range *)
  if fNegative d || (bnTarget =? 0) || fOverflow d
     || (bnTarget >? UintToArith256 (Consensus.powLimit params))
  then false
  (* Check proof of work matches claimed amount *)
  else if UintToArith256 hash >? bnTarget then false
  else true.

(* ===================================================================== *)
(** ** Byte buffers *)
(* ===================================================================== *)

(** [WriteLE32(ptr, x)]: the four bytes of [x] (reduced to 32 bits), least
    significant first. *)
Definition WriteLE32 (x : Z) : list byte := le_split 4 x.

(** The 32 bytes of a [uint256] blob, as [begin()] exposes them. *)
Definition blob_bytes (u : Z) : list byte := le_split 32 u.

(** Storing [src] into the buffer [buf] at byte offset [off]
    ([WriteLE32(&buf[off], _)], [memcpy(&buf[off], _, n)]). *)
Definition store_at (off : nat) (src buf : list byte) : list byte :=
  firstn off buf ++ src ++ skipn (off + length src) buf.

(** [HashBytesToUnit256]: 32 bytes copied into a blob. *)
Definition HashBytesToUnit256 (hashBytes : list byte) : Z :=
  le_combine (firstn 32 hashBytes).

(** [unsigned char buf[80] = {0}] followed by the five stores that
    [CheckProofOfWorkX] and [RxWorkMiner::Mine] both start with. *)
Definition header_buffer (block : CBlockHeader.t) : list byte :=
  let d1 := repeat Byte.x00 80 in
  let d1 := store_at 0 (WriteLE32 (CBlockHeader.nVersion block)) d1 in
  let d1 := store_at 4 (blob_bytes (CBlockHeader.hashPrevBlock block)) d1 in
  let d1 := store_at 36 (blob_bytes (CBlockHeader.hashMerkleRoot block)) d1 in
  let d1 := store_at 68 (WriteLE32 (CBlockHeader.nTime block)) d1 in
  let d1 := store_at 72 (WriteLE32 (CBlockHeader.nBits block)) d1 in
  d1.

(* ===================================================================== *)
(** ** Epoch key (pow.cpp, lines 367-372 and 635-642) *)
(* ===================================================================== *)

Definition EPOCH_SECONDS : Z := 345678.

Section EpochKey.

(** [CHashWriter::GetHash] of hash.h (not under src/): the 256-bit digest
    of the bytes streamed into the writer. *)
Variable GetHash : list byte -> Z.

(** [keyss << nVersion << nTime/345678 << nBits << uint32_t(0)]: each
    field serialised as four little-endian bytes. *)
Definition key_stream (block : CBlockHeader.t) : list byte :=
  WriteLE32 (CBlockHeader.nVersion block)
  ++ WriteLE32 (CBlockHeader.nTime block / EPOCH_SECONDS)
  ++ WriteLE32 (CBlockHeader.nBits block)
  ++ WriteLE32 0.

Definition sha256dKeyBlock (block : CBlockHeader.t) : Z :=
  GetHash (key_stream block).

End EpochKey.

(* ===================================================================== *)
(** ** The native hash engine, as the subsystem observes it *)
(* ===================================================================== *)

Module randomx.

(** Calls into the engine, with what the code passed: [None] is a null
    pointer. A cache handle carries the key it was initialised with, a
    virtual machine the key of the cache it was created over. *)
Inductive call : Type :=
| alloc_cache (result : option unit)
| init_cache (cache : option unit) (key : Z)
| create_vm (cache : option Z) (result : option Z)
| destroy_vm (vm : option Z)
| release_cache (cache : option Z)
| calculate_hash (vm : option Z) (input : list byte).

(** The process-wide native state: [script] answers the successive
    allocation requests ([true]: the allocation succeeds; an exhausted
    script succeeds), [calls] is the log, newest first. *)
Record world : Type := mkWorld {
  script : list bool;
  calls : list call
}.

Definition log (c : call) (w : world) : world :=
  {| script := script w; calls := c :: calls w |}.

(** One allocation request: its answer and the remaining script. *)
Definition request (w : world) : bool * world :=
  match script w with
  | [] => (true, w)
  | b :: rest => (b, {| script := rest; calls := calls w |})
  end.

End randomx.

(* ===================================================================== *)
(** ** Verifier contexts and their pool (pow.cpp, lines 257-355) *)
(* ===================================================================== *)

Module VerifierCtx.

Record t : Type := mk {
  m_key : Z;
  m_vm : option Z;
  m_cache : option Z
}.

Definition reinitialize (ctx : t) (key : Z) (w : randomx.world) : t * randomx.world :=
  if negb (key =? m_key ctx) then
    let w := match m_vm ctx with
             | Some _ => randomx.log (randomx.destroy_vm (m_vm ctx)) w
             | None => w
             end in
    let w := match m_cache ctx with
             | Some _ => randomx.log (randomx.release_cache (m_cache ctx)) w
             | None => w
             end in
    (* m_cache = randomx_alloc_cache(flags); *)
    let '(ok, w) := randomx.request w in
    let raw := if ok then Some tt else None in
    let w := randomx.log (randomx.alloc_cache raw) w in
    (* randomx_init_cache(m_cache, key.data(), WIDTH); *)
    let w := randomx.log (randomx.init_cache raw key) w in
    let cache := if ok then Some key else None in
    (* m_vm = randomx_create_vm(flags, m_cache, nullptr);
       the engine answers null for a null cache without allocating *)
    let '(ok', w) := if ok then randomx.request w else (false, w) in
    let vm := if ok' then Some key else None in
    let w := randomx.log (randomx.create_vm cache vm) w in
    ({| m_key := key; m_vm := vm; m_cache := cache |}, w)
  else (ctx, w).

(** [VerifierCtx(uint256 key)]: null engine pair, zero key, then
    [reinitialize(key)]. *)
Definition create (key : Z) (w : randomx.world) : t * randomx.world :=
  reinitialize {| m_key := 0; m_vm := None; m_cache := None |} key w.

End VerifierCtx.

Module RxWorkVerifier3.

Definition ONE_CACHE_SIZE : Z := 256 * 1024 * 1024.

(** The [(int)] casts of the constructor. *)
Definition to_int (z : Z) : Z := (z + 2 ^ 31) mod 2 ^ 32 - 2 ^ 31.

(** [mCacheStack] is a [SyncStack]: the head of the list is the top. *)
Record t : Type := mk {
  mCacheStack : list VerifierCtx.t;
  m_nCaches : Z
}.

Fixpoint fill (n : nat) (stack : list VerifierCtx.t) (w : randomx.world)
  : list VerifierCtx.t * randomx.world :=
  match n with
  | O => (stack, w)
  | S n' =>
      let '(cache, w) := VerifierCtx.create 0 w in
      fill n' (cache :: stack) w
  end.

(** The constructor, given [std::thread::hardware_concurrency()] and
    [FreePhysicalMemory()]. *)
Definition create (hardware_concurrency freeMemory : Z) (w : randomx.world)
  : t * randomx.world :=
  let n := Z.min (to_int (1 * hardware_concurrency))
                 (to_int (freeMemory / ONE_CACHE_SIZE)) in
  let '(stack, w) := fill (Z.to_nat n) [] w in
  ({| mCacheStack := stack; m_nCaches := n |}, w).

(** What a [PowHash] call comes to: [Blocked] when [pop] waits on an
    empty stack; otherwise the verifier and native state afterwards and
    the digest, which is [None] when [randomx_calculate_hash] was handed
    a null virtual machine (the engine then computes nothing defined). *)
Inductive outcome : Type :=
| Blocked
| Returned (v : t) (w : randomx.world) (digest : option Z).

Section Engine.

(** The engine's function: the digest (32 bytes) of an input under the
    key a virtual machine was created for. *)
Variable rx_hash : Z -> list byte -> list byte.

Definition PowHash (v : t) (key : Z) (input : list byte) (w : randomx.world)
  : outcome :=
  match mCacheStack v with
  | [] => Blocked
  | cache :: rest =>
      let '(cache, w) := VerifierCtx.reinitialize cache key w in
      let w := randomx.log (randomx.calculate_hash (VerifierCtx.m_vm cache) input) w in
      let result := option_map (fun k => rx_hash k input) (VerifierCtx.m_vm cache) in
      let v := {| mCacheStack := cache :: rest; m_nCaches := m_nCaches v |} in
      Returned v w (option_map HashBytesToUnit256 result)
  end.

End Engine.

End RxWorkVerifier3.

Section CheckX.

Variable GetHash : list byte -> Z.
Variable rx_hash : Z -> list byte -> list byte.

(** [CheckProofOfWorkX]: [None] when the pool call blocks or hashes
    through a null virtual machine. *)
Definition CheckProofOfWorkX
    (g_RxWorkVerifier : RxWorkVerifier3.t) (w : randomx.world)
    (block : CBlockHeader.t) (params : Consensus.Params) : option bool :=
  let key256 := sha256dKeyBlock GetHash block in
  let input := header_buffer block in
  let input := store_at 76 (WriteLE32 (CBlockHeader.nNonce block)) input in
  match RxWorkVerifier3.PowHash rx_hash g_RxWorkVerifier key256 input w with
  | RxWorkVerifier3.Returned _ _ (Some result) =>
      Some (CheckProofOfWork result (CBlockHeader.nBits block) params)
  | _ => None
  end.

End CheckX.

(* ===================================================================== *)
(** ** Mining loop (pow.h, lines 77-159; pow.cpp, lines 645-690) *)
(* ===================================================================== *)

Module RxWorkMiner.

(** A constructed miner: [mVm] is the digest function of its virtual
    machine (32 bytes for any input), [mBlockHeader] the template. *)
Record t : Type := mk {
  mVm : list byte -> list byte;
  mBlockHeader : CBlockHeader.t
}.

Definition checkPow (hash bnTarget : Z) : bool := hash <=? bnTarget.

(** How [Mine] returns: [Aborted] is [return false], [Found hash nonce]
    is [return true] with [*pHash] and [*pNonce] written. *)
Inductive result : Type :=
| Aborted
| Found (hash nonce : Z).

(** A run of the loop: what it returned ([None]: still searching when the
    step budget ran out), how often [ShutdownRequested] was called and
    how many digests were computed ([nHash]). *)
Record run : Type := mkRun {
  returned : option result;
  polls : nat;
  hashes : nat
}.

Section Loop.

Variable vm : list byte -> list byte.
(** The function pointer ([None]: null); [f k] is the answer of its
    [k]-th call, counting from zero. *)
Variable ShutdownRequested : option (nat -> bool).
Variable bnTarget : Z.

(** [ShutdownRequested && ShutdownRequested()] *)
Definition poll (polls : nat) : bool * nat :=
  match ShutdownRequested with
  | Some f => (f polls, S polls)
  | None => (false, polls)
  end.

(** The [do ... while (arith256 > bnTarget)] loop; the telemetry line
    printed every 20000 digests is left out. *)
Fixpoint search (fuel : nat) (d1 : list byte) (nonce : Z) (polls nHash : nat) : run :=
  match fuel with
  | O => {| returned := None; polls := polls; hashes := nHash |}
  | S fuel' =>
      let '(stop, polls) := poll polls in
      if stop then {| returned := Some Aborted; polls := polls; hashes := nHash |}
      else
        (* WriteLE32(&d1[76], nonce++); *)
        let d1 := store_at 76 (WriteLE32 nonce) d1 in
        let nonce := wrap32 (nonce + 1) in
        let result := vm d1 in
        let nHash := S nHash in
        let hash := HashBytesToUnit256 result in
        let arith256 := UintToArith256 hash in
        if arith256 >? bnTarget then search fuel' d1 nonce polls nHash
        else {| returned := Some (Found hash (wrap32 (nonce - 1)));
                polls := polls; hashes := nHash |}
  end.

End Loop.

Definition Mine (fuel : nat) (m : t) (ShutdownRequested : option (nat -> bool)) : run :=
  let block := mBlockHeader m in
  let nonce := CBlockHeader.nNonce block in
  let d1 := header_buffer block in
  let nBits := CBlockHeader.nBits block in
  (* bnTarget.SetCompact(nBits, nullptr, nullptr); *)
  let bnTarget := target (SetCompact nBits) in
  search (mVm m) ShutdownRequested bnTarget fuel d1 nonce 0 0.

End RxWorkMiner.

(* ===================================================================== *)
(** ** What the specification calls things *)
(* ===================================================================== *)

(** The fixed 80-byte header encoding, field after field, with [nonce] in
    the nonce field. *)
Definition header_encoding (block : CBlockHeader.t) (nonce : Z) : list byte :=
  le_split 4 (CBlockHeader.nVersion block)
  ++ le_split 32 (CBlockHeader.hashPrevBlock block)
  ++ le_split 32 (CBlockHeader.hashMerkleRoot block)
  ++ le_split 4 (CBlockHeader.nTime block)
  ++ le_split 4 (CBlockHeader.nBits block)
  ++ le_split 4 nonce.

(** A timespan clamped into [[lo, hi]]. *)
Definition clamp (lo hi x : Z) : Z := Z.min hi (Z.max lo x).

(** The re-rounding of a bound through the compact form. *)
Definition reround (x : Z) : Z := target (SetCompact (GetCompact x)).

(** The exponent byte and the mantissa of the compact form of [x], in
    closed form: the exponent counts the bytes of [x], one more when the
    top byte has its high bit set; the mantissa is [x] aligned so that its
    three bytes sit under the exponent. *)
Definition exponent (x : Z) : Z := bits x / 8 + 1.

Definition mantissa (x e : Z) : Z :=
  if e <=? 3 then x * 2 ^ (8 * (3 - e)) else x / 2 ^ (8 * (e - 3)).

(** The compact target the specification gives for a retarget: the
    timespan clamped, the old target scaled by the 2048-based ratio in
    256-bit arithmetic, the limit applied, the result encoded. *)
Definition next_work (bits time first T limit : Z) : Z :=
  let actualTimespan := clamp (T / 4) (T * 4) (time - first) in
  let newTarget :=
    wrap256 (target (SetCompact bits) * (actualTimespan * 2048 / T)) / 2048 in
  GetCompact (Z.min newTarget limit).

(** Inputs on which the signed arithmetic of [CalculateNextWorkRequired]
    is defined: 32-bit header fields, a first-block time far from the ends
    of [int64_t], a positive timespan whose multiples fit. *)
Definition retarget_inputs
    (pindexLast : CBlockIndex.t) (nFirstBlockTime : Z)
    (params : Consensus.Params) : Prop :=
  0 <= CBlockIndex.nTime pindexLast < 2 ^ 32
  /\ 0 <= CBlockIndex.nBits pindexLast < 2 ^ 32
  /\ - 2 ^ 62 <= nFirstBlockTime <= 2 ^ 62
  /\ 0 < Consensus.nPowTargetTimespan params < 2 ^ 50.

(** Parameters with at least one block per interval: the interval of
    [PermittedDifficultyTransition] is defined and positive. *)
Definition interval_inputs (params : Consensus.Params) : Prop :=
  0 < Consensus.nPowTargetSpacing params <= Consensus.nPowTargetTimespan params
  /\ Consensus.nPowTargetTimespan params <= INT64_MAX.

(** Inputs on which the two products of [PermittedDifficultyTransition]
    are the mathematical ones: the multiplier [4 * timespan] fits the
    32-bit operand of the multiplication and the product of the old target
    with it fits 256 bits. *)
Definition boundary_inputs (params : Consensus.Params) (old_nbits : Z) : Prop :=
  let T := Consensus.nPowTargetTimespan params in
  4 * T < 2 ^ 32
  /\ 0 <= old_nbits < 2 ^ 32
  /\ target (SetCompact old_nbits) * (4 * T) < 2 ^ 256.

(** The decision the specification describes at a retarget boundary: the
    observed target between the re-rounded quarter and the re-rounded
    fourfold of the old one, each capped by the limit first. *)
Definition within_factor_four (old_nbits new_nbits limit : Z) : bool :=
  let old := target (SetCompact old_nbits) in
  let observed := target (SetCompact new_nbits) in
  (observed <=? reround (Z.min (old * 4) limit))
  && (reround (Z.min (old / 4) limit) <=? observed).

(** The same decision with the lower bound taken from the timespans, as
    the retarget takes it: the old target times the quarter of the
    timespan (an integer division), divided by the timespan. *)
Definition within_timespan_bounds (T old_nbits new_nbits limit : Z) : bool :=
  let old := target (SetCompact old_nbits) in
  let observed := target (SetCompact new_nbits) in
  (observed <=? reround (Z.min (old * 4) limit))
  && (reround (Z.min (old * (T / 4) / T) limit) <=? observed).

(** The first 76 bytes of the encoding: every field but the nonce. *)
Definition header_prefix (block : CBlockHeader.t) : list byte :=
  le_split 4 (CBlockHeader.nVersion block)
  ++ le_split 32 (CBlockHeader.hashPrevBlock block)
  ++ le_split 32 (CBlockHeader.hashMerkleRoot block)
  ++ le_split 4 (CBlockHeader.nTime block)
  ++ le_split 4 (CBlockHeader.nBits block).

(** [n] bytes of a buffer from offset [off]. *)
Definition slice (off n : nat) (l : list byte) : list byte := firstn n (skipn off l).

(** The layout of the 80-byte encoding, offset by offset. *)
Definition header_layout (block : CBlockHeader.t) (nonce : Z) (e : list byte) : Prop :=
  length e = 80%nat
  /\ slice 0 4 e = le_split 4 (CBlockHeader.nVersion block)
  /\ slice 4 32 e = le_split 32 (CBlockHeader.hashPrevBlock block)
  /\ slice 36 32 e = le_split 32 (CBlockHeader.hashMerkleRoot block)
  /\ slice 68 4 e = le_split 4 (CBlockHeader.nTime block)
  /\ slice 72 4 e = le_split 4 (CBlockHeader.nBits block)
  /\ slice 76 4 e = le_split 4 nonce.

(** The engine digest of the encoding of [block] with [nonce]. *)
Definition digest (vm : list byte -> list byte) (block : CBlockHeader.t) (nonce : Z) : Z :=
  HashBytesToUnit256 (vm (header_encoding block nonce)).

(** No two 16-byte streams, the length of every key stream, share a
    digest. *)
Definition collision_free (GetHash : list byte -> Z) : Prop :=
  forall a b : list byte,
    length a = 16%nat -> length b = 16%nat -> GetHash a = GetHash b -> a = b.

(* ===================================================================== *)
(** ** Sample inputs *)
(* ===================================================================== *)

Definition mainnet_like : Consensus.Params :=
  Consensus.mkParams (0xffff * 2 ^ 208) false false 600 1209600.

(** Retargeting switched off, with the limit of [mainnet_like]. *)
Definition no_retarget_low_limit : Consensus.Params :=
  Consensus.mkParams (0xffff * 2 ^ 208) false true 600 1209600.

(** A 90-second timespan: not a multiple of four. *)
Definition short_timespan : Consensus.Params :=
  Consensus.mkParams (0xffff * 2 ^ 208) false false 30 90.

(** A limit close to [2 ^ 255]. *)
Definition high_limit : Consensus.Params :=
  Consensus.mkParams (0x7fffff * 2 ^ 232) false false 600 1209600.

Definition tip_32255 : CBlockIndex.t := CBlockIndex.mk 32255 1262152739 0x1d00ffff.
Definition tip_easy : CBlockIndex.t := CBlockIndex.mk 2015 1262152739 0x207fffff.

Definition header_at (nTime : Z) : CBlockHeader.t :=
  CBlockHeader.mk 1 0 0 nTime 0x1d00ffff 0.

Definition template (nBits : Z) : CBlockHeader.t :=
  CBlockHeader.mk 1 0 0 1700000000 nBits 0.

(** Engines with a constant digest: all zero bytes, all [0xff] bytes. *)
Definition zero_engine : list byte -> list byte := fun _ => repeat Byte.x00 32.
Definition ones_engine : list byte -> list byte := fun _ => repeat Byte.xff 32.

Definition lucky_miner (nBits : Z) : RxWorkMiner.t :=
  RxWorkMiner.mk zero_engine (template nBits).
Definition unlucky_miner : RxWorkMiner.t :=
  RxWorkMiner.mk ones_engine (template 0x1d00ffff).

(** A shutdown predicate that turns true at its third call. *)
Definition stop_at_third : nat -> bool := fun k => Nat.leb 2 k.

Definition fresh_world (script : list bool) : randomx.world :=
  {| randomx.script := script; randomx.calls := [] |}.

(** The pool on a machine with one core and 1 GiB of free memory. *)
Definition one_context_pool : RxWorkVerifier3.t :=
  fst (RxWorkVerifier3.create 1 (2 ^ 30) (fresh_world [])).

(* ===================================================================== *)
(** ** Next work along a chain (pow.cpp, lines 24-57) *)
(* ===================================================================== *)

Definition i64_add (a b : Z) : option Z := i64_checked (a + b).

(** [int] addition: overflow is undefined. *)
Definition int_add (a b : Z) : option Z :=
  let z := a + b in
  if (- 2 ^ 31 <=? z) && (z <? 2 ^ 31) then Some z else None.

(** A block index with the blocks its [pprev] pointers lead to, nearest
    first; the last one has a null [pprev]. *)
Definition chain_of (pindex : CBlockIndex.t) (pprev : list CBlockIndex.t)
  : list CBlockIndex.t := pindex :: pprev.

(** Modelled from the spec: [CBlockIndex::GetAncestor] of chain.h, which is
    not under src/: the block of the chain at the given height, and null
    when the height is negative or above the block's own. *)
Definition GetAncestor (pindex : CBlockIndex.t) (pprev : list CBlockIndex.t)
    (height : Z) : option CBlockIndex.t :=
  if (height >? CBlockIndex.nHeight pindex) || (height <? 0) then None
  else find (fun b => CBlockIndex.nHeight b =? height) (chain_of pindex pprev).

(** [while (pindex->pprev && pindex->nHeight % interval != 0
            && pindex->nBits == nProofOfWorkLimit) pindex = pindex->pprev;
     return pindex->nBits;] *)
Fixpoint last_non_special (interval nProofOfWorkLimit : Z)
    (pindex : CBlockIndex.t) (pprev : list CBlockIndex.t) : option Z :=
  match pprev with
  | [] => Some (CBlockIndex.nBits pindex)
  | prev :: rest =>
      r <- i64_rem (CBlockIndex.nHeight pindex) interval ;;
      if negb (r =? 0) && (CBlockIndex.nBits pindex =? nProofOfWorkLimit)
      then last_non_special interval nProofOfWorkLimit prev rest
      else Some (CBlockIndex.nBits pindex)
  end.

(** [GetNextWorkRequired]; [None] also stands for a failed [assert]. *)
Definition GetNextWorkRequired
    (pindexLast : CBlockIndex.t) (pprev : list CBlockIndex.t)
    (pblock : CBlockHeader.t) (params : Consensus.Params) : option Z :=
  let nProofOfWorkLimit := GetCompact (UintToArith256 (Consensus.powLimit params)) in
  (* Only change once per difficulty adjustment interval *)
  interval <- Consensus.DifficultyAdjustmentInterval params ;;
  next <- int_add (CBlockIndex.nHeight pindexLast) 1 ;;
  r <- i64_rem next interval ;;
  if negb (r =? 0) then
    if Consensus.fPowAllowMinDifficultyBlocks params then
      twice <- i64_mul (Consensus.nPowTargetSpacing params) 2 ;;
      deadline <- i64_add (CBlockIndex.GetBlockTime pindexLast) twice ;;
      if CBlockHeader.nTime pblock >? deadline then Some nProofOfWorkLimit
      else last_non_special interval nProofOfWorkLimit pindexLast pprev
    else Some (CBlockIndex.nBits pindexLast)
  else
    (* Go back by what we want to be 14 days worth of blocks *)
    span <- i64_sub interval 1 ;;
    first <- i64_sub (CBlockIndex.nHeight pindexLast) span ;;
    let nHeightFirst := RxWorkVerifier3.to_int first in
    if nHeightFirst <? 0 then None
    else
      pindexFirst <- GetAncestor pindexLast pprev nHeightFirst ;;
      CalculateNextWorkRequired pindexLast (CBlockIndex.GetBlockTime pindexFirst) params.

(** A chain as the block index builds it: each [pprev] one lower. *)
Fixpoint linked (pindex : CBlockIndex.t) (pprev : list CBlockIndex.t) : Prop :=
  match pprev with
  | [] => True
  | prev :: rest =>
      CBlockIndex.nHeight prev = CBlockIndex.nHeight pindex - 1 /\ linked prev rest
  end.

(** Parameters with at least one block per interval, in a range where the
    interval arithmetic is defined. *)
Definition interval_params (params : Consensus.Params) : Prop :=
  0 < Consensus.nPowTargetSpacing params <= Consensus.nPowTargetTimespan params
  /\ Consensus.nPowTargetTimespan params < 2 ^ 31.

(** A chain of four blocks at heights 3 down to 0, ten minutes apart, under
    parameters with four blocks per interval, and the same chain where the
    minimum-difficulty rule is on and the two top blocks used it. *)
Definition short_chain_tip : CBlockIndex.t := CBlockIndex.mk 3 1700001800 0x1c0ffff0.
Definition short_chain_prev : list CBlockIndex.t :=
  [ CBlockIndex.mk 2 1700001200 0x1c0ffff0;
    CBlockIndex.mk 1 1700000600 0x1c0ffff0;
    CBlockIndex.mk 0 1700000000 0x1c0ffff0 ].
Definition four_block_interval : Consensus.Params :=
  Consensus.mkParams (0xffff * 2 ^ 208) false false 600 2400.
Definition four_block_testnet : Consensus.Params :=
  Consensus.mkParams (0xffff * 2 ^ 208) true false 600 2400.
Definition special_tip : CBlockIndex.t := CBlockIndex.mk 6 1700003600 0x1d00ffff.
Definition special_prev : list CBlockIndex.t :=
  [ CBlockIndex.mk 5 1700003000 0x1d00ffff;
    CBlockIndex.mk 4 1700002400 0x1c0ffff0;
    CBlockIndex.mk 3 1700001800 0x1c0ffff0 ].

(* ===================================================================== *)
(** ** The pool over its lifetime (pow.cpp, lines 288-291 and 322-355) *)
(* ===================================================================== *)

(** [~VerifierCtx]: both handles are handed to the engine, null or not. *)
Definition VerifierCtx_destroy (ctx : VerifierCtx.t) (w : randomx.world) : randomx.world :=
  let w := randomx.log (randomx.destroy_vm (VerifierCtx.m_vm ctx)) w in
  randomx.log (randomx.release_cache (VerifierCtx.m_cache ctx)) w.

(** [~RxWorkVerifier3]:
    [for (int i = 0; i < mCacheStack.size(); ++i) { cache = pop(); delete cache; }].
    The bound is read again on every pass, from a stack that shrinks. *)
Fixpoint destroy_loop (i : nat) (stack : list VerifierCtx.t) (w : randomx.world)
  : list VerifierCtx.t * randomx.world :=
  match stack with
  | [] => ([], w)
  | cache :: rest =>
      if (i <? length stack)%nat
      then destroy_loop (S i) rest (VerifierCtx_destroy cache w)
      else (stack, w)
  end.

Definition RxWorkVerifier3_destroy (v : RxWorkVerifier3.t) (w : randomx.world)
  : list VerifierCtx.t * randomx.world :=
  destroy_loop 0 (RxWorkVerifier3.mCacheStack v) w.

(** The calls of a log that hand contexts' engines back. *)
Definition is_destroy_vm (c : randomx.call) : bool :=
  match c with randomx.destroy_vm _ => true | _ => false end.

Definition is_alloc_cache (c : randomx.call) : bool :=
  match c with randomx.alloc_cache _ => true | _ => false end.

(** A context as the constructor leaves it. *)
Definition blank_context : VerifierCtx.t :=
  {| VerifierCtx.m_key := 0; VerifierCtx.m_vm := None; VerifierCtx.m_cache := None |}.

(** A virtual machine, when the context has one, was created for the key
    the context is bound to. *)
Definition bound (ctx : VerifierCtx.t) : Prop :=
  match VerifierCtx.m_vm ctx with
  | Some k => k = VerifierCtx.m_key ctx
  | None => True
  end.

(** [PowHash] called for one request after the other by a single thread;
    [None] when a call blocks. The digests come in the order of the
    requests. *)
Fixpoint PowHash_run (rx_hash : Z -> list byte -> list byte)
    (v : RxWorkVerifier3.t) (w : randomx.world) (requests : list (Z * list byte))
  : option (list (option Z) * RxWorkVerifier3.t * randomx.world) :=
  match requests with
  | [] => Some ([], v, w)
  | (key, input) :: more =>
      match RxWorkVerifier3.PowHash rx_hash v key input w with
      | RxWorkVerifier3.Blocked => None
      | RxWorkVerifier3.Returned v' w' digest =>
          match PowHash_run rx_hash v' w' more with
          | Some (digests, v'', w'') => Some (digest :: digests, v'', w'')
          | None => None
          end
      end
  end.

(** How often the key changes along a sequence of requests, starting from
    the key [k0]. *)
Fixpoint key_changes (k0 : Z) (keys : list Z) : nat :=
  match keys with
  | [] => 0
  | k :: more => (if k =? k0 then 0 else 1) + key_changes k more
  end.

(** The number of cache allocations the engine was asked for. *)
Definition allocations (w : randomx.world) : nat :=
  length (filter is_alloc_cache (randomx.calls w)).

(** A context with a virtual machine. *)
Definition live (ctx : VerifierCtx.t) : Prop := VerifierCtx.m_vm ctx <> None.

Definition key_engine : Z -> list byte -> list byte := fun k _ => le_split 32 k.

(* ===================================================================== *)
(** ** A miner and the block it finds (pow.h, lines 89-150) *)
(* ===================================================================== *)

(** [RxWorkMiner(const CBlockHeader& block)] where every allocation
    succeeds: the virtual machine runs over the dataset built from the
    cache of the header's key. The engine computes the same digest in
    both of its modes, over a cache and over the dataset made from it, so
    the machine computes the engine's digest under that key. *)
Definition RxWorkMiner_create (GetHash : list byte -> Z)
    (rx_hash : Z -> list byte -> list byte) (block : CBlockHeader.t) : RxWorkMiner.t :=
  {| RxWorkMiner.mVm := rx_hash (sha256dKeyBlock GetHash block);
     RxWorkMiner.mBlockHeader := block |}.

(** The template with the nonce a search returned. *)
Definition with_nonce (block : CBlockHeader.t) (nonce : Z) : CBlockHeader.t :=
  {| CBlockHeader.nVersion := CBlockHeader.nVersion block;
     CBlockHeader.hashPrevBlock := CBlockHeader.hashPrevBlock block;
     CBlockHeader.hashMerkleRoot := CBlockHeader.hashMerkleRoot block;
     CBlockHeader.nTime := CBlockHeader.nTime block;
     CBlockHeader.nBits := CBlockHeader.nBits block;
     CBlockHeader.nNonce := nonce |}.

(** An engine that needs the nonce to reach 3: the digest is all ones
    below, zero from there on. *)
Definition third_nonce_engine : list byte -> list byte :=
  fun input =>
    if le_combine (skipn 76 input) <? 3 then repeat Byte.xff 32 else repeat Byte.x00 32.

Definition patient_miner : RxWorkMiner.t :=
  RxWorkMiner.mk third_nonce_engine (template 0x1d00ffff).

(** The predicate, if there is one, answers [false] at its call number
    [k]. *)
Definition quiet (ShutdownRequested : option (nat -> bool)) (k : nat) : Prop :=
  match ShutdownRequested with
  | Some f => f k = false
  | None => True
  end.

(** A digest function for sample keys, and an engine whose digest is all
    zero under every key. *)
Definition sample_GetHash : list byte -> Z := le_combine.
Definition zero_rx_hash : Z -> list byte -> list byte := fun _ _ => repeat Byte.x00 32.

(* ===================================================================== *)
(** ** Dataset initialisation ranges (pow.h, lines 116-131) *)
(* ===================================================================== *)




(* ===================================================================== *)
(** ** The built-in double SHA-256 (pow.cpp, lines 399-623) *)
(* ===================================================================== *)

(** [int] multiplication; [None] on signed overflow. *)
Definition int_mul (a b : Z) : option Z :=
  let z := a * b in
  if (- 2 ^ 31 <=? z) && (z <? 2 ^ 31) then Some z else None.

Module sha2.

Definition sha256_h : list Z :=
  [ 0x6a09e667; 0xbb67ae85; 0x3c6ef372; 0xa54ff53a;
    0x510e527f; 0x9b05688c; 0x1f83d9ab; 0x5be0cd19 ].

(** The table [sha256_k], one row of the source per line. *)
Definition sha256_k : list Z :=
     [0x428a2f98; 0x71374491; 0xb5c0fbcf; 0xe9b5dba5]
  ++ [0x3956c25b; 0x59f111f1; 0x923f82a4; 0xab1c5ed5]
  ++ [0xd807aa98; 0x12835b01; 0x243185be; 0x550c7dc3]
  ++ [0x72be5d74; 0x80deb1fe; 0x9bdc06a7; 0xc19bf174]
  ++ [0xe49b69c1; 0xefbe4786; 0x0fc19dc6; 0x240ca1cc]
  ++ [0x2de92c6f; 0x4a7484aa; 0x5cb0a9dc; 0x76f988da]
  ++ [0x983e5152; 0xa831c66d; 0xb00327c8; 0xbf597fc7]
  ++ [0xc6e00bf3; 0xd5a79147; 0x06ca6351; 0x14292967]
  ++ [0x27b70a85; 0x2e1b2138; 0x4d2c6dfc; 0x53380d13]
  ++ [0x650a7354; 0x766a0abb; 0x81c2c92e; 0x92722c85]
  ++ [0xa2bfe8a1; 0xa81a664b; 0xc24b8b70; 0xc76c51a3]
  ++ [0xd192e819; 0xd6990624; 0xf40e3585; 0x106aa070]
  ++ [0x19a4c116; 0x1e376c08; 0x2748774c; 0x34b0bcb5]
  ++ [0x391c0cb3; 0x4ed8aa4a; 0x5b9cca4f; 0x682e6ff3]
  ++ [0x748f82ee; 0x78a5636f; 0x84c87814; 0x8cc70208]
  ++ [0x90befffa; 0xa4506ceb; 0xbef9a3f7; 0xc67178f2].

(** [uint32_t] arrays are lists of words; [word l i] is [l[i]] and
    [set_word l i v] is [l[i] = v]. *)
Definition word (l : list Z) (i : Z) : Z := nth (Z.to_nat i) l 0.

Definition set_word (l : list Z) (i : Z) (v : Z) : list Z :=
  firstn (Z.to_nat i) l ++ v :: skipn (S (Z.to_nat i)) l.

(** [memcpy(state, sha256_h, 32)]: the first eight words are replaced. *)
Definition sha256_init (state : list Z) : list Z := sha256_h ++ skipn 8 state.

Definition add32 (a b : Z) : Z := wrap32 (a + b).
Definition shl32 (x n : Z) : Z := wrap32 (Z.shiftl x n).

Definition u8 (p : list byte) (i : nat) : Z := byte.unsigned (nth i p Byte.x00).

Definition be32dec (p : list byte) : Z :=
  add32 (add32 (add32 (u8 p 3) (shl32 (u8 p 2) 8)) (shl32 (u8 p 1) 16))
        (shl32 (u8 p 0) 24).

Definition be32enc (x : Z) : list byte :=
  [ byte.of_Z (Z.land (Z.shiftr x 24) 0xff);
    byte.of_Z (Z.land (Z.shiftr x 16) 0xff);
    byte.of_Z (Z.land (Z.shiftr x 8) 0xff);
    byte.of_Z (Z.land x 0xff) ].

(** [__builtin_bswap32]. *)
Definition swab32 (v : Z) : Z :=
  Z.lor (Z.lor (Z.lor (Z.land (Z.shiftr v 24) 0xff)
                      (Z.land (Z.shiftr v 8) 0xff00))
               (Z.land (shl32 v 8) 0xff0000))
        (Z.land (shl32 v 24) 0xff000000).

(** Elementary functions. *)
Definition Ch (x y z : Z) : Z := Z.lxor (Z.land x (Z.lxor y z)) z.
Definition Maj (x y z : Z) : Z := Z.lor (Z.land x (Z.lor y z)) (Z.land y z).
Definition ROTR (x n : Z) : Z := Z.lor (Z.shiftr x n) (shl32 x (32 - n)).
Definition S0 (x : Z) : Z := Z.lxor (Z.lxor (ROTR x 2) (ROTR x 13)) (ROTR x 22).
Definition S1 (x : Z) : Z := Z.lxor (Z.lxor (ROTR x 6) (ROTR x 11)) (ROTR x 25).
Definition s0 (x : Z) : Z := Z.lxor (Z.lxor (ROTR x 7) (ROTR x 18)) (Z.shiftr x 3).
Definition s1 (x : Z) : Z := Z.lxor (Z.lxor (ROTR x 17) (ROTR x 19)) (Z.shiftr x 10).

(** [RNDr(S, W, i)]: the round function on the rotating state. *)
Definition RNDr (S W : list Z) (i : Z) : list Z :=
  let a := word S ((64 - i) mod 8) in
  let b := word S ((65 - i) mod 8) in
  let c := word S ((66 - i) mod 8) in
  let d := word S ((67 - i) mod 8) in
  let e := word S ((68 - i) mod 8) in
  let f := word S ((69 - i) mod 8) in
  let g := word S ((70 - i) mod 8) in
  let h := word S ((71 - i) mod 8) in
  let k := add32 (word W i) (word sha256_k i) in
  let t0 := add32 (add32 (add32 h (S1 e)) (Ch e f g)) k in
  let t1 := add32 (S0 a) (Maj a b c) in
  let S := set_word S ((67 - i) mod 8) (add32 d t0) in
  set_word S ((71 - i) mod 8) (add32 t0 t1).

(** The schedule loop [for (i = 16; i < 64; i += 2)]. *)
Fixpoint schedule (todo : nat) (i : Z) (W : list Z) : list Z :=
  match todo with
  | O => W
  | S todo' =>
      let W := set_word W i
                 (add32 (add32 (add32 (s1 (word W (i - 2))) (word W (i - 7)))
                               (s0 (word W (i - 15))))
                        (word W (i - 16))) in
      let W := set_word W (i + 1)
                 (add32 (add32 (add32 (s1 (word W (i - 1))) (word W (i - 6)))
                               (s0 (word W (i - 14))))
                        (word W (i - 15))) in
      schedule todo' (i + 2) W
  end.

Definition rounds : list Z := map Z.of_nat (seq 0 64).

(** [sha256_transform(state, block, swap)]; the words of [state] past the
    eighth are not touched. *)
Definition sha256_transform (state block : list Z) (swap : bool) : list Z :=
  let W := (if swap then map swab32 (firstn 16 block) else firstn 16 block)
             ++ repeat 0 48 in
  let W := schedule 24 16 W in
  let S := firstn 8 state in
  let S := fold_left (fun S i => RNDr S W i) rounds S in
  map (fun i => add32 (word state i) (word S i)) (map Z.of_nat (seq 0 8))
    ++ skipn 8 state.

Definition sha256d_hash1 : list Z :=
  [ 0x00000000; 0x00000000; 0x00000000; 0x00000000;
    0x00000000; 0x00000000; 0x00000000; 0x00000000;
    0x80000000; 0x00000000; 0x00000000; 0x00000000;
    0x00000000; 0x00000000; 0x00000000; 0x00000100 ].

(** A [uint32_t] array seen as bytes and back, on a little-endian host. *)
Definition host_bytes (words : list Z) : list byte := flat_map (le_split 4) words.

Definition host_words (bytes : list byte) : list Z :=
  map (fun i => le_combine (firstn 4 (skipn (4 * i) bytes))) (seq 0 16).

(** The loop [for (r = len; r > -9; r -= 64)] of [sha256d]; [T] is carried
    as the 64 bytes of the array. *)
Fixpoint sha256d_loop (fuel : nat) (S : list Z) (T data : list byte) (len r : Z)
  : option (list Z * list byte) :=
  if r >? -9 then
    match fuel with
    | O => None
    | Datatypes.S fuel' =>
        let T := if r <? 64 then repeat Byte.x00 64 else T in
        let n := if r >? 64 then 64 else if r <? 0 then 0 else r in
        let T := store_at 0 (firstn (Z.to_nat n) (skipn (Z.to_nat (len - r)) data)) T in
        let T := if (0 <=? r) && (r <? 64)
                 then store_at (Z.to_nat r) [Byte.x80] T else T in
        let Tw := map (fun i => be32dec (skipn (4 * i) T)) (seq 0 16) in
        Tw <- (if r <? 56
               then bits <- int_mul 8 len ;; Some (set_word Tw 15 (wrap32 bits))
               else Some Tw) ;;
        let S := sha256_transform S Tw false in
        sha256d_loop fuel' S (host_bytes Tw) data len (r - 64)
    end
  else Some (S, T).

(** [sha256d(hash, data, len)] with [len] the length of [data]; [S] and [T]
    are the contents of the two local arrays on entry, which the function
    does not initialise. *)
Definition sha256d (S : list Z) (T data : list byte) : option (list byte) :=
  let len := Z.of_nat (length data) in
  let S := sha256_init S in
  st <- sha256d_loop (Datatypes.S (length data)) S T data len len ;;
  let S := firstn 8 (fst st) ++ skipn 8 sha256d_hash1 in
  let T := sha256_init (host_words (snd st)) in
  let T := sha256_transform T S false in
  Some (flat_map be32enc (firstn 8 T)).

(** [sprintf(buf, "%02x", ...)]: two lower-case hexadecimal digits. *)
Definition hex_digit (n : Z) : Ascii.ascii :=
  Ascii.ascii_of_nat (Z.to_nat (if n <? 10 then 48 + n else 87 + n)).

Definition hexStr (hash : list byte) (size : Z) : list Ascii.ascii :=
  flat_map (fun b => [hex_digit (byte.unsigned b / 16);
                      hex_digit (byte.unsigned b mod 16)])
           (firstn (Z.to_nat size) hash).

Definition doubleSHA256OpenSSL (S : list Z) (T data : list byte)
  : option (list Ascii.ascii) :=
  hash <- sha256d S T data ;;
  Some (hexStr hash 32).

End sha2.

(** The padding of SHA-256 (FIPS 180-4, 5.1.1): a one bit, zero bits up to
    56 modulo 64 bytes, and the bit length on eight bytes, big-endian. *)
Definition sha256_padding (data : list byte) : list byte :=
  let len := Z.of_nat (length data) in
  data ++ Byte.x80 :: repeat Byte.x00 (Z.to_nat ((55 - len) mod 64))
       ++ rev (le_split 8 (8 * len)).

(** Big-endian words of a byte string, and its 16-word blocks. *)
Fixpoint words_of (n : nat) (bytes : list byte) : list Z :=
  match n with
  | O => []
  | S n' => sha2.be32dec bytes :: words_of n' (skipn 4 bytes)
  end.

Fixpoint blocks_of (n : nat) (bytes : list byte) : list (list Z) :=
  match n with
  | O => []
  | S n' => words_of 16 bytes :: blocks_of n' (skipn 64 bytes)
  end.

Definition compress (S block : list Z) : list Z :=
  sha2.sha256_transform S block false.

(** One hash: the compression function of the source iterated over the
    blocks of the padded message, from the initial state [sha256_h]. *)
Definition sha256_iterated (data : list byte) : list byte :=
  let padded := sha256_padding data in
  flat_map sha2.be32enc
    (fold_left compress (blocks_of (length padded / 64) padded) sha2.sha256_h).

(** Sample inputs: the bytes of the text hello world with the digest that
    the comment of [JustCheck] records for it, and array contents. *)
Module sha2_samples.
Import Ascii String.

Definition bytes_of (text : string) : list byte :=
  map (fun c => byte.of_Z (Z.of_nat (nat_of_ascii c))) (list_ascii_of_string text).

Definition hello_world : list byte := bytes_of "hello world".

Definition hello_world_digest : list ascii :=
  list_ascii_of_string
    "bc62d4b80d9e36da29c16c5d4d9f11731f36052c72401a76c23c0fb5a9b74423".

End sha2_samples.

Definition stale_words : list Z := repeat 0xdeadbeef 16.
Definition stale_bytes : list byte := repeat Byte.xaa 64.

(** What is left of the padded message when [r] bytes of [data] remain,
    and the number of 64-byte blocks it makes. *)
Definition padded_from (data : list byte) (r : Z) : list byte :=
  skipn (Z.to_nat (Z.of_nat (length data) - r)) data
    ++ Byte.x80 :: repeat Byte.x00 (Z.to_nat ((55 - r) mod 64))
    ++ rev (le_split 8 (8 * Z.of_nat (length data))).

Definition block_count (r : Z) : nat :=
  Nat.add (Z.to_nat (r / 64)) (if r mod 64 <? 56 then 1%nat else 2%nat).

(* ===================================================================== *)
(** * Properties *)
(* ===================================================================== *)

(** ** Bit-level facts *)

Lemma land_bit23 m : 0 <= m < 2 ^ 24 -> (Z.land m 0x00800000 =? 0) = (m <? 2 ^ 23).
Proof.
  intros Hm.
  change 0x00800000 with (2 ^ 23).
  destruct (Z.ltb_spec m (2 ^ 23)) as [Hlt | Hge].
  - apply Z.eqb_eq. apply Z.bits_inj'. intros i Hi.
    rewrite Z.land_spec, Z.bits_0, Z.pow2_bits_eqb by lia.
    destruct (Z.eqb_spec 23 i) as [<- | Hne]; [| apply andb_false_r].
    rewrite andb_true_r. apply Z.bits_above_log2; [lia |].
    destruct (Z.eq_dec m 0) as [-> | Hnz]; [cbn; lia |].
    apply Z.log2_lt_pow2; lia.
  - apply Z.eqb_neq. intros H.
    assert (Hb : Z.testbit (Z.land m (2 ^ 23)) 23 = false) by (rewrite H; apply Z.bits_0).
    rewrite Z.land_spec, Z.pow2_bits_true, andb_true_r in Hb by lia.
    assert (Hq : m / 2 ^ 23 = 1) by (symmetry; apply Z.div_unique with (r := m - 2 ^ 23); lia).
    apply Z.testbit_false in Hb; [| lia]. rewrite Hq in Hb. discriminate.
Qed.

Lemma lor_exponent m e :
  0 <= m < 2 ^ 24 -> 0 <= e -> Z.lor m (Z.shiftl e 24) = m + e * 2 ^ 24.
Proof.
  intros Hm He. rewrite Z.shiftl_mul_pow2 by lia.
  apply BitOps.or_to_plus. apply Z.bits_inj'. intros i Hi.
  rewrite Z.land_spec, Z.bits_0.
  destruct (Z.ltb_spec i 24) as [Hlo | Hhi].
  - rewrite Z.mul_pow2_bits_low by lia. apply andb_false_r.
  - destruct (Z.eq_dec m 0) as [-> | Hnz]; [rewrite Z.bits_0; reflexivity |].
    rewrite (Z.bits_above_log2 m i); [reflexivity | lia |].
    assert (Z.log2 m < 24) by (apply Z.log2_lt_pow2; lia). lia.
Qed.

Lemma compact_fields m e :
  0 <= m < 2 ^ 23 -> 0 <= e ->
  Z.shiftr (m + e * 2 ^ 24) 24 = e
  /\ Z.land (m + e * 2 ^ 24) 0x007fffff = m
  /\ Z.land (m + e * 2 ^ 24) 0x00800000 = 0.
Proof.
  intros Hm He. repeat split.
  - rewrite Z.shiftr_div_pow2 by lia. rewrite Z.div_add by lia.
    rewrite Z.div_small by lia. lia.
  - change 0x007fffff with (Z.ones 23). rewrite Z.land_ones by lia.
    replace (m + e * 2 ^ 24) with (m + (e * 2) * 2 ^ 23) by lia.
    rewrite Z.mod_add by lia. apply Z.mod_small; lia.
  - change 0x00800000 with (2 ^ 23).
    apply Z.bits_inj'. intros i Hi.
    rewrite Z.land_spec, Z.bits_0, Z.pow2_bits_eqb by lia.
    destruct (Z.eqb_spec 23 i) as [<- | Hne]; [| apply andb_false_r].
    rewrite andb_true_r. apply Z.testbit_false; [lia |].
    replace (m + e * 2 ^ 24) with (m + (e * 2) * 2 ^ 23) by lia.
    rewrite Z.div_add by lia. rewrite Z.div_small by lia.
    rewrite Z.add_0_l. apply Z.mod_mul; lia.
Qed.

Lemma pow_split a b : 0 <= a -> 0 <= b -> 2 ^ (a + b) = 2 ^ a * 2 ^ b.
Proof. intros. apply Z.pow_add_r; lia. Qed.

(** Between two powers of two, measured in units of [2 ^ k]. *)
Lemma window_div x k lo hi :
  0 <= k -> 0 <= lo -> 0 <= hi ->
  2 ^ (k + lo) <= x < 2 ^ (k + hi) ->
  2 ^ lo <= x / 2 ^ k < 2 ^ hi.
Proof.
  intros Hk Hlo Hhi [H1 H2].
  rewrite pow_split in H1, H2 by lia.
  assert (0 < 2 ^ k) by (apply Z.pow_pos_nonneg; lia).
  split.
  - apply Z.div_le_lower_bound; lia.
  - apply Z.div_lt_upper_bound; lia.
Qed.

(** ** The width of a 256-bit integer *)

Lemma bits_pos x : 0 < x -> 2 ^ (bits x - 1) <= x < 2 ^ bits x.
Proof.
  intros Hx. unfold bits. destruct (Z.eqb_spec x 0); [lia |].
  replace (Z.log2 x + 1 - 1) with (Z.log2 x) by lia.
  apply Z.log2_spec; lia.
Qed.

Lemma bits_range x : 0 < x < 2 ^ 256 -> 1 <= bits x <= 256.
Proof.
  intros [Hx Hlt]. unfold bits. destruct (Z.eqb_spec x 0); [lia |].
  pose proof (Z.log2_nonneg x).
  assert (Z.log2 x < 256) by (apply Z.log2_lt_pow2; lia). lia.
Qed.

(** Clearing the low [k] bits keeps the width. *)
Lemma bits_truncate x k :
  0 < x -> 0 <= k <= Z.log2 x -> bits (x / 2 ^ k * 2 ^ k) = bits x.
Proof.
  intros Hx Hk.
  assert (Hp : 0 < 2 ^ k) by (apply Z.pow_pos_nonneg; lia).
  destruct (Z.log2_spec x Hx) as [Hl Hu].
  assert (Hq : 2 ^ (Z.log2 x - k) <= x / 2 ^ k).
  { apply Z.div_le_lower_bound; [lia |].
    rewrite <- Z.pow_add_r by lia. replace (k + (Z.log2 x - k)) with (Z.log2 x) by lia. lia. }
  assert (Hy : 2 ^ Z.log2 x <= x / 2 ^ k * 2 ^ k).
  { replace (Z.log2 x) with ((Z.log2 x - k) + k) at 1 by lia.
    rewrite Z.pow_add_r by lia. apply Z.mul_le_mono_nonneg_r; lia. }
  pose proof (Z.mul_div_le x (2 ^ k) Hp) as Hle.
  assert (0 < 2 ^ Z.log2 x) by (apply Z.pow_pos_nonneg; [lia | apply Z.log2_nonneg]).
  unfold bits.
  destruct (Z.eqb_spec (x / 2 ^ k * 2 ^ k) 0); [lia |].
  destruct (Z.eqb_spec x 0); [lia |].
  f_equal. apply Z.log2_unique; [apply Z.log2_nonneg |]. lia.
Qed.

(** ** The compact form in closed terms *)

Lemma GetCompact_closed x :
  0 < x < 2 ^ 256 ->
  GetCompact x = mantissa x (exponent x) + exponent x * 2 ^ 24
  /\ 2 ^ 15 <= mantissa x (exponent x) < 2 ^ 23
  /\ 1 <= exponent x <= 33.
Proof.
  intros Hx.
  pose proof (bits_range x Hx) as Hb.
  pose proof (bits_pos x ltac:(lia)) as Hbx.
  unfold GetCompact, exponent.
  set (b := bits x) in *.
  set (n := (b + 7) / 8).
  assert (Hn : 8 * n - 7 <= b <= 8 * n) by (subst n; Z.div_mod_to_equations; lia).
  assert (Hlo : 2 ^ (8 * n - 8) <= x).
  { eapply Z.le_trans; [| apply Hbx]. apply Z.pow_le_mono_r; lia. }
  assert (Hhi : x < 2 ^ (8 * n)).
  { eapply Z.lt_le_trans; [apply Hbx |]. apply Z.pow_le_mono_r; lia. }
  assert (Hcarry : b = 8 * n <-> 2 ^ (8 * n - 1) <= x).
  { split; intros H.
    - replace (8 * n - 1) with (b - 1) by lia. apply Hbx.
    - destruct (Z.eq_dec b (8 * n)) as [Heq | Hne]; [exact Heq | exfalso].
      assert (2 ^ b <= 2 ^ (8 * n - 1)) by (apply Z.pow_le_mono_r; lia). lia. }
  unfold GetLow64, wrap64, wrap32, shr.
  destruct (Z.leb_spec n 3) as [Hsmall | Hbig].
  - (* at most three bytes: the mantissa is shifted up *)
    assert (Hn3 : n = 1 \/ n = 2 \/ n = 3) by lia.
    assert (Hx24 : x < 2 ^ 24).
    { eapply Z.lt_le_trans; [apply Hhi |]. apply Z.pow_le_mono_r; lia. }
    rewrite (Z.mod_small x) by lia.
    rewrite Z.shiftl_mul_pow2 by lia.
    set (m := x * 2 ^ (8 * (3 - n))).
    assert (Hm : 2 ^ 16 <= m < 2 ^ 24).
    { subst m. destruct Hn3 as [-> | [-> | ->]]; cbn in Hlo, Hhi |- *; lia. }
    rewrite (Z.mod_small m) by lia.
    rewrite land_bit23 by lia.
    destruct (Z.ltb_spec m (2 ^ 23)) as [Hlt | Hge]; cbn [negb].
    + assert (Hbn : b / 8 = n - 1).
      { assert (b <> 8 * n).
        { intros Heq. apply Hcarry in Heq. subst m.
          destruct Hn3 as [-> | [-> | ->]]; cbn in Heq, Hlt; lia. }
        Z.div_mod_to_equations; lia. }
      rewrite Hbn. replace (n - 1 + 1) with n by lia.
      unfold mantissa. destruct (Z.leb_spec n 3); [| lia]. fold m.
      rewrite lor_exponent by lia. lia.
    + assert (Hbn : b / 8 = n).
      { assert (b = 8 * n).
        { apply Hcarry. subst m.
          destruct Hn3 as [-> | [-> | ->]]; cbn in Hge |- *; lia. }
        Z.div_mod_to_equations; lia. }
      rewrite Hbn. rewrite Z.shiftr_div_pow2 by lia.
      assert (Hm8 : 2 ^ 15 <= m / 2 ^ 8 < 2 ^ 16).
      { split; [apply Z.div_le_lower_bound | apply Z.div_lt_upper_bound]; lia. }
      assert (Hmant : mantissa x (n + 1) = m / 2 ^ 8).
      { unfold mantissa. subst m.
        destruct Hn3 as [-> | [-> | ->]]; cbn [Z.leb Z.add Z.compare Pos.compare Pos.compare_cont Pos.add Pos.succ].
        - change (8 * (3 - 2)) with 8. change (8 * (3 - 1)) with 16.
          change (2 ^ 16) with (2 ^ 8 * 2 ^ 8). rewrite Z.mul_assoc, Z.div_mul by lia. reflexivity.
        - change (8 * (3 - 3)) with 0. change (8 * (3 - 2)) with 8.
          rewrite Z.div_mul by lia. lia.
        - change (8 * (4 - 3)) with 8. change (8 * (3 - 3)) with 0.
          rewrite Z.mul_1_r. reflexivity. }
      rewrite Hmant. rewrite lor_exponent by lia. lia.
  - (* more than three bytes: the mantissa is shifted down *)
    set (k := 8 * (n - 3)).
    assert (Hk : 0 <= k) by lia.
    rewrite Z.shiftr_div_pow2 by lia.
    set (m := x / 2 ^ k).
    assert (Hm : 2 ^ 16 <= m < 2 ^ 24).
    { subst m. apply window_div; try lia.
      replace (k + 16) with (8 * n - 8) by lia.
      replace (k + 24) with (8 * n) by lia. lia. }
    rewrite (Z.mod_small m (2 ^ 64)) by lia.
    rewrite (Z.mod_small m) by lia.
    rewrite land_bit23 by lia.
    assert (Hn32 : n <= 32) by lia.
    destruct (Z.ltb_spec m (2 ^ 23)) as [Hlt | Hge]; cbn [negb].
    + assert (Hbn : b / 8 = n - 1).
      { assert (b <> 8 * n).
        { intros Heq. apply Hcarry in Heq.
          assert (2 ^ 23 <= m < 2 ^ 24); [| lia].
          subst m. apply window_div; try lia.
          replace (k + 23) with (8 * n - 1) by lia.
          replace (k + 24) with (8 * n) by lia. lia. }
        Z.div_mod_to_equations; lia. }
      rewrite Hbn. replace (n - 1 + 1) with n by lia.
      unfold mantissa. destruct (Z.leb_spec n 3); [lia |]. fold k. fold m.
      rewrite lor_exponent by lia. lia.
    + assert (Hbn : b / 8 = n).
      { assert (b = 8 * n).
        { apply Hcarry.
          assert (0 < 2 ^ k) by (apply Z.pow_pos_nonneg; lia).
          replace (8 * n - 1) with (k + 23) by lia. rewrite pow_split by lia.
          subst m. pose proof (Z.mul_div_le x (2 ^ k) ltac:(lia)). nia. }
        Z.div_mod_to_equations; lia. }
      rewrite Hbn. rewrite Z.shiftr_div_pow2 by lia.
      assert (Hm8 : 2 ^ 15 <= m / 2 ^ 8 < 2 ^ 16).
      { split; [apply Z.div_le_lower_bound | apply Z.div_lt_upper_bound]; lia. }
      assert (Hmant : mantissa x (n + 1) = m / 2 ^ 8).
      { unfold mantissa. destruct (Z.leb_spec (n + 1) 3); [lia |].
        subst m. rewrite Z.div_div by (try apply Z.pow_pos_nonneg; lia).
        rewrite <- pow_split by lia. f_equal. f_equal. lia. }
      rewrite Hmant. rewrite lor_exponent by lia. lia.
Qed.

Lemma SetCompact_compact m e :
  0 <= m < 2 ^ 23 -> 0 <= e ->
  target (SetCompact (m + e * 2 ^ 24)) =
    (if e <=? 3 then m / 2 ^ (8 * (3 - e)) else wrap256 (m * 2 ^ (8 * (e - 3))))
  /\ fNegative (SetCompact (m + e * 2 ^ 24)) = false.
Proof.
  intros Hm He.
  destruct (compact_fields m e Hm He) as (Hs & Hw & Hg).
  unfold SetCompact. cbn [target fNegative]. rewrite Hs, Hw, Hg.
  split.
  - destruct (Z.leb_spec e 3).
    + apply Z.shiftr_div_pow2; lia.
    + unfold shl. rewrite Z.shiftl_mul_pow2 by lia. reflexivity.
  - cbn. apply andb_false_r.
Qed.

(** The overflow indication says what the specification asks of it: the
    shift would carry a set bit of the mantissa past bit 255. *)
Lemma SetCompact_overflow c :
  0 <= c < 2 ^ 32 ->
  let nSize := c / 2 ^ 24 in
  let nWord := c mod 2 ^ 23 in
  fOverflow (SetCompact c) = true <-> 3 < nSize /\ 2 ^ 256 <= nWord * 2 ^ (8 * (nSize - 3)).
Proof.
  intros Hc. cbv zeta. unfold SetCompact. cbn [fOverflow].
  rewrite Z.shiftr_div_pow2 by lia.
  change 0x007fffff with (Z.ones 23). rewrite Z.land_ones by lia.
  set (nSize := c / 2 ^ 24). set (nWord := c mod 2 ^ 23).
  assert (Hw : 0 <= nWord < 2 ^ 23) by (apply Z.mod_pos_bound; lia).
  assert (Hs : 0 <= nSize < 256).
  { subst nSize. split; [apply Z.div_pos; lia | apply Z.div_lt_upper_bound; lia]. }
  destruct (Z.leb_spec nSize 3) as [Hsmall | Hbig].
  - (* no shift up: none of the three tests can hold *)
    destruct (Z.gtb_spec nSize 34); [lia |].
    destruct (Z.gtb_spec nSize 33); [lia |].
    destruct (Z.gtb_spec nSize 32); [lia |].
    rewrite !andb_false_r. cbn. split; [discriminate | lia].
  - assert (Hp : 0 < 2 ^ (8 * (nSize - 3))) by (apply Z.pow_pos_nonneg; lia).
    destruct (Z.eqb_spec nWord 0) as [Hz | Hnz]; cbn [negb andb].
    { rewrite Hz. split; [discriminate | lia]. }
    destruct (Z.gtb_spec nSize 34) as [H34 | H34]; cbn [orb].
    { assert (2 ^ 256 <= 2 ^ (8 * (nSize - 3))) by (apply Z.pow_le_mono_r; lia).
      split; [intros _; split; [lia | nia] | reflexivity]. }
    destruct (Z.gtb_spec nSize 33) as [H33 | H33].
    { assert (nSize = 34) by lia. subst nSize.
      replace (8 * (c / 2 ^ 24 - 3)) with 248 in * by lia.
      rewrite andb_true_r.
      destruct (Z.gtb_spec nWord 0xff); cbn [orb].
      - split; [intros _; split; lia | reflexivity].
      - destruct (Z.gtb_spec (c / 2 ^ 24) 32); [| lia].
        rewrite andb_true_r.
        destruct (Z.gtb_spec nWord 0xffff); [lia |].
        split; [discriminate | lia]. }
    rewrite andb_false_r. cbn [orb].
    destruct (Z.gtb_spec nSize 32) as [H32 | H32].
    { assert (nSize = 33) by lia. subst nSize.
      replace (8 * (c / 2 ^ 24 - 3)) with 240 in * by lia.
      rewrite andb_true_r.
      destruct (Z.gtb_spec nWord 0xffff).
      - split; [intros _; split; lia | reflexivity].
      - split; [discriminate | lia]. }
    rewrite andb_false_r.
    assert (2 ^ (8 * (nSize - 3)) <= 2 ^ 232) by (apply Z.pow_le_mono_r; lia).
    split; [discriminate | nia].
Qed.

Lemma reround_closed x :
  0 < x < 2 ^ 256 ->
  reround x =
    if exponent x <=? 3 then x
    else x / 2 ^ (8 * (exponent x - 3)) * 2 ^ (8 * (exponent x - 3)).
Proof.
  intros Hx.
  destruct (GetCompact_closed x Hx) as (Hc & Hm & He).
  unfold reround. rewrite Hc.
  destruct (SetCompact_compact (mantissa x (exponent x)) (exponent x)) as [Ht _]; try lia.
  rewrite Ht. unfold mantissa in *.
  destruct (Z.leb_spec (exponent x) 3).
  - apply Z.div_mul. apply Z.pow_nonzero; lia.
  - unfold wrap256. apply Z.mod_small.
    set (k := 8 * (exponent x - 3)) in *.
    assert (0 < 2 ^ k) by (apply Z.pow_pos_nonneg; lia).
    pose proof (Z.mul_div_le x (2 ^ k) ltac:(lia)). nia.
Qed.

Lemma reround_zero : reround 0 = 0.
Proof. reflexivity. Qed.

Lemma reround_bounds x : 0 <= x < 2 ^ 256 -> 0 <= reround x <= x.
Proof.
  intros Hx. destruct (Z.eq_dec x 0) as [-> | Hnz]; [rewrite reround_zero; lia |].
  rewrite reround_closed by lia.
  destruct (GetCompact_closed x ltac:(lia)) as (_ & Hm & He).
  destruct (Z.leb_spec (exponent x) 3); [lia |].
  set (k := 8 * (exponent x - 3)) in *.
  assert (0 < 2 ^ k) by (apply Z.pow_pos_nonneg; lia).
  pose proof (Z.mul_div_le x (2 ^ k) ltac:(lia)).
  assert (0 <= x / 2 ^ k) by (apply Z.div_pos; lia). nia.
Qed.

Lemma GetCompact_reround x : 0 <= x < 2 ^ 256 -> GetCompact (reround x) = GetCompact x.
Proof.
  intros Hx. destruct (Z.eq_dec x 0) as [-> | Hnz]; [reflexivity |].
  rewrite reround_closed by lia.
  destruct (GetCompact_closed x ltac:(lia)) as (Hc & Hm & He).
  destruct (Z.leb_spec (exponent x) 3) as [Hsmall | Hbig]; [reflexivity |].
  set (e := exponent x) in *. set (k := 8 * (e - 3)).
  assert (Hp : 0 < 2 ^ k) by (apply Z.pow_pos_nonneg; lia).
  assert (Hmx : mantissa x e = x / 2 ^ k).
  { unfold mantissa. destruct (Z.leb_spec e 3); [lia | reflexivity]. }
  set (y := x / 2 ^ k * 2 ^ k).
  assert (Hkl : k <= Z.log2 x).
  { subst k e. unfold exponent, bits in *. destruct (Z.eqb_spec x 0); [lia |].
    Z.div_mod_to_equations; lia. }
  assert (Hby : bits y = bits x) by (apply bits_truncate; lia).
  assert (Hyx : y <= x) by (subst y; pose proof (Z.mul_div_le x (2 ^ k) Hp); lia).
  assert (Hy0 : 0 < y) by (subst y; rewrite <- Hmx; nia).
  destruct (GetCompact_closed y ltac:(lia)) as (Hcy & _ & _).
  assert (Hey : exponent y = e) by (unfold exponent; rewrite Hby; reflexivity).
  rewrite Hcy, Hey, Hc.
  assert (Hmy : mantissa y e = x / 2 ^ k).
  { unfold mantissa. destruct (Z.leb_spec e 3); [lia |]. fold k. subst y.
    apply Z.div_mul; lia. }
  rewrite Hmy, Hmx. reflexivity.
Qed.

(** ** Checked signed arithmetic *)

Lemma i64_checked_in z : INT64_MIN <= z <= INT64_MAX -> i64_checked z = Some z.
Proof.
  intros [H1 H2]. unfold i64_checked, in_int64.
  destruct (Z.leb_spec INT64_MIN z); [| lia].
  destruct (Z.leb_spec z INT64_MAX); [reflexivity | lia].
Qed.

Lemma i64_div_nonneg a b :
  0 <= a <= INT64_MAX -> 0 < b -> i64_div a b = Some (a / b).
Proof.
  intros Ha Hb. unfold i64_div.
  destruct (Z.eqb_spec b 0); [lia |].
  rewrite Z.quot_div_nonneg by lia.
  apply i64_checked_in.
  assert (0 <= a / b) by (apply Z.div_pos; lia).
  assert (a / b <= a) by (apply Z.div_le_upper_bound; nia).
  unfold INT64_MIN, INT64_MAX in *. lia.
Qed.

Lemma SetCompact_target_range c :
  0 <= c -> 0 <= target (SetCompact c) < 2 ^ 256.
Proof.
  intros Hc. unfold SetCompact. cbn [target].
  assert (Hw : 0 <= Z.land c 0x007fffff < 2 ^ 23).
  { change 0x007fffff with (Z.ones 23). rewrite Z.land_ones by lia.
    apply Z.mod_pos_bound. lia. }
  destruct (Z.leb_spec (Z.shiftr c 24) 3).
  - rewrite Z.shiftr_div_pow2 by lia.
    assert (0 < 2 ^ (8 * (3 - Z.shiftr c 24))) by (apply Z.pow_pos_nonneg; lia).
    split; [apply Z.div_pos; lia |].
    apply Z.le_lt_trans with (Z.land c 0x007fffff); [| lia].
    apply Z.div_le_upper_bound; nia.
  - unfold shl, wrap256. apply Z.mod_pos_bound. lia.
Qed.

Lemma clamp_steps lo hi x :
  (let x := if x <? lo then lo else x in if x >? hi then hi else x) = clamp lo hi x.
Proof.
  cbv zeta. unfold clamp.
  destruct (Z.ltb_spec x lo); [destruct (Z.gtb_spec lo hi) | destruct (Z.gtb_spec x hi)]; lia.
Qed.

Lemma limit_step x limit : (if x >? limit then limit else x) = Z.min x limit.
Proof. destruct (Z.gtb_spec x limit); lia. Qed.


(** ** Proof-of-work check *)

(** C1. [CheckProofOfWork] is a total boolean function: it answers [false]
    whenever decoding [nBits] reports negative, gives a zero target,
    reports overflow or gives a target above the limit, whatever the hash;
    in every other case it answers [true] exactly when the hash is at most
    the target. *)
Theorem CheckProofOfWork_spec (hash nBits : Z) (params : Consensus.Params) :
  let d := SetCompact nBits in
  let invalid :=
    fNegative d = true \/ target d = 0 \/ fOverflow d = true
    \/ target d > UintToArith256 (Consensus.powLimit params) in
  (invalid -> CheckProofOfWork hash nBits params = false)
  /\ (~ invalid ->
      (CheckProofOfWork hash nBits params = true <-> UintToArith256 hash <= target d)).
Proof.
  cbv zeta. unfold CheckProofOfWork.
  destruct (fNegative (SetCompact nBits)) eqn:Hneg; cbn [orb].
  { split; [reflexivity | intros H; exfalso; apply H; auto]. }
  destruct (Z.eqb_spec (target (SetCompact nBits)) 0) as [Hz | Hnz]; cbn [orb].
  { split; [reflexivity | intros H; exfalso; apply H; auto]. }
  destruct (fOverflow (SetCompact nBits)) eqn:Hov; cbn [orb].
  { split; [reflexivity | intros H; exfalso; apply H; auto]. }
  destruct (Z.gtb_spec (target (SetCompact nBits)) (UintToArith256 (Consensus.powLimit params)))
    as [Hgt | Hle].
  { split; [reflexivity | intros H; exfalso; apply H; repeat right; lia]. }
  split.
  - intros [H | [H | [H | H]]]; [discriminate | contradiction | discriminate | lia].
  - intros _. destruct (Z.gtb_spec (UintToArith256 hash) (target (SetCompact nBits)));
      split; intros; try discriminate; try reflexivity; lia.
Qed.


(** ** The compact round trip *)

(** C5. Encoding after decoding is the identity on the compact values that
    [GetCompact] produces. *)
Theorem GetCompact_SetCompact_canonical (nBits : Z) :
  canonical nBits -> GetCompact (target (SetCompact nBits)) = nBits.
Proof.
  intros (x & Hx & <-). apply GetCompact_reround. exact Hx.
Qed.

Lemma GetCompact_SetCompact_canonical_witness :
  canonical 0x1d00ffff /\ GetCompact (target (SetCompact 0x1d00ffff)) = 0x1d00ffff.
Proof.
  assert (H : canonical 0x1d00ffff).
  { exists (0xffff * 2 ^ 208). split; [lia | reflexivity]. }
  split; [exact H | exact (GetCompact_SetCompact_canonical 0x1d00ffff H)].
Defined.


(** ** Retargeting *)

Lemma retarget_ratio T a :
  0 < T -> T / 4 <= a <= T * 4 -> 0 <= a * 2048 / T <= 8192.
Proof.
  intros HT Ha.
  assert (0 <= T / 4) by (apply Z.div_pos; lia).
  split.
  - apply Z.div_pos; lia.
  - apply Z.div_le_upper_bound; lia.
Qed.

Lemma clamp_range lo hi x : lo <= hi -> lo <= clamp lo hi x <= hi.
Proof. unfold clamp. lia. Qed.

Lemma CalculateNextWorkRequired_retarget pindexLast nFirstBlockTime params :
  Consensus.fPowNoRetargeting params = false ->
  retarget_inputs pindexLast nFirstBlockTime params ->
  CalculateNextWorkRequired pindexLast nFirstBlockTime params =
    Some (next_work (CBlockIndex.nBits pindexLast) (CBlockIndex.nTime pindexLast)
            nFirstBlockTime (Consensus.nPowTargetTimespan params)
            (Consensus.powLimit params)).
Proof.
  intros Hno (Htime & Hbits & Hfirst & HT).
  unfold CalculateNextWorkRequired. rewrite Hno.
  set (T := Consensus.nPowTargetTimespan params) in *.
  unfold CBlockIndex.GetBlockTime, i64_sub, i64_mul.
  rewrite i64_checked_in by (unfold INT64_MIN, INT64_MAX; lia). cbn [bind].
  rewrite i64_div_nonneg by (unfold INT64_MAX; lia). cbn [bind].
  rewrite i64_checked_in by (unfold INT64_MIN, INT64_MAX; lia). cbn [bind].
  set (a0 := CBlockIndex.nTime pindexLast - nFirstBlockTime).
  pose proof (clamp_steps (T / 4) (T * 4) a0) as Hclamp. cbv zeta in Hclamp.
  rewrite Hclamp. clear Hclamp.
  assert (Hq : 0 <= T / 4 <= T) by (split; [apply Z.div_pos | apply Z.div_le_upper_bound]; lia).
  pose proof (clamp_range (T / 4) (T * 4) a0 ltac:(lia)) as Ha.
  set (a := clamp (T / 4) (T * 4) a0) in *.
  rewrite i64_checked_in by (unfold INT64_MIN, INT64_MAX; lia). cbn [bind].
  rewrite i64_div_nonneg by (unfold INT64_MAX; lia). cbn [bind].
  pose proof (retarget_ratio T a ltac:(lia) Ha) as Hr.
  unfold mul_u32, arith_uint256.div.
  unfold wrap32 at 1. rewrite (Z.mod_small (a * 2048 / T)) by lia.
  change (wrap64 2048) with 2048. cbn [Z.eqb bind].
  rewrite limit_step. reflexivity.
Qed.


(** C2. Without [fPowNoRetargeting], and on inputs where the signed
    arithmetic is defined, [CalculateNextWorkRequired] clamps the observed
    timespan into [[T/4, T*4]], multiplies the decoded old target by
    [actualTimespan * 2048 / T] and divides by 2048 in 256-bit arithmetic
    with truncating divisions, applies the limit and encodes the result;
    with [fPowNoRetargeting] it returns the old compact value. *)
Theorem CalculateNextWorkRequired_spec
    (pindexLast : CBlockIndex.t) (nFirstBlockTime : Z) (params : Consensus.Params) :
  (Consensus.fPowNoRetargeting params = true ->
   CalculateNextWorkRequired pindexLast nFirstBlockTime params =
     Some (CBlockIndex.nBits pindexLast))
  /\ (Consensus.fPowNoRetargeting params = false ->
      retarget_inputs pindexLast nFirstBlockTime params ->
      let T := Consensus.nPowTargetTimespan params in
      let actualTimespan :=
        clamp (T / 4) (T * 4) (CBlockIndex.nTime pindexLast - nFirstBlockTime) in
      let old := target (SetCompact (CBlockIndex.nBits pindexLast)) in
      let ratio := actualTimespan * 2048 / T in
      let limit := UintToArith256 (Consensus.powLimit params) in
      T / 4 <= actualTimespan <= T * 4
      /\ CalculateNextWorkRequired pindexLast nFirstBlockTime params =
           Some (GetCompact (Z.min (wrap256 (old * ratio) / 2048) limit))
      /\ (old * ratio < 2 ^ 256 ->
          CalculateNextWorkRequired pindexLast nFirstBlockTime params =
            Some (GetCompact (Z.min (old * ratio / 2048) limit)))).
Proof.
  split.
  - intros Hno. unfold CalculateNextWorkRequired. rewrite Hno. reflexivity.
  - intros Hno Hin. cbv zeta.
    pose proof (CalculateNextWorkRequired_retarget _ _ _ Hno Hin) as Hr.
    destruct Hin as (Htime & Hbits & Hfirst & HT).
    set (T := Consensus.nPowTargetTimespan params) in *.
    assert (Hq : 0 <= T / 4 <= T)
      by (split; [apply Z.div_pos | apply Z.div_le_upper_bound]; lia).
    pose proof (clamp_range (T / 4) (T * 4)
                  (CBlockIndex.nTime pindexLast - nFirstBlockTime) ltac:(lia)) as Ha.
    split; [exact Ha |]. split; [exact Hr |].
    intros Hfit. rewrite Hr. unfold next_work. fold T.
    pose proof (SetCompact_target_range (CBlockIndex.nBits pindexLast) ltac:(lia)) as Hd.
    pose proof (retarget_ratio T _ ltac:(lia) Ha) as Hratio.
    unfold wrap256. rewrite Z.mod_small; [reflexivity |].
    split; [apply Z.mul_nonneg_nonneg; lia | exact Hfit].
Qed.

Lemma CalculateNextWorkRequired_spec_witness :
  CalculateNextWorkRequired tip_32255 1261130161 mainnet_like = Some 0x1d00d85f.
Proof.
  destruct (CalculateNextWorkRequired_spec tip_32255 1261130161 mainnet_like) as [_ H].
  destruct (H eq_refl) as (_ & _ & Hexact).
  - unfold retarget_inputs; cbn; lia.
  - rewrite Hexact; [reflexivity | vm_compute; reflexivity].
Defined.

(** The two retarget scenarios of the specification, on [mainnet_like]: a
    window of exactly the target timespan leaves the compact value as it
    is, and a window at the ceiling gives the encoded fourfold target,
    capped by the limit. *)
Example retarget_on_schedule :
  CalculateNextWorkRequired (CBlockIndex.mk 2015 1262152739 0x1c0ffff0)
    (1262152739 - 1209600) mainnet_like = Some 0x1c0ffff0.
Proof. reflexivity. Qed.

Example retarget_at_ceiling :
  CalculateNextWorkRequired (CBlockIndex.mk 2015 1262152739 0x1c0ffff0)
    (1262152739 - 4 * 1209600 - 5) mainnet_like
  = Some (GetCompact (Z.min (target (SetCompact 0x1c0ffff0) * 4)
                            (UintToArith256 (Consensus.powLimit mainnet_like)))).
Proof. reflexivity. Qed.

(** C3, as amended. On inputs where the arithmetic is defined and the limit
    is a 256-bit value, the compact value [CalculateNextWorkRequired]
    returns decodes to a target no greater than the limit, provided that
    retargeting is on or the old compact value already does. *)
Theorem CalculateNextWorkRequired_within_limit
    (pindexLast : CBlockIndex.t) (nFirstBlockTime : Z) (params : Consensus.Params) :
  retarget_inputs pindexLast nFirstBlockTime params ->
  0 <= UintToArith256 (Consensus.powLimit params) < 2 ^ 256 ->
  Consensus.fPowNoRetargeting params = false
  \/ target (SetCompact (CBlockIndex.nBits pindexLast))
     <= UintToArith256 (Consensus.powLimit params) ->
  exists nBits,
    CalculateNextWorkRequired pindexLast nFirstBlockTime params = Some nBits
    /\ target (SetCompact nBits) <= UintToArith256 (Consensus.powLimit params).
Proof.
  intros Hin Hlimit Hcase.
  destruct (Consensus.fPowNoRetargeting params) eqn:Hno.
  - exists (CBlockIndex.nBits pindexLast). split.
    + unfold CalculateNextWorkRequired. rewrite Hno. reflexivity.
    + destruct Hcase as [Hc | Hc]; [discriminate | exact Hc].
  - eexists. split; [apply CalculateNextWorkRequired_retarget; assumption |].
    unfold next_work.
    set (scaled := wrap256 _ / 2048).
    assert (Hs : 0 <= scaled).
    { subst scaled. apply Z.div_pos; [| lia]. unfold wrap256. apply Z.mod_pos_bound. lia. }
    change (target (SetCompact (GetCompact (Z.min scaled (Consensus.powLimit params)))))
      with (reround (Z.min scaled (Consensus.powLimit params))).
    unfold UintToArith256 in *.
    pose proof (reround_bounds (Z.min scaled (Consensus.powLimit params)) ltac:(lia)). lia.
Qed.

Lemma CalculateNextWorkRequired_within_limit_witness :
  exists nBits,
    CalculateNextWorkRequired tip_32255 1261130161 mainnet_like = Some nBits
    /\ target (SetCompact nBits) <= UintToArith256 (Consensus.powLimit mainnet_like).
Proof.
  apply CalculateNextWorkRequired_within_limit.
  - unfold retarget_inputs; cbn; lia.
  - cbn; lia.
  - left; reflexivity.
Defined.


(** C3 as stated fails when retargeting is off: the old compact value comes
    back unchanged, here one that decodes above the limit. *)
Lemma CalculateNextWorkRequired_exceeds_limit :
  exists nBits,
    CalculateNextWorkRequired tip_easy 1261130161 no_retarget_low_limit = Some nBits
    /\ ~ target (SetCompact nBits) <= UintToArith256 (Consensus.powLimit no_retarget_low_limit).
Proof.
  exists 0x207fffff. split; [reflexivity |]. vm_compute. intros H. apply H. reflexivity.
Qed.


(** ** Permitted transitions *)

Lemma i64_rem_defined a b :
  0 < b -> i64_rem a b = Some (Z.rem a b).
Proof.
  intros Hb. unfold i64_rem.
  destruct (Z.eqb_spec b 0); [lia |].
  destruct (Z.eqb_spec b (-1)); [lia |].
  rewrite andb_false_r. reflexivity.
Qed.

Lemma bounds_steps maxi mini observed :
  (if maxi <? observed then Some false
   else if mini >? observed then Some false else Some true)
  = Some ((observed <=? maxi) && (mini <=? observed)).
Proof.
  destruct (Z.ltb_spec maxi observed); destruct (Z.leb_spec observed maxi); try lia;
    cbn [andb]; [reflexivity |].
  destruct (Z.gtb_spec mini observed); destruct (Z.leb_spec mini observed); try lia;
    reflexivity.
Qed.

(** Off a retarget boundary the two compact values must be equal. *)
Lemma PermittedDifficultyTransition_off_boundary params height old_nbits new_nbits :
  Consensus.fPowAllowMinDifficultyBlocks params = false ->
  interval_inputs params ->
  Z.rem height
    (Consensus.nPowTargetTimespan params / Consensus.nPowTargetSpacing params) <> 0 ->
  PermittedDifficultyTransition params height old_nbits new_nbits =
    Some (old_nbits =? new_nbits).
Proof.
  intros Hmin (Hsp & HT) Hrem.
  unfold PermittedDifficultyTransition. rewrite Hmin.
  set (T := Consensus.nPowTargetTimespan params) in *.
  set (S := Consensus.nPowTargetSpacing params) in *.
  unfold Consensus.DifficultyAdjustmentInterval. fold T S.
  rewrite i64_div_nonneg by lia. cbn [bind].
  assert (Hint : 0 < T / S) by (apply Z.div_str_pos; lia).
  rewrite i64_rem_defined by exact Hint. cbn [bind].
  destruct (Z.eqb_spec (Z.rem height (T / S)) 0); [contradiction |].
  destruct (old_nbits =? new_nbits); reflexivity.
Qed.

(** On a retarget boundary the bounds are the old target scaled by the
    fourfold and by the quarter of the timespan, as long as the products
    fit. *)
Lemma PermittedDifficultyTransition_on_boundary params height old_nbits new_nbits :
  Consensus.fPowAllowMinDifficultyBlocks params = false ->
  interval_inputs params ->
  boundary_inputs params old_nbits ->
  Z.rem height
    (Consensus.nPowTargetTimespan params / Consensus.nPowTargetSpacing params) = 0 ->
  PermittedDifficultyTransition params height old_nbits new_nbits =
    Some (within_timespan_bounds (Consensus.nPowTargetTimespan params)
            old_nbits new_nbits (UintToArith256 (Consensus.powLimit params))).
Proof.
  intros Hmin (Hsp & HT) (H32 & Hold & Hfit) Hrem.
  unfold PermittedDifficultyTransition. rewrite Hmin.
  set (T := Consensus.nPowTargetTimespan params) in *.
  set (S := Consensus.nPowTargetSpacing params) in *.
  unfold Consensus.DifficultyAdjustmentInterval. fold T S.
  rewrite i64_div_nonneg by lia. cbn [bind].
  assert (Hint : 0 < T / S) by (apply Z.div_str_pos; lia).
  rewrite i64_rem_defined by exact Hint. cbn [bind].
  rewrite Hrem. cbn [Z.eqb].
  rewrite i64_div_nonneg by lia. cbn [bind].
  unfold i64_mul. rewrite i64_checked_in by (unfold INT64_MIN, INT64_MAX; lia).
  cbn [bind].
  pose proof (SetCompact_target_range old_nbits ltac:(lia)) as Hd.
  set (d := target (SetCompact old_nbits)) in *.
  assert (Hq : 0 <= T / 4 <= T)
    by (split; [apply Z.div_pos | apply Z.div_le_upper_bound]; lia).
  (* the largest target: the old one times four *)
  assert (Hlarge : arith_uint256.div (mul_u32 d (T * 4)) T = Some (d * 4)).
  { unfold arith_uint256.div, mul_u32, wrap32, wrap64, wrap256.
    rewrite (Z.mod_small (T * 4)) by lia.
    rewrite (Z.mod_small (d * (T * 4))) by nia.
    rewrite (Z.mod_small T) by (unfold INT64_MAX in HT; lia).
    destruct (Z.eqb_spec T 0); [lia |].
    f_equal. replace (d * (T * 4)) with (d * 4 * T) by lia.
    apply Z.div_mul; lia. }
  (* the smallest target: the old one times the quarter of the timespan *)
  assert (Hsmall : arith_uint256.div (mul_u32 d (T / 4)) T = Some (d * (T / 4) / T)).
  { unfold arith_uint256.div, mul_u32, wrap32, wrap64, wrap256.
    rewrite (Z.mod_small (T / 4)) by lia.
    rewrite (Z.mod_small (d * (T / 4))) by nia.
    rewrite (Z.mod_small T) by (unfold INT64_MAX in HT; lia).
    destruct (Z.eqb_spec T 0); [lia | reflexivity]. }
  rewrite Hlarge, Hsmall. cbn [bind].
  rewrite !limit_step.
  rewrite bounds_steps. reflexivity.
Qed.

(** With a timespan that is a multiple of four the lower bound is the
    quarter of the old target. *)
Lemma within_timespan_bounds_quarter T old_nbits new_nbits limit :
  0 < T -> T mod 4 = 0 ->
  within_timespan_bounds T old_nbits new_nbits limit
  = within_factor_four old_nbits new_nbits limit.
Proof.
  intros HT H4. unfold within_timespan_bounds, within_factor_four. cbv zeta.
  assert (Hq : T = 4 * (T / 4)) by (Z.div_mod_to_equations; lia).
  replace (target (SetCompact old_nbits) * (T / 4) / T)
    with (target (SetCompact old_nbits) / 4); [reflexivity |].
  symmetry. transitivity (target (SetCompact old_nbits) * (T / 4) / (4 * (T / 4))).
  - f_equal. exact Hq.
  - apply Z.div_mul_cancel_r; lia.
Qed.

(** C4, as amended. [PermittedDifficultyTransition] answers [true] whenever
    [fPowAllowMinDifficultyBlocks] is set. Otherwise, with at least one
    block per interval: off a retarget boundary it answers [true] exactly
    when the two compact values are equal; on a boundary, when the
    multiplier [4 * timespan] fits 32 bits and the product of the old
    target with it fits 256 bits, it answers [true] exactly when the
    observed target lies between the re-rounded
    [min (old * (timespan / 4) / timespan) limit] and the re-rounded
    [min (old * 4) limit]; the lower bound is the re-rounded
    [min (old / 4) limit] whenever the timespan is a multiple of four. *)
Theorem PermittedDifficultyTransition_spec
    (params : Consensus.Params) (height old_nbits new_nbits : Z) :
  (Consensus.fPowAllowMinDifficultyBlocks params = true ->
   PermittedDifficultyTransition params height old_nbits new_nbits = Some true)
  /\ (Consensus.fPowAllowMinDifficultyBlocks params = false ->
      interval_inputs params ->
      let T := Consensus.nPowTargetTimespan params in
      let interval := T / Consensus.nPowTargetSpacing params in
      let limit := UintToArith256 (Consensus.powLimit params) in
      (Z.rem height interval <> 0 ->
       PermittedDifficultyTransition params height old_nbits new_nbits =
         Some (old_nbits =? new_nbits))
      /\ (Z.rem height interval = 0 ->
          boundary_inputs params old_nbits ->
          PermittedDifficultyTransition params height old_nbits new_nbits =
            Some (within_timespan_bounds T old_nbits new_nbits limit)
          /\ (T mod 4 = 0 ->
              PermittedDifficultyTransition params height old_nbits new_nbits =
                Some (within_factor_four old_nbits new_nbits limit)))).
Proof.
  split.
  - intros Hmin. unfold PermittedDifficultyTransition. rewrite Hmin. reflexivity.
  - intros Hmin Hint. cbv zeta. split.
    + intros Hrem. apply PermittedDifficultyTransition_off_boundary; assumption.
    + intros Hrem Hbound.
      pose proof (PermittedDifficultyTransition_on_boundary
                    params height old_nbits new_nbits Hmin Hint Hbound Hrem) as Hon.
      split; [exact Hon |].
      intros H4. rewrite Hon. f_equal.
      apply within_timespan_bounds_quarter; [| exact H4].
      destruct Hint as (Hsp & _). lia.
Qed.

Lemma PermittedDifficultyTransition_spec_witness :
  PermittedDifficultyTransition mainnet_like 2016 0x1d00ffff 0x1c3fffc0 = Some true
  /\ PermittedDifficultyTransition mainnet_like 2016 0x1d00ffff 0x1c3fffbf = Some false
  /\ PermittedDifficultyTransition mainnet_like 2017 0x1d00ffff 0x1c3fffc0 = Some false
  /\ PermittedDifficultyTransition short_timespan 4 0x1d00ffff 0x1d00ffff = Some true
  /\ PermittedDifficultyTransition high_limit 2017 0x207fffff 0x207fffff = Some true
  /\ PermittedDifficultyTransition short_timespan 3 0x1d00ffff 0x1c3f0000 = Some true.
Proof.
  assert (Hint : forall p, p = mainnet_like \/ p = short_timespan \/ p = high_limit ->
                           interval_inputs p).
  { intros p [-> | [-> | ->]]; unfold interval_inputs, INT64_MAX; cbn; lia. }
  assert (Hbound : forall p, p = mainnet_like \/ p = short_timespan ->
                             boundary_inputs p 0x1d00ffff).
  { intros p [-> | ->]; unfold boundary_inputs; cbn; lia. }
  split; [| split; [| split; [| split; [| split]]]].
  - destruct (PermittedDifficultyTransition_spec mainnet_like 2016 0x1d00ffff 0x1c3fffc0)
      as [_ H].
    destruct (H eq_refl (Hint _ (or_introl eq_refl))) as [_ Hb].
    destruct (Hb eq_refl (Hbound _ (or_introl eq_refl))) as [_ H4].
    rewrite H4; reflexivity.
  - destruct (PermittedDifficultyTransition_spec mainnet_like 2016 0x1d00ffff 0x1c3fffbf)
      as [_ H].
    destruct (H eq_refl (Hint _ (or_introl eq_refl))) as [_ Hb].
    destruct (Hb eq_refl (Hbound _ (or_introl eq_refl))) as [_ H4].
    rewrite H4; reflexivity.
  - destruct (PermittedDifficultyTransition_spec mainnet_like 2017 0x1d00ffff 0x1c3fffc0)
      as [_ H].
    destruct (H eq_refl (Hint _ (or_introl eq_refl))) as [Hb _].
    rewrite Hb; [reflexivity | vm_compute; discriminate].
  - destruct (PermittedDifficultyTransition_spec short_timespan 4 0x1d00ffff 0x1d00ffff)
      as [_ H].
    destruct (H eq_refl (Hint _ (or_intror (or_introl eq_refl)))) as [Hb _].
    rewrite Hb; [reflexivity | vm_compute; discriminate].
  - destruct (PermittedDifficultyTransition_spec high_limit 2017 0x207fffff 0x207fffff)
      as [_ H].
    destruct (H eq_refl (Hint _ (or_intror (or_intror eq_refl)))) as [Hb _].
    rewrite Hb; [reflexivity | vm_compute; discriminate].
  - destruct (PermittedDifficultyTransition_spec short_timespan 3 0x1d00ffff 0x1c3f0000)
      as [_ H].
    destruct (H eq_refl (Hint _ (or_intror (or_introl eq_refl)))) as [_ Hb].
    destruct (Hb eq_refl (Hbound _ (or_intror eq_refl))) as [Hon _].
    rewrite Hon; reflexivity.
Defined.

(** C4 as stated fails at a retarget boundary when the timespan is not a
    multiple of four. With a 90-second timespan the lower bound the code
    computes is [old * 22 / 90], below [old / 4], and it permits an
    observed target the stated bound rejects. *)
Lemma PermittedDifficultyTransition_not_factor_four :
  PermittedDifficultyTransition short_timespan 3 0x1d00ffff 0x1c3f0000 = Some true
  /\ within_factor_four 0x1d00ffff 0x1c3f0000
       (UintToArith256 (Consensus.powLimit short_timespan)) = false.
Proof. split; vm_compute; reflexivity. Qed.


(** Past [boundary_inputs]: with an old target close to [2 ^ 255] the
    product with [4 * timespan] wraps at 256 bits and an unchanged target
    is refused on a boundary, where pow.h documents a check that the new
    value is within a factor of four of the old one. *)
Example PermittedDifficultyTransition_product_wraps :
  PermittedDifficultyTransition high_limit 2016 0x207fffff 0x207fffff = Some false
  /\ ~ boundary_inputs high_limit 0x207fffff.
Proof.
  split; [vm_compute; reflexivity |].
  unfold boundary_inputs. cbn. lia.
Qed.


(** ** Header buffers *)

Lemma store_at_app (pre old rest src : list byte) :
  length src = length old ->
  store_at (length pre) src (pre ++ old ++ rest) = pre ++ src ++ rest.
Proof.
  intros Hlen. unfold store_at.
  rewrite firstn_app, firstn_all, Nat.sub_diag, firstn_O, app_nil_r.
  rewrite skipn_app.
  rewrite skipn_all2 by lia.
  replace (length pre + length src - length pre)%nat with (length old) by lia.
  rewrite skipn_app, skipn_all, Nat.sub_diag. reflexivity.
Qed.


Lemma header_prefix_length block : length (header_prefix block) = 76%nat.
Proof. unfold header_prefix. rewrite !length_app, !length_le_split. reflexivity. Qed.

Lemma header_buffer_layout block :
  header_buffer block = header_prefix block ++ repeat Byte.x00 4.
Proof.
  unfold header_buffer, header_prefix, WriteLE32, blob_bytes.
  set (v := le_split 4 (CBlockHeader.nVersion block)).
  set (p := le_split 32 (CBlockHeader.hashPrevBlock block)).
  set (m := le_split 32 (CBlockHeader.hashMerkleRoot block)).
  set (t := le_split 4 (CBlockHeader.nTime block)).
  set (b := le_split 4 (CBlockHeader.nBits block)).
  assert (Hv : length v = 4%nat) by apply length_le_split.
  assert (Hp : length p = 32%nat) by apply length_le_split.
  assert (Hm : length m = 32%nat) by apply length_le_split.
  assert (Ht : length t = 4%nat) by apply length_le_split.
  assert (Hb : length b = 4%nat) by apply length_le_split.
  pose proof (store_at_app [] (repeat Byte.x00 4) (repeat Byte.x00 76) v) as H0.
  cbn [length app] in H0. rewrite <- repeat_app in H0. cbn [Nat.add] in H0.
  rewrite H0 by (rewrite repeat_length; lia). clear H0.
  pose proof (store_at_app v (repeat Byte.x00 32) (repeat Byte.x00 44) p) as H1.
  rewrite <- repeat_app, Hv in H1. cbn [Nat.add] in H1.
  rewrite H1 by (rewrite repeat_length; lia). clear H1.
  pose proof (store_at_app (v ++ p) (repeat Byte.x00 32) (repeat Byte.x00 12) m) as H2.
  rewrite <- repeat_app, length_app, Hv, Hp, <- !app_assoc in H2. cbn [Nat.add] in H2.
  rewrite H2 by (rewrite repeat_length; lia). clear H2.
  pose proof (store_at_app (v ++ p ++ m) (repeat Byte.x00 4) (repeat Byte.x00 8) t) as H3.
  rewrite <- repeat_app, !length_app, Hv, Hp, Hm, <- !app_assoc in H3. cbn [Nat.add] in H3.
  rewrite H3 by (rewrite repeat_length; lia). clear H3.
  pose proof (store_at_app (v ++ p ++ m ++ t) (repeat Byte.x00 4) (repeat Byte.x00 4) b) as H4.
  rewrite <- repeat_app, !length_app, Hv, Hp, Hm, Ht, <- !app_assoc in H4. cbn [Nat.add] in H4.
  rewrite H4 by (rewrite repeat_length; lia). clear H4.
  rewrite <- !app_assoc. reflexivity.
Qed.

Lemma header_encoding_prefix block nonce :
  header_encoding block nonce = header_prefix block ++ le_split 4 nonce.
Proof. unfold header_encoding, header_prefix. rewrite <- !app_assoc. reflexivity. Qed.

(** Storing a nonce into a buffer that holds the header fields gives the
    80-byte encoding with that nonce, whatever nonce was there before. *)
Lemma store_nonce block old nonce :
  length old = 4%nat ->
  store_at 76 (WriteLE32 nonce) (header_prefix block ++ old) = header_encoding block nonce.
Proof.
  intros Hold. rewrite header_encoding_prefix.
  pose proof (store_at_app (header_prefix block) old [] (WriteLE32 nonce)) as H.
  rewrite header_prefix_length, !app_nil_r in H. apply H.
  unfold WriteLE32. rewrite length_le_split. lia.
Qed.


Lemma slice_app (pre mid rest : list byte) :
  slice (length pre) (length mid) (pre ++ mid ++ rest) = mid.
Proof.
  unfold slice. rewrite skipn_app, skipn_all, Nat.sub_diag. cbn [skipn app].
  rewrite firstn_app, firstn_all, Nat.sub_diag, firstn_O. apply app_nil_r.
Qed.

Lemma header_encoding_layout block nonce :
  header_layout block nonce (header_encoding block nonce).
Proof.
  unfold header_layout, header_encoding.
  set (v := le_split 4 (CBlockHeader.nVersion block)).
  set (p := le_split 32 (CBlockHeader.hashPrevBlock block)).
  set (m := le_split 32 (CBlockHeader.hashMerkleRoot block)).
  set (t := le_split 4 (CBlockHeader.nTime block)).
  set (b := le_split 4 (CBlockHeader.nBits block)).
  set (n := le_split 4 nonce).
  assert (Hv : length v = 4%nat) by apply length_le_split.
  assert (Hp : length p = 32%nat) by apply length_le_split.
  assert (Hm : length m = 32%nat) by apply length_le_split.
  assert (Ht : length t = 4%nat) by apply length_le_split.
  assert (Hb : length b = 4%nat) by apply length_le_split.
  assert (Hn : length n = 4%nat) by apply length_le_split.
  split; [rewrite !length_app; lia |].
  split. { pose proof (slice_app [] v (p ++ m ++ t ++ b ++ n)) as H.
           rewrite Hv in H. exact H. }
  split. { pose proof (slice_app v p (m ++ t ++ b ++ n)) as H.
           rewrite Hv, Hp in H. exact H. }
  split. { pose proof (slice_app (v ++ p) m (t ++ b ++ n)) as H.
           rewrite length_app, Hv, Hp, Hm, <- !app_assoc in H. exact H. }
  split. { pose proof (slice_app (v ++ p ++ m) t (b ++ n)) as H.
           rewrite !length_app, Hv, Hp, Hm, Ht, <- !app_assoc in H. exact H. }
  split. { pose proof (slice_app (v ++ p ++ m ++ t) b n) as H.
           rewrite !length_app, Hv, Hp, Hm, Ht, Hb, <- !app_assoc in H. exact H. }
  pose proof (slice_app (v ++ p ++ m ++ t ++ b) n []) as H.
  rewrite !length_app, Hv, Hp, Hm, Ht, Hb, Hn, <- !app_assoc, app_nil_r in H. exact H.
Qed.

Lemma header_encoding_congr block a b :
  a mod 2 ^ 32 = b mod 2 ^ 32 -> header_encoding block a = header_encoding block b.
Proof.
  intros H. unfold header_encoding. do 5 f_equal.
  rewrite (le_split_mod a), (le_split_mod b). change (Z.of_nat 4 * 8) with 32.
  rewrite H. reflexivity.
Qed.

Section Search.

Variable vm : list byte -> list byte.
Variable ShutdownRequested : option (nat -> bool).
Variable bnTarget : Z.
Variable block : CBlockHeader.t.


(** One pass through the loop body, when the poll does not stop it. *)
Lemma search_step fuel old nonce polls nHash :
  length old = 4%nat ->
  fst (RxWorkMiner.poll ShutdownRequested polls) = false ->
  RxWorkMiner.search vm ShutdownRequested bnTarget (S fuel)
    (header_prefix block ++ old) nonce polls nHash =
  if RxWorkMiner.checkPow (digest vm block nonce) bnTarget
  then {| RxWorkMiner.returned := Some (RxWorkMiner.Found (digest vm block nonce) (wrap32 nonce));
          RxWorkMiner.polls := snd (RxWorkMiner.poll ShutdownRequested polls);
          RxWorkMiner.hashes := S nHash |}
  else RxWorkMiner.search vm ShutdownRequested bnTarget fuel
         (header_prefix block ++ le_split 4 nonce) (wrap32 (nonce + 1))
         (snd (RxWorkMiner.poll ShutdownRequested polls)) (S nHash).
Proof.
  intros Hold Hpoll. cbn [RxWorkMiner.search].
  destruct (RxWorkMiner.poll ShutdownRequested polls) as [stop polls'] eqn:Hp.
  cbn [fst snd] in *. subst stop.
  rewrite store_nonce by exact Hold.
  unfold RxWorkMiner.checkPow, UintToArith256.
  change (HashBytesToUnit256 (vm (header_encoding block nonce))) with (digest vm block nonce).
  rewrite header_encoding_prefix.
  destruct (Z.gtb_spec (digest vm block nonce) bnTarget); destruct (Z.leb_spec (digest vm block nonce) bnTarget);
    try lia; [reflexivity |].
  do 3 f_equal. unfold wrap32. rewrite Zminus_mod_idemp_l. f_equal. lia.
Qed.

Lemma search_found fuel : forall old nonce polls nHash hash found,
  length old = 4%nat ->
  RxWorkMiner.returned
    (RxWorkMiner.search vm ShutdownRequested bnTarget fuel
       (header_prefix block ++ old) nonce polls nHash)
    = Some (RxWorkMiner.Found hash found) ->
  hash = digest vm block found /\ hash <= bnTarget.
Proof.
  induction fuel as [| fuel IH]; intros old nonce polls nHash hash found Hold Hret.
  - cbn in Hret. discriminate.
  - destruct (fst (RxWorkMiner.poll ShutdownRequested polls)) eqn:Hpoll.
    + cbn [RxWorkMiner.search] in Hret.
      destruct (RxWorkMiner.poll ShutdownRequested polls) as [stop polls'].
      cbn [fst] in Hpoll. subst stop. cbn in Hret. discriminate.
    + rewrite search_step in Hret by assumption.
      unfold RxWorkMiner.checkPow in Hret.
      destruct (Z.leb_spec (digest vm block nonce) bnTarget) as [Hle | Hgt].
      * cbn in Hret. injection Hret as <- <-. split; [| exact Hle].
        unfold digest. f_equal. f_equal. apply header_encoding_congr.
        unfold wrap32. symmetry. apply Z.mod_mod. lia.
      * eapply IH; [| exact Hret]. apply length_le_split.
Qed.

(** Cancellation: when the first [true] answer comes at poll [k] and none
    of the [k] digests before it meets the target, the loop returns
    [Aborted] after [k] digests and [k + 1] polls. *)
Lemma search_cancelled (f : nat -> bool) :
  ShutdownRequested = Some f ->
  forall k fuel old nonce polls nHash,
  length old = 4%nat ->
  (forall i, (i < k)%nat -> f (polls + i)%nat = false) ->
  f (polls + k)%nat = true ->
  (forall i, (i < k)%nat -> digest vm block (nonce + Z.of_nat i) > bnTarget) ->
  (k < fuel)%nat ->
  RxWorkMiner.search vm ShutdownRequested bnTarget fuel
    (header_prefix block ++ old) nonce polls nHash =
  {| RxWorkMiner.returned := Some RxWorkMiner.Aborted;
     RxWorkMiner.polls := S (polls + k);
     RxWorkMiner.hashes := (nHash + k)%nat |}.
Proof.
  intros Hsd. induction k as [| k IH]; intros fuel old nonce polls nHash Hold Hquiet Hstop Hmiss Hfuel.
  - destruct fuel as [| fuel]; [lia |].
    cbn [RxWorkMiner.search]. unfold RxWorkMiner.poll. rewrite Hsd.
    rewrite Nat.add_0_r in Hstop. rewrite Hstop. rewrite !Nat.add_0_r. reflexivity.
  - destruct fuel as [| fuel]; [lia |].
    assert (Hp : RxWorkMiner.poll ShutdownRequested polls = (false, S polls)).
    { unfold RxWorkMiner.poll. rewrite Hsd. f_equal.
      rewrite <- (Nat.add_0_r polls). apply Hquiet. lia. }
    rewrite search_step by (try rewrite Hp; auto).
    rewrite Hp. cbn [snd].
    pose proof (Hmiss 0%nat ltac:(lia)) as Hfirst.
    rewrite Z.add_0_r in Hfirst.
    unfold RxWorkMiner.checkPow.
    destruct (Z.leb_spec (digest vm block nonce) bnTarget); [lia |].
    rewrite IH; try lia.
    + f_equal; lia.
    + apply length_le_split.
    + intros i Hi. replace (S polls + i)%nat with (polls + S i)%nat by lia.
      apply Hquiet. lia.
    + replace (S polls + k)%nat with (polls + S k)%nat by lia. exact Hstop.
    + intros i Hi.
      replace (digest vm block (wrap32 (nonce + 1) + Z.of_nat i))
        with (digest vm block (nonce + Z.of_nat (S i))); [apply Hmiss; lia |].
      unfold digest. do 2 f_equal. apply header_encoding_congr.
      unfold wrap32. rewrite Zplus_mod_idemp_l. f_equal. lia.
Qed.

(** Polls and digests go in step: one poll before each digest. *)
Lemma search_accounting (f : nat -> bool) :
  ShutdownRequested = Some f ->
  forall fuel d1 nonce polls nHash,
  let r := RxWorkMiner.search vm ShutdownRequested bnTarget fuel d1 nonce polls nHash in
  match RxWorkMiner.returned r with
  | Some RxWorkMiner.Aborted =>
      (RxWorkMiner.polls r + nHash = S (RxWorkMiner.hashes r) + polls)%nat
  | Some (RxWorkMiner.Found _ _) =>
      (RxWorkMiner.polls r + nHash = RxWorkMiner.hashes r + polls)%nat
  | None =>
      (RxWorkMiner.polls r + nHash = RxWorkMiner.hashes r + polls)%nat
      /\ RxWorkMiner.hashes r = (nHash + fuel)%nat
  end.
Proof.
  intros Hsd. induction fuel as [| fuel IH]; intros d1 nonce polls nHash.
  - cbn. lia.
  - cbn [RxWorkMiner.search]. unfold RxWorkMiner.poll. rewrite Hsd.
    destruct (f polls); [cbn; lia |].
    match goal with |- context [if ?c then _ else _] => destruct c end.
    + specialize (IH (store_at 76 (WriteLE32 nonce) d1) (wrap32 (nonce + 1))
                    (S polls) (S nHash)).
      cbv zeta in IH |- *. unfold RxWorkMiner.poll in IH. rewrite Hsd in IH.
      destruct (RxWorkMiner.returned _) as [[|] |]; lia.
    + cbn. lia.
Qed.

End Search.


(** ** The mining loop *)

Lemma Mine_search fuel m sd :
  RxWorkMiner.Mine fuel m sd =
  RxWorkMiner.search (RxWorkMiner.mVm m) sd
    (target (SetCompact (CBlockHeader.nBits (RxWorkMiner.mBlockHeader m)))) fuel
    (header_prefix (RxWorkMiner.mBlockHeader m) ++ repeat Byte.x00 4)
    (CBlockHeader.nNonce (RxWorkMiner.mBlockHeader m)) 0 0.
Proof. unfold RxWorkMiner.Mine. rewrite header_buffer_layout. reflexivity. Qed.

(** C7. With a shutdown predicate whose first [true] answer comes at its
    poll number [k], and no digest before that poll meeting the target,
    [Mine] returns [Aborted] (its [return false], an ordinary return) as
    soon as the step budget exceeds [k], after [k] digests and [k + 1]
    polls, and so does not go on searching. In every run the predicate is
    called once before each digest: a run that aborts has polled once more
    than it hashed, any other run exactly as often. *)
Theorem Mine_shutdown (m : RxWorkMiner.t) (ShutdownRequested : nat -> bool) :
  let block := RxWorkMiner.mBlockHeader m in
  let bnTarget := target (SetCompact (CBlockHeader.nBits block)) in
  (forall k : nat,
      (forall i, (i < k)%nat -> ShutdownRequested i = false) ->
      ShutdownRequested k = true ->
      (forall i, (i < k)%nat ->
         digest (RxWorkMiner.mVm m) block (CBlockHeader.nNonce block + Z.of_nat i) > bnTarget) ->
      forall fuel, (k < fuel)%nat ->
      RxWorkMiner.Mine fuel m (Some ShutdownRequested) =
        {| RxWorkMiner.returned := Some RxWorkMiner.Aborted;
           RxWorkMiner.polls := S k;
           RxWorkMiner.hashes := k |})
  /\ (forall fuel,
        let r := RxWorkMiner.Mine fuel m (Some ShutdownRequested) in
        match RxWorkMiner.returned r with
        | Some RxWorkMiner.Aborted => RxWorkMiner.polls r = S (RxWorkMiner.hashes r)
        | Some (RxWorkMiner.Found _ _) => RxWorkMiner.polls r = RxWorkMiner.hashes r
        | None => RxWorkMiner.polls r = RxWorkMiner.hashes r /\ RxWorkMiner.hashes r = fuel
        end).
Proof.
  cbv zeta. split.
  - intros k Hquiet Hstop Hmiss fuel Hfuel. rewrite Mine_search.
    rewrite (search_cancelled _ _ _ _ ShutdownRequested eq_refl k); auto.
  - intros fuel. rewrite Mine_search.
    pose proof (search_accounting (RxWorkMiner.mVm m) (Some ShutdownRequested)
                  (target (SetCompact (CBlockHeader.nBits (RxWorkMiner.mBlockHeader m))))
                  ShutdownRequested eq_refl fuel
                  (header_prefix (RxWorkMiner.mBlockHeader m) ++ repeat Byte.x00 4)
                  (CBlockHeader.nNonce (RxWorkMiner.mBlockHeader m)) 0%nat 0%nat) as H.
    cbv zeta in H.
    destruct (RxWorkMiner.returned _) as [[|] |]; lia.
Qed.

Lemma Mine_shutdown_witness :
  RxWorkMiner.Mine 10 unlucky_miner (Some stop_at_third) =
    {| RxWorkMiner.returned := Some RxWorkMiner.Aborted;
       RxWorkMiner.polls := 3;
       RxWorkMiner.hashes := 2 |}.
Proof.
  apply (proj1 (Mine_shutdown unlucky_miner stop_at_third) 2%nat).
  - intros i Hi. destruct i as [| [| i]]; [reflexivity | reflexivity | lia].
  - reflexivity.
  - intros i Hi. vm_compute. reflexivity.
  - lia.
Defined.

(** C8. When [Mine] returns [Found hash nonce], [hash] is the engine digest
    of an 80-byte input that holds the little-endian version at offset 0,
    the previous-block hash at 4, the merkle root at 36, the little-endian
    time at 68, bits at 72 and the returned nonce at 76, and [hash] is at
    most the target decoded from the template's bits. *)
Theorem Mine_found (fuel : nat) (m : RxWorkMiner.t)
    (ShutdownRequested : option (nat -> bool)) (hash nonce : Z) :
  RxWorkMiner.returned (RxWorkMiner.Mine fuel m ShutdownRequested)
    = Some (RxWorkMiner.Found hash nonce) ->
  let block := RxWorkMiner.mBlockHeader m in
  exists input : list byte,
    header_layout block nonce input
    /\ hash = HashBytesToUnit256 (RxWorkMiner.mVm m input)
    /\ UintToArith256 hash <= target (SetCompact (CBlockHeader.nBits block)).
Proof.
  intros Hret block. rewrite Mine_search in Hret.
  apply search_found in Hret; [| apply repeat_length].
  exists (header_encoding block nonce). split; [apply header_encoding_layout |].
  exact Hret.
Qed.

Lemma Mine_found_witness :
  exists input : list byte,
    header_layout (template 0x1d00ffff) 0 input
    /\ 0 = HashBytesToUnit256 (zero_engine input)
    /\ UintToArith256 0 <= target (SetCompact 0x1d00ffff).
Proof.
  apply (Mine_found 1 (lucky_miner 0x1d00ffff) None 0 0). vm_compute. reflexivity.
Defined.

(** C10. [Mine] does not validate the compact target: whenever it reports
    [Found], the digest passed [checkPow] against the decoded magnitude,
    and a first digest that passes [checkPow] is reported at once, whatever
    the two indications of the decoding say. So there are templates on
    which [Mine] succeeds although [CheckProofOfWork] rejects the same
    digest: one whose bits decode as negative, one whose bits overflow, one
    whose target lies above the limit. *)
Theorem Mine_no_range_check :
  (forall fuel m ShutdownRequested hash nonce,
      RxWorkMiner.returned (RxWorkMiner.Mine fuel m ShutdownRequested)
        = Some (RxWorkMiner.Found hash nonce) ->
      RxWorkMiner.checkPow (UintToArith256 hash)
        (target (SetCompact (CBlockHeader.nBits (RxWorkMiner.mBlockHeader m)))) = true)
  /\ (forall fuel m ShutdownRequested,
        let block := RxWorkMiner.mBlockHeader m in
        let first := digest (RxWorkMiner.mVm m) block (CBlockHeader.nNonce block) in
        fst (RxWorkMiner.poll ShutdownRequested 0) = false ->
        RxWorkMiner.checkPow first (target (SetCompact (CBlockHeader.nBits block))) = true ->
        RxWorkMiner.returned (RxWorkMiner.Mine (S fuel) m ShutdownRequested)
          = Some (RxWorkMiner.Found first (wrap32 (CBlockHeader.nNonce block))))
  /\ (exists m hash nonce,
        RxWorkMiner.returned (RxWorkMiner.Mine 1 m None) = Some (RxWorkMiner.Found hash nonce)
        /\ fNegative (SetCompact (CBlockHeader.nBits (RxWorkMiner.mBlockHeader m))) = true
        /\ forall params,
             CheckProofOfWork hash (CBlockHeader.nBits (RxWorkMiner.mBlockHeader m)) params = false)
  /\ (exists m hash nonce,
        RxWorkMiner.returned (RxWorkMiner.Mine 1 m None) = Some (RxWorkMiner.Found hash nonce)
        /\ fOverflow (SetCompact (CBlockHeader.nBits (RxWorkMiner.mBlockHeader m))) = true
        /\ forall params,
             CheckProofOfWork hash (CBlockHeader.nBits (RxWorkMiner.mBlockHeader m)) params = false)
  /\ (exists m hash nonce params,
        RxWorkMiner.returned (RxWorkMiner.Mine 1 m None) = Some (RxWorkMiner.Found hash nonce)
        /\ fNegative (SetCompact (CBlockHeader.nBits (RxWorkMiner.mBlockHeader m))) = false
        /\ fOverflow (SetCompact (CBlockHeader.nBits (RxWorkMiner.mBlockHeader m))) = false
        /\ target (SetCompact (CBlockHeader.nBits (RxWorkMiner.mBlockHeader m)))
           > UintToArith256 (Consensus.powLimit params)
        /\ CheckProofOfWork hash (CBlockHeader.nBits (RxWorkMiner.mBlockHeader m)) params = false).
Proof.
  split; [| split; [| split; [| split]]].
  - intros fuel m sd hash nonce Hret. rewrite Mine_search in Hret.
    apply search_found in Hret; [| apply repeat_length].
    unfold RxWorkMiner.checkPow, UintToArith256. apply Z.leb_le. apply Hret.
  - intros fuel m sd block first Hpoll Hok. rewrite Mine_search.
    rewrite search_step by (try apply repeat_length; exact Hpoll).
    fold block. fold first. rewrite Hok. reflexivity.
  - exists (lucky_miner 0x04923456), 0, 0. split; [vm_compute; reflexivity |].
    split; [reflexivity |]. intros params. reflexivity.
  - exists (lucky_miner 0x2101ffff), 0, 0. split; [vm_compute; reflexivity |].
    split; [reflexivity |]. intros params. reflexivity.
  - exists (lucky_miner 0x207fffff), 0, 0, mainnet_like.
    repeat split; vm_compute; reflexivity.
Qed.


(** ** Epoch keys *)

Lemma key_stream_length block : length (key_stream block) = 16%nat.
Proof. unfold key_stream, WriteLE32. rewrite !length_app, !length_le_split. reflexivity. Qed.

Lemma key_stream_bucket block :
  le_combine (slice 4 4 (key_stream block))
  = (CBlockHeader.nTime block / EPOCH_SECONDS) mod 2 ^ 32.
Proof.
  unfold key_stream, WriteLE32.
  pose proof (slice_app (le_split 4 (CBlockHeader.nVersion block))
                (le_split 4 (CBlockHeader.nTime block / EPOCH_SECONDS))
                (le_split 4 (CBlockHeader.nBits block) ++ le_split 4 0)) as H.
  rewrite !length_le_split in H. rewrite H.
  apply le_combine_split.
Qed.

Lemma bucket_range t : 0 <= t < 2 ^ 32 -> 0 <= t / EPOCH_SECONDS < 2 ^ 32.
Proof.
  intros Ht. unfold EPOCH_SECONDS. split.
  - apply Z.div_pos; lia.
  - apply Z.div_lt_upper_bound; lia.
Qed.

Lemma bucket_apart t1 t2 :
  0 <= t1 -> t1 + 400000 <= t2 -> t1 / EPOCH_SECONDS < t2 / EPOCH_SECONDS.
Proof.
  intros H1 H2. unfold EPOCH_SECONDS. Z.div_mod_to_equations. lia.
Qed.

(** Headers whose times lie at least 400000 seconds apart fall into
    different buckets, so the bytes hashed into their keys differ. *)
Lemma key_stream_apart (h1 h2 : CBlockHeader.t) :
  0 <= CBlockHeader.nTime h1 < 2 ^ 32 ->
  0 <= CBlockHeader.nTime h2 < 2 ^ 32 ->
  400000 <= Z.abs (CBlockHeader.nTime h2 - CBlockHeader.nTime h1) ->
  key_stream h1 <> key_stream h2.
Proof.
  intros Ht1 Ht2 Hfar Hkey.
  apply (f_equal (fun l => le_combine (slice 4 4 l))) in Hkey.
  rewrite !key_stream_bucket in Hkey.
  rewrite !Z.mod_small in Hkey by (apply bucket_range; assumption).
  destruct (Z.le_ge_cases (CBlockHeader.nTime h1) (CBlockHeader.nTime h2)) as [Hle | Hge].
  - pose proof (bucket_apart (CBlockHeader.nTime h1) (CBlockHeader.nTime h2)). lia.
  - pose proof (bucket_apart (CBlockHeader.nTime h2) (CBlockHeader.nTime h1)). lia.
Qed.

(** C6. Two headers with the same version, the same bits and the same
    bucket [nTime / 345678] have the same key, whatever their previous
    hash, merkle root and nonce. Two headers whose 32-bit times lie at
    least 400000 seconds apart have different 16-byte key streams, and
    therefore different keys whenever the digest function has no collision
    on 16-byte streams. *)
Theorem epoch_key_buckets (GetHash : list byte -> Z) :
  (forall h1 h2 : CBlockHeader.t,
      CBlockHeader.nVersion h1 = CBlockHeader.nVersion h2 ->
      CBlockHeader.nBits h1 = CBlockHeader.nBits h2 ->
      CBlockHeader.nTime h1 / EPOCH_SECONDS = CBlockHeader.nTime h2 / EPOCH_SECONDS ->
      sha256dKeyBlock GetHash h1 = sha256dKeyBlock GetHash h2)
  /\ (forall h1 h2 : CBlockHeader.t,
        0 <= CBlockHeader.nTime h1 < 2 ^ 32 ->
        0 <= CBlockHeader.nTime h2 < 2 ^ 32 ->
        400000 <= Z.abs (CBlockHeader.nTime h2 - CBlockHeader.nTime h1) ->
        key_stream h1 <> key_stream h2
        /\ (collision_free GetHash ->
            sha256dKeyBlock GetHash h1 <> sha256dKeyBlock GetHash h2)).
Proof.
  split.
  - intros h1 h2 Hv Hb Ht. unfold sha256dKeyBlock, key_stream.
    rewrite Hv, Hb, Ht. reflexivity.
  - intros h1 h2 Ht1 Ht2 Hfar.
    pose proof (key_stream_apart h1 h2 Ht1 Ht2 Hfar) as Hstream.
    split; [exact Hstream |].
    intros Hfree Hkey. apply Hstream.
    unfold sha256dKeyBlock in Hkey.
    apply Hfree; [apply key_stream_length | apply key_stream_length | exact Hkey].
Qed.

Lemma le_combine_collision_free : collision_free le_combine.
Proof.
  intros a b Ha Hb H. apply le_combine_inj; [congruence | exact H].
Qed.

Lemma epoch_key_buckets_witness :
  sha256dKeyBlock le_combine (header_at 1700000000)
    = sha256dKeyBlock le_combine (header_at 1700000100)
  /\ sha256dKeyBlock le_combine (header_at 1700000000)
    <> sha256dKeyBlock le_combine (header_at 1700400000).
Proof.
  destruct (epoch_key_buckets le_combine) as [Hsame Hdiff].
  split.
  - apply Hsame; reflexivity.
  - refine (proj2 (Hdiff (header_at 1700000000) (header_at 1700400000) _ _ _)
              le_combine_collision_free); cbn; lia.
Defined.


(** ** The verifier pool *)

(** C9. What the code does when the engine fails to create the virtual
    machine: a fresh pool holds a context with a null engine pair; the
    first [PowHash] under a non-zero key allocates the cache, gets a null
    virtual machine, binds the key all the same, calls
    [randomx_calculate_hash] with the null machine and pushes the context
    back; a second call under the same key finds the key unchanged,
    allocates nothing and hashes through the null machine again. *)
Theorem PowHash_null_vm (rx_hash : Z -> list byte -> list byte) (key : Z) (input : list byte) :
  key <> 0 ->
  let stuck :=
    {| RxWorkVerifier3.mCacheStack :=
         [ {| VerifierCtx.m_key := key;
              VerifierCtx.m_vm := None;
              VerifierCtx.m_cache := Some key |} ];
       RxWorkVerifier3.m_nCaches := 1 |} in
  RxWorkVerifier3.mCacheStack one_context_pool =
    [ {| VerifierCtx.m_key := 0; VerifierCtx.m_vm := None; VerifierCtx.m_cache := None |} ]
  /\ RxWorkVerifier3.PowHash rx_hash one_context_pool key input (fresh_world [true; false]) =
       RxWorkVerifier3.Returned stuck
         {| randomx.script := [];
            randomx.calls :=
              [ randomx.calculate_hash None input;
                randomx.create_vm (Some key) None;
                randomx.init_cache (Some tt) key;
                randomx.alloc_cache (Some tt) ] |}
         None
  /\ RxWorkVerifier3.PowHash rx_hash stuck key input (fresh_world []) =
       RxWorkVerifier3.Returned stuck
         {| randomx.script := [];
            randomx.calls := [ randomx.calculate_hash None input ] |}
         None.
Proof.
  intros Hkey. cbv zeta. split; [reflexivity |]. split.
  - unfold RxWorkVerifier3.PowHash. 
    change (RxWorkVerifier3.mCacheStack one_context_pool)
      with [ {| VerifierCtx.m_key := 0; VerifierCtx.m_vm := None; VerifierCtx.m_cache := None |} ].
    unfold VerifierCtx.reinitialize. cbn [VerifierCtx.m_key VerifierCtx.m_vm VerifierCtx.m_cache].
    destruct (Z.eqb_spec key 0) as [? | _]; [contradiction |]. reflexivity.
  - unfold RxWorkVerifier3.PowHash, VerifierCtx.reinitialize.
    cbn [RxWorkVerifier3.mCacheStack VerifierCtx.m_key].
    rewrite Z.eqb_refl. reflexivity.
Qed.

Lemma PowHash_null_vm_witness :
  RxWorkVerifier3.PowHash (fun _ _ => []) one_context_pool 7 [] (fresh_world [true; false]) =
    RxWorkVerifier3.Returned
      {| RxWorkVerifier3.mCacheStack :=
           [ {| VerifierCtx.m_key := 7; VerifierCtx.m_vm := None; VerifierCtx.m_cache := Some 7 |} ];
         RxWorkVerifier3.m_nCaches := 1 |}
      {| randomx.script := [];
         randomx.calls :=
           [ randomx.calculate_hash None [];
             randomx.create_vm (Some 7) None;
             randomx.init_cache (Some tt) 7;
             randomx.alloc_cache (Some tt) ] |}
      None.
Proof.
  exact (proj1 (proj2 (PowHash_null_vm (fun _ _ => []) 7 [] ltac:(discriminate)))).
Defined.

(** The all-zero key equals the key a fresh context starts with, so
    [reinitialize] does nothing for it: the first [PowHash] under that key
    allocates no engine and hashes through the null virtual machine. *)
Lemma PowHash_zero_key (rx_hash : Z -> list byte -> list byte) (input : list byte) :
  RxWorkVerifier3.PowHash rx_hash one_context_pool 0 input (fresh_world []) =
    RxWorkVerifier3.Returned one_context_pool
      {| randomx.script := [];
         randomx.calls := [ randomx.calculate_hash None input ] |}
      None.
Proof. reflexivity. Qed.

(** Where both allocations succeed the digest is the engine's, computed
    under the requested key, and the context stays bound to that key. *)
Lemma PowHash_allocated (rx_hash : Z -> list byte -> list byte) (key : Z) (input : list byte) :
  key <> 0 ->
  RxWorkVerifier3.PowHash rx_hash one_context_pool key input (fresh_world []) =
    RxWorkVerifier3.Returned
      {| RxWorkVerifier3.mCacheStack :=
           [ {| VerifierCtx.m_key := key;
                VerifierCtx.m_vm := Some key;
                VerifierCtx.m_cache := Some key |} ];
         RxWorkVerifier3.m_nCaches := 1 |}
      {| randomx.script := [];
         randomx.calls :=
           [ randomx.calculate_hash (Some key) input;
             randomx.create_vm (Some key) (Some key);
             randomx.init_cache (Some tt) key;
             randomx.alloc_cache (Some tt) ] |}
      (Some (HashBytesToUnit256 (rx_hash key input))).
Proof.
  intros Hkey. unfold RxWorkVerifier3.PowHash.
  change (RxWorkVerifier3.mCacheStack one_context_pool)
    with [ {| VerifierCtx.m_key := 0; VerifierCtx.m_vm := None; VerifierCtx.m_cache := None |} ].
  unfold VerifierCtx.reinitialize. cbn [VerifierCtx.m_key VerifierCtx.m_vm VerifierCtx.m_cache].
  destruct (Z.eqb_spec key 0) as [? | _]; [contradiction |]. reflexivity.
Qed.


(** ** Next work along a chain *)

Lemma find_linked pprev : forall pindex k,
  linked pindex pprev ->
  (k <= length pprev)%nat ->
  find (fun b => CBlockIndex.nHeight b =? CBlockIndex.nHeight pindex - Z.of_nat k)
       (chain_of pindex pprev)
  = nth_error (chain_of pindex pprev) k.
Proof.
  induction pprev as [| prev rest IH]; intros pindex k Hl Hk.
  - cbn in Hk. assert (k = 0%nat) by lia. subst k. cbn.
    rewrite Z.sub_0_r, Z.eqb_refl. reflexivity.
  - destruct k as [| k].
    + cbn. rewrite Z.sub_0_r, Z.eqb_refl. reflexivity.
    + destruct Hl as [Hh Hl]. cbn [chain_of find nth_error].
      destruct (Z.eqb_spec (CBlockIndex.nHeight pindex)
                  (CBlockIndex.nHeight pindex - Z.of_nat (S k))); [lia |].
      specialize (IH prev k Hl ltac:(cbn in Hk; lia)).
      unfold chain_of in IH. rewrite <- IH.
      replace (CBlockIndex.nHeight prev - Z.of_nat k)
        with (CBlockIndex.nHeight pindex - Z.of_nat (S k)) by lia.
      reflexivity.
Qed.

Lemma interval_defined params :
  interval_params params ->
  let interval := Consensus.nPowTargetTimespan params / Consensus.nPowTargetSpacing params in
  Consensus.DifficultyAdjustmentInterval params = Some interval /\ 0 < interval < 2 ^ 31.
Proof.
  intros ((Hs & Hst) & HT). cbv zeta. unfold Consensus.DifficultyAdjustmentInterval.
  rewrite i64_div_nonneg by (unfold INT64_MAX; lia).
  split; [reflexivity |]. split.
  - apply Z.div_str_pos; lia.
  - apply Z.div_lt_upper_bound; nia.
Qed.

(** X1. [GetNextWorkRequired] changes the target once per interval. With
    at least one block per interval and the height of the tip in the range
    of [int]: when the height of the next block is not a multiple of the
    interval and the minimum-difficulty rule is off, the next block keeps
    the bits of the tip; when it is a multiple, on a chain whose [pprev]
    links go down one height at a time and reach [interval - 1] blocks
    back, the answer is that of [CalculateNextWorkRequired] for the time
    of the block [interval - 1] heights below the tip. *)
Theorem GetNextWorkRequired_interval
    (pindexLast : CBlockIndex.t) (pprev : list CBlockIndex.t)
    (pblock : CBlockHeader.t) (params : Consensus.Params) :
  interval_params params ->
  0 <= CBlockIndex.nHeight pindexLast < 2 ^ 31 - 1 ->
  let interval := Consensus.nPowTargetTimespan params / Consensus.nPowTargetSpacing params in
  ((CBlockIndex.nHeight pindexLast + 1) mod interval <> 0 ->
   Consensus.fPowAllowMinDifficultyBlocks params = false ->
   GetNextWorkRequired pindexLast pprev pblock params = Some (CBlockIndex.nBits pindexLast))
  /\ ((CBlockIndex.nHeight pindexLast + 1) mod interval = 0 ->
      linked pindexLast pprev ->
      (Z.to_nat (interval - 1) <= length pprev)%nat ->
      exists pindexFirst,
        nth_error (chain_of pindexLast pprev) (Z.to_nat (interval - 1)) = Some pindexFirst
        /\ CBlockIndex.nHeight pindexFirst = CBlockIndex.nHeight pindexLast - (interval - 1)
        /\ GetNextWorkRequired pindexLast pprev pblock params =
             CalculateNextWorkRequired pindexLast (CBlockIndex.nTime pindexFirst) params).
Proof.
  intros Hp Hh. cbv zeta.
  destruct (interval_defined params Hp) as [Hint Hi]. cbv zeta in Hint, Hi.
  set (interval := Consensus.nPowTargetTimespan params / Consensus.nPowTargetSpacing params) in *.
  assert (Hnext : int_add (CBlockIndex.nHeight pindexLast) 1
                  = Some (CBlockIndex.nHeight pindexLast + 1)).
  { unfold int_add. cbv zeta.
    destruct (Z.leb_spec (- 2 ^ 31) (CBlockIndex.nHeight pindexLast + 1)); [| lia].
    destruct (Z.ltb_spec (CBlockIndex.nHeight pindexLast + 1) (2 ^ 31)); [| lia].
    reflexivity. }
  assert (Hrem : Z.rem (CBlockIndex.nHeight pindexLast + 1) interval
                 = (CBlockIndex.nHeight pindexLast + 1) mod interval)
    by (apply Z.rem_mod_nonneg; lia).
  split.
  - intros Hoff Hmin. unfold GetNextWorkRequired. rewrite Hint. cbn [bind].
    rewrite Hnext. cbn [bind]. rewrite i64_rem_defined by lia. cbn [bind].
    rewrite Hrem. destruct (Z.eqb_spec ((CBlockIndex.nHeight pindexLast + 1) mod interval) 0);
      [contradiction |].
    cbn [negb]. rewrite Hmin. reflexivity.
  - intros Hon Hl Hlen.
    assert (Hge : interval <= CBlockIndex.nHeight pindexLast + 1).
    { apply Z.divide_pos_le; [lia |]. apply Z.mod_divide; [lia | exact Hon]. }
    pose proof (find_linked pprev pindexLast (Z.to_nat (interval - 1)) Hl Hlen) as Hfind.
    rewrite Z2Nat.id in Hfind by lia.
    destruct (nth_error (chain_of pindexLast pprev) (Z.to_nat (interval - 1)))
      as [pindexFirst |] eqn:Hnth.
    2:{ apply nth_error_None in Hnth. unfold chain_of in Hnth. cbn in Hnth. lia. }
    exists pindexFirst. split; [reflexivity |].
    assert (Hhf : CBlockIndex.nHeight pindexFirst
                  = CBlockIndex.nHeight pindexLast - (interval - 1)).
    { apply find_some in Hfind. destruct Hfind as [_ Hf]. apply Z.eqb_eq in Hf. exact Hf. }
    split; [exact Hhf |].
    unfold GetNextWorkRequired. rewrite Hint. cbn [bind].
    rewrite Hnext. cbn [bind]. rewrite i64_rem_defined by lia. cbn [bind].
    rewrite Hrem, Hon. cbn [Z.eqb negb].
    unfold i64_sub.
    rewrite i64_checked_in by (unfold INT64_MIN, INT64_MAX; lia). cbn [bind].
    rewrite i64_checked_in by (unfold INT64_MIN, INT64_MAX; lia). cbn [bind].
    assert (Hto : RxWorkVerifier3.to_int (CBlockIndex.nHeight pindexLast - (interval - 1))
                  = CBlockIndex.nHeight pindexLast - (interval - 1)).
    { unfold RxWorkVerifier3.to_int. rewrite Z.mod_small by lia. lia. }
    rewrite Hto.
    destruct (Z.ltb_spec (CBlockIndex.nHeight pindexLast - (interval - 1)) 0); [lia |].
    unfold GetAncestor.
    destruct (Z.gtb_spec (CBlockIndex.nHeight pindexLast - (interval - 1))
                (CBlockIndex.nHeight pindexLast)); [lia |].
    destruct (Z.ltb_spec (CBlockIndex.nHeight pindexLast - (interval - 1)) 0); [lia |].
    cbn [orb]. rewrite Hfind. reflexivity.
Qed.

Lemma GetNextWorkRequired_interval_witness :
  exists pindexFirst,
    nth_error (chain_of short_chain_tip short_chain_prev) 3 = Some pindexFirst
    /\ CBlockIndex.nHeight pindexFirst = 0
    /\ GetNextWorkRequired short_chain_tip short_chain_prev (header_at 1700002400)
         four_block_interval =
       CalculateNextWorkRequired short_chain_tip (CBlockIndex.nTime pindexFirst)
         four_block_interval.
Proof.
  refine (proj2 (GetNextWorkRequired_interval short_chain_tip short_chain_prev
                   (header_at 1700002400) four_block_interval _ _) _ _ _).
  - unfold interval_params; cbn; lia.
  - cbn; lia.
  - reflexivity.
  - cbn; auto.
  - cbn; lia.
Defined.

(** The walk back over minimum-difficulty blocks stops at the first block
    that is the last of the chain, sits on an interval boundary or does not
    carry the limit; every block passed carries the limit off a boundary. *)
Lemma last_non_special_stop interval limit pprev : forall pindex,
  0 < interval ->
  exists k b,
    nth_error (chain_of pindex pprev) k = Some b
    /\ last_non_special interval limit pindex pprev = Some (CBlockIndex.nBits b)
    /\ (forall j c, (j < k)%nat -> nth_error (chain_of pindex pprev) j = Some c ->
          CBlockIndex.nBits c = limit /\ Z.rem (CBlockIndex.nHeight c) interval <> 0)
    /\ (k = length pprev
        \/ Z.rem (CBlockIndex.nHeight b) interval = 0
        \/ CBlockIndex.nBits b <> limit).
Proof.
  assert (Hzero : forall pindex pprev,
             forall j c, (j < 0)%nat -> nth_error (chain_of pindex pprev) j = Some c ->
               CBlockIndex.nBits c = limit /\ Z.rem (CBlockIndex.nHeight c) interval <> 0)
    by (intros; lia).
  induction pprev as [| prev rest IH]; intros pindex Hi.
  - exists 0%nat, pindex. cbn [last_non_special length].
    split; [reflexivity |]. split; [reflexivity |]. split; [apply Hzero | left; reflexivity].
  - cbn [last_non_special]. rewrite i64_rem_defined by exact Hi. cbn [bind].
    destruct (Z.eqb_spec (Z.rem (CBlockIndex.nHeight pindex) interval) 0) as [Hb | Hb];
      cbn [negb andb].
    { exists 0%nat, pindex.
      split; [reflexivity |]. split; [reflexivity |]. split; [apply Hzero | right; left; exact Hb]. }
    destruct (Z.eqb_spec (CBlockIndex.nBits pindex) limit) as [Hl | Hl].
    + destruct (IH prev Hi) as (k & b & Hnth & Hres & Hpassed & Hstop).
      exists (S k), b. cbn [chain_of nth_error length].
      split; [exact Hnth |]. split; [exact Hres |]. split.
      * intros j c Hj Hc. destruct j as [| j]; cbn [nth_error] in Hc.
        -- inversion Hc; subst c. split; assumption.
        -- apply (Hpassed j c); [lia | exact Hc].
      * destruct Hstop as [Hk | Hk]; [left; lia | right; exact Hk].
    + exists 0%nat, pindex.
      split; [reflexivity |]. split; [reflexivity |].
      split; [apply Hzero | right; right; exact Hl].
Qed.

(** X2. The minimum-difficulty rule of [GetNextWorkRequired], off a
    retarget boundary. A block stamped more than two spacings after the
    tip gets the compact value of the limit. Any other block gets the bits
    of the first block [b], walking back from the tip, that sits at a
    multiple of the interval, or has other bits than the limit, or has no
    predecessor: every block passed on the way has the bits of the limit
    and is off the boundary. *)
Theorem GetNextWorkRequired_min_difficulty
    (pindexLast : CBlockIndex.t) (pprev : list CBlockIndex.t)
    (pblock : CBlockHeader.t) (params : Consensus.Params) :
  interval_params params ->
  0 <= CBlockIndex.nHeight pindexLast < 2 ^ 31 - 1 ->
  0 <= CBlockIndex.nTime pindexLast < 2 ^ 32 ->
  Consensus.fPowAllowMinDifficultyBlocks params = true ->
  let interval := Consensus.nPowTargetTimespan params / Consensus.nPowTargetSpacing params in
  let limit := GetCompact (UintToArith256 (Consensus.powLimit params)) in
  (CBlockIndex.nHeight pindexLast + 1) mod interval <> 0 ->
  (CBlockHeader.nTime pblock
     > CBlockIndex.nTime pindexLast + 2 * Consensus.nPowTargetSpacing params ->
   GetNextWorkRequired pindexLast pprev pblock params = Some limit)
  /\ (CBlockHeader.nTime pblock
        <= CBlockIndex.nTime pindexLast + 2 * Consensus.nPowTargetSpacing params ->
      exists k b,
        nth_error (chain_of pindexLast pprev) k = Some b
        /\ GetNextWorkRequired pindexLast pprev pblock params = Some (CBlockIndex.nBits b)
        /\ (forall j c, (j < k)%nat -> nth_error (chain_of pindexLast pprev) j = Some c ->
              CBlockIndex.nBits c = limit /\ Z.rem (CBlockIndex.nHeight c) interval <> 0)
        /\ (k = length pprev
            \/ Z.rem (CBlockIndex.nHeight b) interval = 0
            \/ CBlockIndex.nBits b <> limit)).
Proof.
  intros Hp Hh Ht Hmin. cbv zeta. intros Hoff.
  destruct (interval_defined params Hp) as [Hint Hi]. cbv zeta in Hint, Hi.
  destruct Hp as ((Hs & Hst) & HT).
  set (interval := Consensus.nPowTargetTimespan params / Consensus.nPowTargetSpacing params) in *.
  assert (Hhead : forall k : Z -> option Z,
             GetNextWorkRequired pindexLast pprev pblock params =
             (let deadline := CBlockIndex.nTime pindexLast
                              + 2 * Consensus.nPowTargetSpacing params in
              if CBlockHeader.nTime pblock >? deadline
              then Some (GetCompact (UintToArith256 (Consensus.powLimit params)))
              else last_non_special interval
                     (GetCompact (UintToArith256 (Consensus.powLimit params)))
                     pindexLast pprev)).
  { intros _. unfold GetNextWorkRequired. rewrite Hint. cbn [bind].
    unfold int_add. cbv zeta.
    destruct (Z.leb_spec (- 2 ^ 31) (CBlockIndex.nHeight pindexLast + 1)); [| lia].
    destruct (Z.ltb_spec (CBlockIndex.nHeight pindexLast + 1) (2 ^ 31)); [| lia].
    cbn [andb bind]. rewrite i64_rem_defined by lia. cbn [bind].
    rewrite Z.rem_mod_nonneg by lia.
    destruct (Z.eqb_spec ((CBlockIndex.nHeight pindexLast + 1) mod interval) 0);
      [contradiction |].
    cbn [negb]. rewrite Hmin.
    unfold i64_mul, i64_add, CBlockIndex.GetBlockTime.
    rewrite i64_checked_in by (unfold INT64_MIN, INT64_MAX; lia). cbn [bind].
    rewrite i64_checked_in by (unfold INT64_MIN, INT64_MAX; lia). cbn [bind].
    replace (Consensus.nPowTargetSpacing params * 2)
      with (2 * Consensus.nPowTargetSpacing params) by lia.
    reflexivity. }
  specialize (Hhead (fun _ => None)). cbv zeta in Hhead.
  split.
  - intros Hlate. rewrite Hhead.
    destruct (Z.gtb_spec (CBlockHeader.nTime pblock)
                (CBlockIndex.nTime pindexLast + 2 * Consensus.nPowTargetSpacing params));
      [reflexivity | lia].
  - intros Hsoon. rewrite Hhead.
    destruct (Z.gtb_spec (CBlockHeader.nTime pblock)
                (CBlockIndex.nTime pindexLast + 2 * Consensus.nPowTargetSpacing params));
      [lia |].
    apply last_non_special_stop. lia.
Qed.

Lemma GetNextWorkRequired_min_difficulty_witness :
  GetNextWorkRequired special_tip special_prev (header_at 1700005000) four_block_testnet
    = Some 0x1d00ffff
  /\ exists k b,
       nth_error (chain_of special_tip special_prev) k = Some b
       /\ GetNextWorkRequired special_tip special_prev (header_at 1700004200)
            four_block_testnet = Some (CBlockIndex.nBits b).
Proof.
  assert (Hp : interval_params four_block_testnet) by (unfold interval_params; cbn; lia).
  pose proof (GetNextWorkRequired_min_difficulty special_tip special_prev
                (header_at 1700005000) four_block_testnet Hp
                ltac:(cbn; lia) ltac:(cbn; lia) eq_refl ltac:(cbn; lia)) as [Hlate _].
  pose proof (GetNextWorkRequired_min_difficulty special_tip special_prev
                (header_at 1700004200) four_block_testnet Hp
                ltac:(cbn; lia) ltac:(cbn; lia) eq_refl ltac:(cbn; lia)) as [_ Hsoon].
  split.
  - rewrite (Hlate ltac:(cbn; lia)). reflexivity.
  - destruct (Hsoon ltac:(cbn; lia)) as (k & b & Hnth & Hres & _).
    exists k, b. split; assumption.
Defined.


(** ** Order and validity of re-rounded targets *)

Lemma reround_keeps_top x : 0 < x < 2 ^ 256 -> 2 ^ (bits x - 1) <= reround x.
Proof.
  intros Hx. rewrite reround_closed by exact Hx.
  pose proof (bits_pos x ltac:(lia)) as Hb.
  destruct (Z.leb_spec (exponent x) 3); [lia |].
  set (k := 8 * (exponent x - 3)) in *.
  assert (Hbits : bits x = Z.log2 x + 1).
  { unfold bits. destruct (Z.eqb_spec x 0); [lia | reflexivity]. }
  assert (Hk : 0 <= k <= Z.log2 x).
  { subst k. unfold exponent in *. rewrite Hbits in *. Z.div_mod_to_equations; lia. }
  assert (Hp : 0 < 2 ^ k) by (apply Z.pow_pos_nonneg; lia).
  rewrite Hbits. replace (Z.log2 x + 1 - 1) with ((Z.log2 x - k) + k) by lia.
  rewrite Z.pow_add_r by lia.
  apply Z.mul_le_mono_nonneg_r; [lia |].
  apply Z.div_le_lower_bound; [lia |].
  rewrite <- Z.pow_add_r by lia. replace (k + (Z.log2 x - k)) with (Z.log2 x) by lia.
  apply Z.log2_spec. lia.
Qed.

Lemma bits_mono x y : 0 < x <= y -> bits x <= bits y.
Proof.
  intros Hxy. unfold bits.
  destruct (Z.eqb_spec x 0); [lia |]. destruct (Z.eqb_spec y 0); [lia |].
  pose proof (Z.log2_le_mono x y ltac:(lia)). lia.
Qed.

Lemma reround_mono x y : 0 <= x <= y -> y < 2 ^ 256 -> reround x <= reround y.
Proof.
  intros Hxy Hy.
  destruct (Z.eq_dec x 0) as [-> | Hx0].
  { rewrite reround_zero. apply reround_bounds. lia. }
  pose proof (bits_mono x y ltac:(lia)) as Hb.
  destruct (Z.eq_dec (exponent x) (exponent y)) as [He | He].
  - rewrite !reround_closed by lia. rewrite He.
    destruct (Z.leb_spec (exponent y) 3); [lia |].
    set (k := 8 * (exponent y - 3)).
    assert (Hp : 0 < 2 ^ k) by (apply Z.pow_pos_nonneg; lia).
    apply Z.mul_le_mono_nonneg_r; [lia |].
    apply Z.div_le_mono; lia.
  - (* the wider one keeps its top bit, which lies above all of x *)
    assert (Hlt : bits x < bits y).
    { unfold exponent in He. destruct (Z.eq_dec (bits x) (bits y)) as [E | E];
        [rewrite E in He; contradiction | lia]. }
    pose proof (reround_bounds x ltac:(lia)).
    pose proof (reround_keeps_top y ltac:(lia)).
    pose proof (bits_pos x ltac:(lia)).
    assert (2 ^ bits x <= 2 ^ (bits y - 1)) by (apply Z.pow_le_mono_r; lia).
    lia.
Qed.

Lemma GetCompact_range x : 0 <= x < 2 ^ 256 -> 0 <= GetCompact x < 2 ^ 32.
Proof.
  intros Hx. destruct (Z.eq_dec x 0) as [-> | Hnz]; [cbn; lia |].
  destruct (GetCompact_closed x ltac:(lia)) as (Hc & Hm & He). rewrite Hc. lia.
Qed.

(** What [GetCompact] produces decodes without either indication. *)
Lemma SetCompact_GetCompact_flags x :
  0 <= x < 2 ^ 256 ->
  fNegative (SetCompact (GetCompact x)) = false
  /\ fOverflow (SetCompact (GetCompact x)) = false.
Proof.
  intros Hx. destruct (Z.eq_dec x 0) as [-> | Hnz]; [split; reflexivity |].
  destruct (GetCompact_closed x ltac:(lia)) as (Hc & Hm & He).
  set (m := mantissa x (exponent x)) in *. set (e := exponent x) in *.
  destruct (SetCompact_compact m e ltac:(lia) ltac:(lia)) as [Ht Hneg].
  rewrite Hc. split; [exact Hneg |].
  destruct (fOverflow (SetCompact (m + e * 2 ^ 24))) eqn:Hov; [exfalso | reflexivity].
  apply SetCompact_overflow in Hov; [| lia]. cbv zeta in Hov.
  destruct (compact_fields m e ltac:(lia) ltac:(lia)) as (Hs & Hw & _).
  rewrite Z.shiftr_div_pow2 in Hs by lia.
  change 0x007fffff with (Z.ones 23) in Hw. rewrite Z.land_ones in Hw by lia.
  rewrite Hs, Hw in Hov. destruct Hov as [H3 Hbig].
  subst m. unfold mantissa in Hbig. destruct (Z.leb_spec e 3); [lia |].
  assert (0 < 2 ^ (8 * (e - 3))) by (apply Z.pow_pos_nonneg; lia).
  pose proof (Z.mul_div_le x (2 ^ (8 * (e - 3))) ltac:(lia)). nia.
Qed.

(** ** The proof-of-work check, further *)

(** X3. What an accepted proof of work guarantees: the hash is at most
    the limit and the compact value is not zero, negative or overflowing.
    Acceptance is monotone: with the same bits every smaller hash is
    accepted too, and so is the same hash under every larger limit. *)
Theorem CheckProofOfWork_accepts (hash nBits : Z) (params : Consensus.Params) :
  CheckProofOfWork hash nBits params = true ->
  UintToArith256 hash <= UintToArith256 (Consensus.powLimit params)
  /\ target (SetCompact nBits) <> 0
  /\ fNegative (SetCompact nBits) = false
  /\ fOverflow (SetCompact nBits) = false
  /\ (forall hash', UintToArith256 hash' <= UintToArith256 hash ->
        CheckProofOfWork hash' nBits params = true)
  /\ (forall params',
        UintToArith256 (Consensus.powLimit params)
          <= UintToArith256 (Consensus.powLimit params') ->
        CheckProofOfWork hash nBits params' = true).
Proof.
  unfold CheckProofOfWork, UintToArith256. intros H.
  destruct (fNegative (SetCompact nBits)); [discriminate |].
  destruct (Z.eqb_spec (target (SetCompact nBits)) 0) as [? | Hnz]; [discriminate |].
  destruct (fOverflow (SetCompact nBits)); [discriminate |].
  cbn [orb] in *.
  destruct (Z.gtb_spec (target (SetCompact nBits)) (Consensus.powLimit params));
    [discriminate |].
  destruct (Z.gtb_spec hash (target (SetCompact nBits))); [discriminate |].
  split; [lia |]. split; [exact Hnz |]. split; [reflexivity |]. split; [reflexivity |].
  split.
  - intros hash' Hle.
    destruct (Z.gtb_spec hash' (target (SetCompact nBits))); [lia | reflexivity].
  - intros params' Hle.
    destruct (Z.gtb_spec (target (SetCompact nBits)) (Consensus.powLimit params'));
      [lia | reflexivity].
Qed.

Lemma CheckProofOfWork_accepts_witness :
  UintToArith256 (2 ^ 200) <= UintToArith256 (Consensus.powLimit mainnet_like)
  /\ target (SetCompact 0x1d00ffff) <> 0.
Proof.
  destruct (CheckProofOfWork_accepts (2 ^ 200) 0x1d00ffff mainnet_like eq_refl)
    as (H1 & H2 & _).
  split; assumption.
Defined.

(** ** Retargeting, further *)


(** X4. The bits a retarget returns are well formed: on defined inputs
    and a 256-bit limit, [CalculateNextWorkRequired] returns a 32-bit
    compact value that [GetCompact] produces, neither negative nor
    overflowing, and, unless it decodes to zero, [CheckProofOfWork] under
    the same parameters accepts exactly the hashes at or below its
    target. *)
Theorem CalculateNextWorkRequired_valid_bits
    (pindexLast : CBlockIndex.t) (nFirstBlockTime : Z) (params : Consensus.Params) :
  Consensus.fPowNoRetargeting params = false ->
  retarget_inputs pindexLast nFirstBlockTime params ->
  0 <= UintToArith256 (Consensus.powLimit params) < 2 ^ 256 ->
  exists nBits,
    CalculateNextWorkRequired pindexLast nFirstBlockTime params = Some nBits
    /\ 0 <= nBits < 2 ^ 32
    /\ canonical nBits
    /\ fNegative (SetCompact nBits) = false
    /\ fOverflow (SetCompact nBits) = false
    /\ (target (SetCompact nBits) <> 0 ->
        forall hash,
          CheckProofOfWork hash nBits params
          = (UintToArith256 hash <=? target (SetCompact nBits))).
Proof.
  intros Hno Hin Hlimit. unfold UintToArith256 in *.
  eexists. split; [apply CalculateNextWorkRequired_retarget; assumption |].
  unfold next_work.
  set (scaled := wrap256 _ / 2048).
  assert (Hs : 0 <= scaled).
  { subst scaled. apply Z.div_pos; [| lia]. unfold wrap256. apply Z.mod_pos_bound. lia. }
  set (x := Z.min scaled (Consensus.powLimit params)).
  assert (Hx : 0 <= x < 2 ^ 256) by (subst x; lia).
  destruct (SetCompact_GetCompact_flags x Hx) as [Hneg Hov].
  split; [apply GetCompact_range; exact Hx |].
  split; [exists x; split; [exact Hx | reflexivity] |].
  split; [exact Hneg |]. split; [exact Hov |].
  intros Hnz hash. unfold CheckProofOfWork, UintToArith256.
  rewrite Hneg, Hov.
  destruct (Z.eqb_spec (target (SetCompact (GetCompact x))) 0); [contradiction |].
  cbn [orb].
  pose proof (reround_bounds x Hx) as Hr. unfold reround in Hr.
  destruct (Z.gtb_spec (target (SetCompact (GetCompact x))) (Consensus.powLimit params));
    [subst x; lia |].
  destruct (Z.gtb_spec hash (target (SetCompact (GetCompact x))));
    destruct (Z.leb_spec hash (target (SetCompact (GetCompact x)))); try lia; reflexivity.
Qed.

Lemma CalculateNextWorkRequired_valid_bits_witness :
  exists nBits,
    CalculateNextWorkRequired tip_32255 1261130161 mainnet_like = Some nBits
    /\ 0 <= nBits < 2 ^ 32
    /\ fOverflow (SetCompact nBits) = false.
Proof.
  destruct (CalculateNextWorkRequired_valid_bits tip_32255 1261130161 mainnet_like eq_refl)
    as (nBits & Hr & Hrange & _ & _ & Hov & _).
  - unfold retarget_inputs; cbn; lia.
  - cbn; lia.
  - exists nBits. repeat split; try assumption; apply Hrange.
Defined.


(** The target a retarget arrives at, before it is encoded. *)
Lemma next_work_unfold bits time first T limit :
  next_work bits time first T limit =
  GetCompact (Z.min (wrap256 (target (SetCompact bits)
                              * (clamp (T / 4) (T * 4) (time - first) * 2048 / T)) / 2048)
                    limit).
Proof. reflexivity. Qed.




Lemma clamp_mono lo hi x y : x <= y -> clamp lo hi x <= clamp lo hi y.
Proof. unfold clamp. lia. Qed.

(** The target of a retarget on defined inputs, when the scaled product
    fits 256 bits. *)
Lemma next_work_fits bits time first T limit :
  0 <= bits < 2 ^ 32 -> 0 < T ->
  target (SetCompact bits) * 8192 < 2 ^ 256 ->
  next_work bits time first T limit =
  GetCompact (Z.min (target (SetCompact bits)
                     * (clamp (T / 4) (T * 4) (time - first) * 2048 / T) / 2048) limit).
Proof.
  intros Hbits HT Hfit. rewrite next_work_unfold.
  pose proof (SetCompact_target_range bits ltac:(lia)) as Hd.
  assert (Hq : 0 <= T / 4 <= T)
    by (split; [apply Z.div_pos | apply Z.div_le_upper_bound]; lia).
  pose proof (clamp_range (T / 4) (T * 4) (time - first) ltac:(lia)) as Ha.
  pose proof (retarget_ratio T _ ltac:(lia) Ha) as Hratio.
  unfold wrap256. rewrite Z.mod_small; [reflexivity |].
  split; [apply Z.mul_nonneg_nonneg; lia | nia].
Qed.

(** X6. The retarget is monotone in the measured timespan: for the same
    tip, a later first-block time (a shorter timespan) never gives a
    larger target. *)
Theorem retarget_monotone
    (pindexLast : CBlockIndex.t) (first1 first2 : Z) (params : Consensus.Params) :
  Consensus.fPowNoRetargeting params = false ->
  retarget_inputs pindexLast first1 params ->
  retarget_inputs pindexLast first2 params ->
  0 <= UintToArith256 (Consensus.powLimit params) < 2 ^ 256 ->
  target (SetCompact (CBlockIndex.nBits pindexLast)) * 8192 < 2 ^ 256 ->
  first1 <= first2 ->
  exists nBits1 nBits2,
    CalculateNextWorkRequired pindexLast first1 params = Some nBits1
    /\ CalculateNextWorkRequired pindexLast first2 params = Some nBits2
    /\ target (SetCompact nBits2) <= target (SetCompact nBits1).
Proof.
  intros Hno Hin1 Hin2 Hlimit Hfit Hle. unfold UintToArith256 in *.
  do 2 eexists.
  split; [apply CalculateNextWorkRequired_retarget; assumption |].
  split; [apply CalculateNextWorkRequired_retarget; assumption |].
  destruct Hin1 as (Htime & Hbits & Hfirst & HT).
  set (T := Consensus.nPowTargetTimespan params) in *.
  set (limit := Consensus.powLimit params) in *.
  rewrite !next_work_fits by (assumption || lia).
  pose proof (SetCompact_target_range (CBlockIndex.nBits pindexLast) ltac:(lia)) as Hd.
  set (d := target (SetCompact (CBlockIndex.nBits pindexLast))) in *.
  assert (Hq : 0 <= T / 4 <= T)
    by (split; [apply Z.div_pos | apply Z.div_le_upper_bound]; lia).
  pose proof (clamp_range (T / 4) (T * 4) (CBlockIndex.nTime pindexLast - first1)
                ltac:(lia)) as Ha1.
  pose proof (clamp_range (T / 4) (T * 4) (CBlockIndex.nTime pindexLast - first2)
                ltac:(lia)) as Ha2.
  pose proof (clamp_mono (T / 4) (T * 4) (CBlockIndex.nTime pindexLast - first2)
                (CBlockIndex.nTime pindexLast - first1) ltac:(lia)) as Hmono.
  set (a1 := clamp (T / 4) (T * 4) (CBlockIndex.nTime pindexLast - first1)) in *.
  set (a2 := clamp (T / 4) (T * 4) (CBlockIndex.nTime pindexLast - first2)) in *.
  pose proof (retarget_ratio T a1 ltac:(lia) Ha1) as Hr1.
  pose proof (retarget_ratio T a2 ltac:(lia) Ha2) as Hr2.
  assert (Hr : a2 * 2048 / T <= a1 * 2048 / T) by (apply Z.div_le_mono; lia).
  set (r1 := a1 * 2048 / T) in *. set (r2 := a2 * 2048 / T) in *.
  assert (Hs : d * r2 / 2048 <= d * r1 / 2048) by (apply Z.div_le_mono; [lia | nia]).
  assert (Hs0 : 0 <= d * r2 / 2048) by (apply Z.div_pos; nia).
  change (reround (Z.min (d * r2 / 2048) limit) <= reround (Z.min (d * r1 / 2048) limit)).
  apply reround_mono; lia.
Qed.

Lemma retarget_monotone_witness :
  exists nBits1 nBits2,
    CalculateNextWorkRequired tip_32255 1261130161 mainnet_like = Some nBits1
    /\ CalculateNextWorkRequired tip_32255 1261500000 mainnet_like = Some nBits2
    /\ target (SetCompact nBits2) <= target (SetCompact nBits1).
Proof.
  apply retarget_monotone.
  - reflexivity.
  - unfold retarget_inputs; cbn; lia.
  - unfold retarget_inputs; cbn; lia.
  - cbn; lia.
  - reflexivity.
  - lia.
Defined.

(** X7. The retarget at its clamps. A timespan of four target timespans
    or more gives the encoding of [min (old * 4) limit], whatever the
    excess; with a target timespan that is a multiple of four, a timespan
    of a quarter or less gives the encoding of [min (old / 4) limit]; and a
    timespan equal to the target timespan gives the bits of the tip back,
    when they are canonical and within the limit. *)
Theorem retarget_at_the_clamps
    (pindexLast : CBlockIndex.t) (nFirstBlockTime : Z) (params : Consensus.Params) :
  Consensus.fPowNoRetargeting params = false ->
  retarget_inputs pindexLast nFirstBlockTime params ->
  target (SetCompact (CBlockIndex.nBits pindexLast)) * 8192 < 2 ^ 256 ->
  let T := Consensus.nPowTargetTimespan params in
  let old := target (SetCompact (CBlockIndex.nBits pindexLast)) in
  let limit := UintToArith256 (Consensus.powLimit params) in
  let span := CBlockIndex.nTime pindexLast - nFirstBlockTime in
  (T * 4 <= span ->
   CalculateNextWorkRequired pindexLast nFirstBlockTime params
   = Some (GetCompact (Z.min (old * 4) limit)))
  /\ (span <= T / 4 -> T mod 4 = 0 ->
      CalculateNextWorkRequired pindexLast nFirstBlockTime params
      = Some (GetCompact (Z.min (old / 4) limit)))
  /\ (span = T -> canonical (CBlockIndex.nBits pindexLast) -> old <= limit ->
      CalculateNextWorkRequired pindexLast nFirstBlockTime params
      = Some (CBlockIndex.nBits pindexLast)).
Proof.
  intros Hno Hin Hfit. cbv zeta. unfold UintToArith256.
  rewrite (CalculateNextWorkRequired_retarget _ _ _ Hno Hin).
  destruct Hin as (Htime & Hbits & Hfirst & HT).
  set (T := Consensus.nPowTargetTimespan params) in *.
  set (limit := Consensus.powLimit params) in *.
  rewrite next_work_fits by (assumption || lia).
  pose proof (SetCompact_target_range (CBlockIndex.nBits pindexLast) ltac:(lia)) as Hd.
  set (d := target (SetCompact (CBlockIndex.nBits pindexLast))) in *.
  assert (Hq : 0 <= T / 4 <= T)
    by (split; [apply Z.div_pos | apply Z.div_le_upper_bound]; lia).
  set (span := CBlockIndex.nTime pindexLast - nFirstBlockTime).
  split; [| split].
  - intros Hlong.
    replace (clamp (T / 4) (T * 4) span) with (T * 4) by (unfold clamp; lia).
    replace (T * 4 * 2048) with (8192 * T) by lia. rewrite Z.div_mul by lia.
    replace (d * 8192) with (d * 4 * 2048) by lia. rewrite Z.div_mul by lia.
    reflexivity.
  - intros Hshort H4.
    replace (clamp (T / 4) (T * 4) span) with (T / 4) by (unfold clamp; lia).
    assert (HT4 : T = 4 * (T / 4)) by (Z.div_mod_to_equations; lia).
    assert (Hr : T / 4 * 2048 / T = 512).
    { rewrite HT4 at 2. replace (T / 4 * 2048) with (512 * (4 * (T / 4))) by lia.
      apply Z.div_mul. lia. }
    rewrite Hr. do 3 f_equal.
    change 2048 with (4 * 512). apply Z.div_mul_cancel_r; lia.
  - intros Hexact Hcanon Hle.
    replace (clamp (T / 4) (T * 4) span) with T by (unfold clamp; lia).
    rewrite (Z.mul_comm T 2048), Z.div_mul by lia.
    rewrite Z.div_mul by lia.
    replace (Z.min d limit) with d by lia.
    destruct Hcanon as (x & Hx & Hxb). subst d. rewrite <- Hxb.
    f_equal. apply GetCompact_reround. exact Hx.
Qed.

Lemma retarget_at_the_clamps_witness :
  CalculateNextWorkRequired tip_32255 (1262152739 - 5000000) mainnet_like
  = Some (GetCompact (Z.min (target (SetCompact 0x1d00ffff) * 4) (0xffff * 2 ^ 208))).
Proof.
  refine (proj1 (retarget_at_the_clamps tip_32255 (1262152739 - 5000000) mainnet_like
                   eq_refl _ _) _).
  - unfold retarget_inputs; cbn; lia.
  - reflexivity.
  - cbn; lia.
Defined.


(** ** The pool over its lifetime *)

Lemma fill_blank n : forall stack w,
  RxWorkVerifier3.fill n stack w = (repeat blank_context n ++ stack, w).
Proof.
  induction n as [| n IH]; intros stack w.
  - reflexivity.
  - cbn [RxWorkVerifier3.fill]. unfold VerifierCtx.create, VerifierCtx.reinitialize.
    cbn [VerifierCtx.m_key]. rewrite Z.eqb_refl. cbn [negb].
    rewrite IH. f_equal.
    change (repeat blank_context (S n)) with (blank_context :: repeat blank_context n)%list.
    rewrite (repeat_cons n blank_context). rewrite <- app_assoc. reflexivity.
Qed.

(** X8. The pool the constructor of [RxWorkVerifier3] builds: the lesser
    of the core count and the free memory in units of 256 MiB many
    contexts, each with the zero key and null engine handles, and no call
    to the engine. With less than 256 MiB free, or no core reported, the
    pool is empty and every [PowHash] blocks. *)
Theorem RxWorkVerifier3_create_blank (hardware_concurrency freeMemory : Z)
    (w : randomx.world) :
  0 <= hardware_concurrency < 2 ^ 31 ->
  0 <= freeMemory < 2 ^ 59 ->
  let n := Z.min hardware_concurrency (freeMemory / (256 * 1024 * 1024)) in
  RxWorkVerifier3.create hardware_concurrency freeMemory w =
    ({| RxWorkVerifier3.mCacheStack := repeat blank_context (Z.to_nat n);
        RxWorkVerifier3.m_nCaches := n |}, w)
  /\ (freeMemory < 256 * 1024 * 1024 \/ hardware_concurrency = 0 ->
      forall rx_hash key input w',
        RxWorkVerifier3.PowHash rx_hash
          (fst (RxWorkVerifier3.create hardware_concurrency freeMemory w)) key input w'
        = RxWorkVerifier3.Blocked).
Proof.
  intros Hhw Hfree. cbv zeta.
  assert (Hq : 0 <= freeMemory / (256 * 1024 * 1024) < 2 ^ 31).
  { split; [apply Z.div_pos; lia | apply Z.div_lt_upper_bound; lia]. }
  assert (Hcreate :
    RxWorkVerifier3.create hardware_concurrency freeMemory w =
    ({| RxWorkVerifier3.mCacheStack :=
          repeat blank_context
            (Z.to_nat (Z.min hardware_concurrency (freeMemory / (256 * 1024 * 1024))));
        RxWorkVerifier3.m_nCaches :=
          Z.min hardware_concurrency (freeMemory / (256 * 1024 * 1024)) |}, w)).
  { unfold RxWorkVerifier3.create, RxWorkVerifier3.ONE_CACHE_SIZE, RxWorkVerifier3.to_int.
    rewrite Z.mul_1_l.
    rewrite (Z.mod_small (hardware_concurrency + 2 ^ 31)) by lia.
    rewrite (Z.mod_small (freeMemory / (256 * 1024 * 1024) + 2 ^ 31)) by lia.
    replace (hardware_concurrency + 2 ^ 31 - 2 ^ 31) with hardware_concurrency by lia.
    replace (freeMemory / (256 * 1024 * 1024) + 2 ^ 31 - 2 ^ 31)
      with (freeMemory / (256 * 1024 * 1024)) by lia.
    rewrite fill_blank, app_nil_r. reflexivity. }
  split; [exact Hcreate |].
  intros Hnone rx_hash key input w'. rewrite Hcreate. cbn [fst].
  assert (Hn : Z.min hardware_concurrency (freeMemory / (256 * 1024 * 1024)) = 0).
  { destruct Hnone as [Hsmall | Hzero].
    - rewrite (Z.div_small freeMemory) by lia. lia.
    - lia. }
  rewrite Hn. reflexivity.
Qed.

Lemma RxWorkVerifier3_create_blank_witness :
  RxWorkVerifier3.create 4 (3 * 2 ^ 28 + 5) (fresh_world [false]) =
    ({| RxWorkVerifier3.mCacheStack := repeat blank_context 3;
        RxWorkVerifier3.m_nCaches := 3 |}, fresh_world [false]).
Proof.
  exact (proj1 (RxWorkVerifier3_create_blank 4 (3 * 2 ^ 28 + 5) (fresh_world [false])
                  ltac:(lia) ltac:(lia))).
Defined.

(** [reinitialize] leaves the context bound to the requested key, with a
    virtual machine, if any, created for that key. *)
Lemma reinitialize_bound ctx key w :
  bound ctx ->
  let '(ctx', _) := VerifierCtx.reinitialize ctx key w in
  VerifierCtx.m_key ctx' = key /\ bound ctx'.
Proof.
  intros Hb. unfold VerifierCtx.reinitialize.
  destruct (Z.eqb_spec key (VerifierCtx.m_key ctx)) as [-> | Hne]; cbn [negb].
  - split; [reflexivity | exact Hb].
  - destruct (randomx.request _) as [ok w1].
    destruct ok.
    + destruct (randomx.request _) as [ok' w2].
      split; [reflexivity |]. unfold bound. cbn. destruct ok'; reflexivity.
    + split; [reflexivity |]. unfold bound. cbn. exact I.
Qed.





Lemma reinitialize_allocations ctx key w :
  let '(ctx', w') := VerifierCtx.reinitialize ctx key w in
  allocations w' =
    ((if Z.eqb key (VerifierCtx.m_key ctx) then 0 else 1) + allocations w)%nat
  /\ (randomx.script w = [] ->
      randomx.script w' = []
      /\ (key <> VerifierCtx.m_key ctx -> VerifierCtx.m_vm ctx' = Some key)
      /\ (key = VerifierCtx.m_key ctx -> ctx' = ctx)).
Proof.
  unfold VerifierCtx.reinitialize.
  destruct (Z.eqb_spec key (VerifierCtx.m_key ctx)) as [Heq | Hne]; cbn [negb].
  - split; [reflexivity |]. intros Hs. split; [exact Hs |]. split; [contradiction | reflexivity].
  - destruct ctx as [k vm cache]. destruct w as [script calls].
    unfold allocations, randomx.request, randomx.log.
    destruct vm, cache, script as [| [|] [| [|] more]];
      cbn [randomx.script randomx.calls VerifierCtx.m_vm VerifierCtx.m_cache
           filter is_alloc_cache length VerifierCtx.m_key Nat.add] in *;
      (split; [reflexivity |]); intros Hs; try discriminate;
      (split; [reflexivity |]); (split; [reflexivity | contradiction]).
Qed.

(** X10. Cache allocations of a sequence of [PowHash] calls: the engine
    is asked for one cache each time the key differs from that of the
    request before (for the first request, from the key of the context on
    top), and never otherwise. When no allocation fails and the first
    request finds a machine or brings a new key, every call returns the
    digest of its input under its key. *)
Theorem PowHash_run_allocations (rx_hash : Z -> list byte -> list byte)
    (requests : list (Z * list byte)) :
  forall (v : RxWorkVerifier3.t) (w : randomx.world) top rest,
  RxWorkVerifier3.mCacheStack v = top :: rest ->
  bound top ->
  exists digests v' w',
    PowHash_run rx_hash v w requests = Some (digests, v', w')
    /\ allocations w'
       = (key_changes (VerifierCtx.m_key top) (map fst requests) + allocations w)%nat
    /\ (randomx.script w = [] ->
        live top \/ (exists key input more,
                       requests = (key, input) :: more /\ key <> VerifierCtx.m_key top) ->
        digests = map (fun request =>
                         Some (HashBytesToUnit256 (rx_hash (fst request) (snd request))))
                    requests).
Proof.
  induction requests as [| [key input] more IH]; intros v w top rest Hstack Hb.
  - exists [], v, w. split; [reflexivity |]. split; [reflexivity |]. intros; reflexivity.
  - cbn [PowHash_run]. unfold RxWorkVerifier3.PowHash. rewrite Hstack.
    pose proof (reinitialize_allocations top key w) as Hal.
    pose proof (reinitialize_bound top key w Hb) as Hrb.
    destruct (VerifierCtx.reinitialize top key w) as [top1 w1].
    destruct Hal as [Hcount Hscript]. destruct Hrb as [Hkey1 Hb1].
    set (w2 := randomx.log (randomx.calculate_hash (VerifierCtx.m_vm top1) input) w1).
    destruct (IH {| RxWorkVerifier3.mCacheStack := top1 :: rest;
                    RxWorkVerifier3.m_nCaches := RxWorkVerifier3.m_nCaches v |}
                 w2 top1 rest eq_refl Hb1)
      as (ds & v' & w' & Hrun & Hallocs & Hsome).
    rewrite Hrun. do 3 eexists. split; [reflexivity |]. split.
    + rewrite Hallocs. cbn [map fst key_changes]. rewrite Hkey1.
      change (allocations w2) with (allocations w1). rewrite Hcount. lia.
    + intros Hs Hready. destruct (Hscript Hs) as (Hs1 & Hfresh & Hsame).
      assert (Hvm : VerifierCtx.m_vm top1 = Some key).
      { destruct (Z.eq_dec key (VerifierCtx.m_key top)) as [Heq | Hne].
        - rewrite (Hsame Heq).
          destruct Hready as [Hlive | (k & i & m & Hreq & Hk)].
          + unfold live in Hlive. unfold bound in Hb.
            destruct (VerifierCtx.m_vm top) as [k |]; [| contradiction].
            rewrite Hb, Heq. reflexivity.
          + inversion Hreq; subst. contradiction.
        - apply Hfresh. exact Hne. }
      rewrite Hvm. cbn [option_map map fst snd]. f_equal.
      apply Hsome; [exact Hs1 |]. left. unfold live. rewrite Hvm. discriminate.
Qed.

Lemma PowHash_run_allocations_witness :
  exists digests v' w',
    PowHash_run key_engine one_context_pool (fresh_world [])
      [(7, []); (7, []); (9, []); (7, [])] = Some (digests, v', w')
    /\ allocations w' = 3%nat
    /\ digests = [Some 7; Some 7; Some 9; Some 7].
Proof.
  destruct (PowHash_run_allocations key_engine
              [(7, []); (7, []); (9, []); (7, [])]
              one_context_pool (fresh_world []) blank_context [] eq_refl I)
    as (ds & v' & w' & Hrun & Hallocs & Hsome).
  exists ds, v', w'. split; [exact Hrun |]. split; [exact Hallocs |].
  rewrite Hsome; [reflexivity | reflexivity |].
  right. exists 7, [], [(7, []); (9, []); (7, [])]. split; [reflexivity | discriminate].
Defined.

(** The destructor's loop from pass [i] on: it stops as soon as [i] reaches
    what is left of the stack. *)
Lemma destroy_loop_length stack : forall i w,
  length (fst (destroy_loop i stack w))
  = if (length stack <=? i)%nat then length stack else ((length stack + i) / 2)%nat.
Proof.
  induction stack as [| cache rest IH]; intros i w.
  - reflexivity.
  - cbn [destroy_loop]. cbn [length].
    destruct (Nat.ltb_spec i (S (length rest))) as [Hlt | Hge];
      destruct (Nat.leb_spec (S (length rest)) i) as [Hle | Hgt]; try lia.
    + rewrite IH.
      pose proof (Nat.div_mod_eq (S (length rest) + i) 2) as Hd.
      pose proof (Nat.mod_upper_bound (S (length rest) + i) 2 ltac:(lia)) as Hm.
      destruct (Nat.leb_spec (length rest) (S i)).
      * lia.
      * replace (length rest + S i)%nat with (S (length rest) + i)%nat by lia. reflexivity.
    + reflexivity.
Qed.

Lemma destroy_loop_calls stack : forall i w,
  (length (filter is_destroy_vm (randomx.calls (snd (destroy_loop i stack w))))
   + length (fst (destroy_loop i stack w))
   = length (filter is_destroy_vm (randomx.calls w)) + length stack)%nat.
Proof.
  induction stack as [| cache rest IH]; intros i w.
  - reflexivity.
  - cbn [destroy_loop]. destruct (Nat.ltb_spec i (length (cache :: rest))).
    + rewrite IH. cbn. lia.
    + reflexivity.
Qed.

(** X11. The destructor of [RxWorkVerifier3] reads the size of the stack
    again on every pass while it pops, so it stops half way: of [n]
    contexts the [n / 2] at the bottom of the stack are left, neither
    deleted nor handed back to the engine, and the engine sees
    [n - n / 2] calls of [randomx_destroy_vm]. *)
Theorem RxWorkVerifier3_destroy_half (v : RxWorkVerifier3.t) (w : randomx.world) :
  let n := length (RxWorkVerifier3.mCacheStack v) in
  let '(left_over, w') := RxWorkVerifier3_destroy v w in
  length left_over = (n / 2)%nat
  /\ left_over = skipn (n - n / 2) (RxWorkVerifier3.mCacheStack v)
  /\ length (filter is_destroy_vm (randomx.calls w'))
     = (length (filter is_destroy_vm (randomx.calls w)) + (n - n / 2))%nat.
Proof.
  cbv zeta. unfold RxWorkVerifier3_destroy.
  pose proof (destroy_loop_length (RxWorkVerifier3.mCacheStack v) 0 w) as Hlen.
  pose proof (destroy_loop_calls (RxWorkVerifier3.mCacheStack v) 0 w) as Hcalls.
  assert (Hsuffix : forall stack i w0,
             exists k, fst (destroy_loop i stack w0) = skipn k stack).
  { induction stack as [| cache rest IH]; intros i w0.
    - exists 0%nat. reflexivity.
    - cbn [destroy_loop]. destruct (i <? length (cache :: rest))%nat.
      + destruct (IH (S i) (VerifierCtx_destroy cache w0)) as [k Hk].
        exists (S k). exact Hk.
      + exists 0%nat. reflexivity. }
  destruct (Hsuffix (RxWorkVerifier3.mCacheStack v) 0%nat w) as [k Hk].
  destruct (destroy_loop 0 (RxWorkVerifier3.mCacheStack v) w) as [left_over w'].
  cbn [fst snd] in *.
  set (n := length (RxWorkVerifier3.mCacheStack v)) in *.
  rewrite Nat.add_0_r in Hlen.
  assert (Hn : length left_over = (n / 2)%nat).
  { rewrite Hlen. destruct (Nat.leb_spec n 0); [| reflexivity].
    assert (n = 0%nat) by lia. rewrite H0. reflexivity. }
  pose proof (Nat.div_mod_eq n 2) as Hd.
  pose proof (Nat.mod_upper_bound n 2 ltac:(lia)) as Hm.
  split; [exact Hn |]. split.
  - assert (Hlk : length (skipn k (RxWorkVerifier3.mCacheStack v)) = (n / 2)%nat)
      by (rewrite <- Hk; exact Hn).
    rewrite length_skipn in Hlk. fold n in Hlk. rewrite Hk.
    destruct (Nat.le_gt_cases k n) as [Hkn | Hkn].
    + f_equal. lia.
    + (* beyond the end: nothing is left, nor by the stated count *)
      rewrite !skipn_all2 by (fold n; lia). reflexivity.
  - lia.
Qed.


(** ** The search, further *)

Section SearchOrder.

Variable vm : list byte -> list byte.
Variable ShutdownRequested : option (nat -> bool).
Variable bnTarget : Z.
Variable block : CBlockHeader.t.

(** Polls are numbered from the count the loop starts with; without a
    predicate any count will do. *)
Lemma quiet_poll polls :
  quiet ShutdownRequested polls ->
  fst (RxWorkMiner.poll ShutdownRequested polls) = false
  /\ (forall k, quiet ShutdownRequested (S polls + k) ->
               quiet ShutdownRequested
                 (snd (RxWorkMiner.poll ShutdownRequested polls) + k)).
Proof.
  unfold quiet, RxWorkMiner.poll. destruct ShutdownRequested; cbn; auto.
Qed.

Lemma digest_wrap nonce i :
  digest vm block (wrap32 (nonce + 1) + Z.of_nat i) = digest vm block (nonce + Z.of_nat (S i)).
Proof.
  unfold digest. do 2 f_equal. apply header_encoding_congr.
  unfold wrap32. rewrite Zplus_mod_idemp_l. f_equal. lia.
Qed.

Lemma wrap32_step nonce i :
  wrap32 (wrap32 (nonce + 1) + Z.of_nat i) = wrap32 (nonce + Z.of_nat (S i)).
Proof. unfold wrap32. rewrite Zplus_mod_idemp_l. f_equal. lia. Qed.

(** The loop returns at the first nonce, in the order it tries them, whose
    digest meets the target. *)
Lemma search_first_hit : forall i fuel old nonce polls nHash,
  length old = 4%nat ->
  (forall j, (j <= i)%nat -> quiet ShutdownRequested (polls + j)) ->
  (forall j, (j < i)%nat -> digest vm block (nonce + Z.of_nat j) > bnTarget) ->
  digest vm block (nonce + Z.of_nat i) <= bnTarget ->
  (i < fuel)%nat ->
  let r := RxWorkMiner.search vm ShutdownRequested bnTarget fuel
             (header_prefix block ++ old) nonce polls nHash in
  RxWorkMiner.returned r
    = Some (RxWorkMiner.Found (digest vm block (nonce + Z.of_nat i))
              (wrap32 (nonce + Z.of_nat i)))
  /\ RxWorkMiner.hashes r = (nHash + S i)%nat.
Proof.
  induction i as [| i IH]; intros fuel old nonce polls nHash Hold Hquiet Hmiss Hhit Hfuel.
  - destruct fuel as [| fuel]; [lia |]. cbv zeta.
    pose proof (Hquiet 0%nat ltac:(lia)) as Hq. rewrite Nat.add_0_r in Hq.
    rewrite search_step by (try exact Hold; apply quiet_poll; exact Hq).
    rewrite Z.add_0_r in *. unfold RxWorkMiner.checkPow.
    destruct (Z.leb_spec (digest vm block nonce) bnTarget); [| lia].
    cbn. split; [reflexivity | lia].
  - destruct fuel as [| fuel]; [lia |]. cbv zeta.
    pose proof (Hquiet 0%nat ltac:(lia)) as Hq. rewrite Nat.add_0_r in Hq.
    destruct (quiet_poll polls Hq) as [Hfalse Hnext].
    rewrite search_step by (try exact Hold; exact Hfalse).
    pose proof (Hmiss 0%nat ltac:(lia)) as H0. rewrite Z.add_0_r in H0.
    unfold RxWorkMiner.checkPow.
    destruct (Z.leb_spec (digest vm block nonce) bnTarget); [lia |].
    specialize (IH fuel (le_split 4 nonce) (wrap32 (nonce + 1))
                  (snd (RxWorkMiner.poll ShutdownRequested polls)) (S nHash)).
    cbv zeta in IH. rewrite digest_wrap, wrap32_step in IH.
    replace (nHash + S (S i))%nat with (S nHash + S i)%nat by lia.
    apply IH.
    + apply length_le_split.
    + intros j Hj. apply Hnext.
      replace (S polls + j)%nat with (polls + S j)%nat by lia. apply Hquiet. lia.
    + intros j Hj. rewrite digest_wrap. apply Hmiss. lia.
    + exact Hhit.
    + lia.
Qed.

(** What the loop returns as found is the first hit. *)
Lemma search_found_first : forall fuel old nonce polls nHash hash found,
  length old = 4%nat ->
  let r := RxWorkMiner.search vm ShutdownRequested bnTarget fuel
             (header_prefix block ++ old) nonce polls nHash in
  RxWorkMiner.returned r = Some (RxWorkMiner.Found hash found) ->
  exists i : nat,
    RxWorkMiner.hashes r = (nHash + S i)%nat
    /\ found = wrap32 (nonce + Z.of_nat i)
    /\ hash = digest vm block (nonce + Z.of_nat i)
    /\ hash <= bnTarget
    /\ (forall j, (j < i)%nat -> digest vm block (nonce + Z.of_nat j) > bnTarget).
Proof.
  induction fuel as [| fuel IH]; intros old nonce polls nHash hash found Hold r Hret;
    subst r.
  - cbn in Hret. discriminate.
  - destruct (fst (RxWorkMiner.poll ShutdownRequested polls)) eqn:Hpoll.
    + cbn [RxWorkMiner.search] in Hret.
      destruct (RxWorkMiner.poll ShutdownRequested polls) as [stop polls'].
      cbn [fst] in Hpoll. subst stop. cbn in Hret. discriminate.
    + rewrite search_step in Hret |- * by assumption.
      unfold RxWorkMiner.checkPow in *.
      destruct (Z.leb_spec (digest vm block nonce) bnTarget) as [Hle | Hgt].
      * cbn in Hret. injection Hret as <- <-. exists 0%nat. cbn [RxWorkMiner.hashes].
        rewrite Z.add_0_r. split; [lia |]. split; [reflexivity |]. split; [reflexivity |].
        split; [exact Hle |]. intros j Hj. lia.
      * destruct (IH (le_split 4 nonce) (wrap32 (nonce + 1))
                    (snd (RxWorkMiner.poll ShutdownRequested polls)) (S nHash)
                    hash found (length_le_split _ _) Hret)
          as (i & Hh & Hf & Hd & Hle & Hmiss).
        exists (S i). rewrite Hh, Hf, Hd, wrap32_step, digest_wrap.
        split; [lia |]. split; [reflexivity |]. split; [reflexivity |].
        split; [rewrite <- digest_wrap, <- Hd; exact Hle |].
        intros j Hj. destruct j as [| j].
        -- rewrite Z.add_0_r. lia.
        -- rewrite <- digest_wrap. apply Hmiss. lia.
Qed.


End SearchOrder.

(** X12. [Mine] returns the first nonce that works, counted from the
    nonce of the template. If the digest for the [i]-th nonce is the first
    at or below the target and shutdown is not requested up to then, every
    run with more than [i] steps returns that digest and nonce after
    [i + 1] digests; and whatever [Mine] returns as found is the digest of
    the nonce it returns, with every nonce tried before it above the
    target. *)
Theorem Mine_first_hit (m : RxWorkMiner.t) (ShutdownRequested : option (nat -> bool)) :
  let block := RxWorkMiner.mBlockHeader m in
  let bnTarget := target (SetCompact (CBlockHeader.nBits block)) in
  let attempt := fun i : nat =>
    digest (RxWorkMiner.mVm m) block (CBlockHeader.nNonce block + Z.of_nat i) in
  (forall i : nat,
      (forall j, (j <= i)%nat -> quiet ShutdownRequested j) ->
      (forall j, (j < i)%nat -> attempt j > bnTarget) ->
      attempt i <= bnTarget ->
      forall fuel, (i < fuel)%nat ->
      RxWorkMiner.returned (RxWorkMiner.Mine fuel m ShutdownRequested)
        = Some (RxWorkMiner.Found (attempt i)
                  (wrap32 (CBlockHeader.nNonce block + Z.of_nat i)))
      /\ RxWorkMiner.hashes (RxWorkMiner.Mine fuel m ShutdownRequested) = S i)
  /\ (forall fuel hash nonce,
        RxWorkMiner.returned (RxWorkMiner.Mine fuel m ShutdownRequested)
          = Some (RxWorkMiner.Found hash nonce) ->
        exists i : nat,
          RxWorkMiner.hashes (RxWorkMiner.Mine fuel m ShutdownRequested) = S i
          /\ nonce = wrap32 (CBlockHeader.nNonce block + Z.of_nat i)
          /\ hash = attempt i
          /\ (forall j, (j < i)%nat -> attempt j > bnTarget)).
Proof.
  cbv zeta. split.
  - intros i Hquiet Hmiss Hhit fuel Hfuel. rewrite Mine_search.
    apply (search_first_hit (RxWorkMiner.mVm m) ShutdownRequested _
             (RxWorkMiner.mBlockHeader m) i fuel (repeat Byte.x00 4)
             (CBlockHeader.nNonce (RxWorkMiner.mBlockHeader m)) 0%nat 0%nat);
      auto.
  - intros fuel hash nonce Hret. rewrite Mine_search in Hret |- *.
    destruct (search_found_first (RxWorkMiner.mVm m) ShutdownRequested _
                (RxWorkMiner.mBlockHeader m) fuel (repeat Byte.x00 4)
                (CBlockHeader.nNonce (RxWorkMiner.mBlockHeader m)) 0%nat 0%nat
                hash nonce eq_refl Hret) as (i & Hh & Hn & Hd & _ & Hmiss).
    exists i. repeat split; assumption.
Qed.

Lemma Mine_first_hit_witness :
  RxWorkMiner.returned (RxWorkMiner.Mine 10 patient_miner None)
    = Some (RxWorkMiner.Found 0 3)
  /\ RxWorkMiner.hashes (RxWorkMiner.Mine 10 patient_miner None) = 4%nat.
Proof.
  refine (proj1 (Mine_first_hit patient_miner None) 3%nat _ _ _ 10%nat _).
  - intros j Hj. exact I.
  - intros j Hj. destruct j as [| [| [| j]]]; [reflexivity | reflexivity | reflexivity | lia].
  - vm_compute. discriminate.
  - lia.
Defined.




(** ** Miner and verifier *)

Lemma with_nonce_key GetHash block nonce :
  sha256dKeyBlock GetHash (with_nonce block nonce) = sha256dKeyBlock GetHash block.
Proof. reflexivity. Qed.

Lemma CheckProofOfWorkX_input block :
  store_at 76 (WriteLE32 (CBlockHeader.nNonce block)) (header_buffer block)
  = header_encoding block (CBlockHeader.nNonce block).
Proof.
  rewrite header_buffer_layout. apply store_nonce. apply repeat_length.
Qed.

(** What [CheckProofOfWorkX] answers on a pool whose top context is bound
    and whose allocations succeed. *)
Lemma CheckProofOfWorkX_ready GetHash rx_hash v w top rest block params :
  RxWorkVerifier3.mCacheStack v = top :: rest ->
  bound top ->
  randomx.script w = [] ->
  live top \/ sha256dKeyBlock GetHash block <> VerifierCtx.m_key top ->
  CheckProofOfWorkX GetHash rx_hash v w block params =
    Some (CheckProofOfWork
            (digest (rx_hash (sha256dKeyBlock GetHash block)) block
               (CBlockHeader.nNonce block))
            (CBlockHeader.nBits block) params).
Proof.
  intros Hstack Hb Hs Hready. unfold CheckProofOfWorkX.
  rewrite CheckProofOfWorkX_input.
  set (key := sha256dKeyBlock GetHash block) in *.
  set (input := header_encoding block (CBlockHeader.nNonce block)).
  unfold RxWorkVerifier3.PowHash. rewrite Hstack.
  pose proof (reinitialize_allocations top key w) as Hal.
  destruct (VerifierCtx.reinitialize top key w) as [top1 w1].
  destruct Hal as [_ Hscript]. destruct (Hscript Hs) as (_ & Hfresh & Hsame).
  assert (Hvm : VerifierCtx.m_vm top1 = Some key).
  { destruct (Z.eq_dec key (VerifierCtx.m_key top)) as [Heq | Hne].
    - rewrite (Hsame Heq). destruct Hready as [Hlive | Hk]; [| contradiction].
      unfold live in Hlive. unfold bound in Hb.
      destruct (VerifierCtx.m_vm top) as [k |]; [| contradiction].
      rewrite Hb, Heq. reflexivity.
    - apply Hfresh. exact Hne. }
  rewrite Hvm. cbn [option_map]. reflexivity.
Qed.

(** X14. A block that [Mine] finds passes [CheckProofOfWorkX] as far as
    the hash goes. For a miner built from a template, a found nonce put
    into the template gives a header on which [CheckProofOfWorkX], over a
    pool that can serve the key, computes the very hash [Mine] returned
    and answers as [CheckProofOfWork] does for it; the answer is [true]
    exactly when the bits of the template decode to a target that is not
    negative, overflowing or zero and is within the limit. *)
Theorem mined_block_verifies
    (GetHash : list byte -> Z) (rx_hash : Z -> list byte -> list byte)
    (template : CBlockHeader.t) (fuel : nat) (ShutdownRequested : option (nat -> bool))
    (hash nonce : Z)
    (g_RxWorkVerifier : RxWorkVerifier3.t) (w : randomx.world)
    (top : VerifierCtx.t) (rest : list VerifierCtx.t) (params : Consensus.Params) :
  RxWorkMiner.returned
    (RxWorkMiner.Mine fuel (RxWorkMiner_create GetHash rx_hash template) ShutdownRequested)
    = Some (RxWorkMiner.Found hash nonce) ->
  RxWorkVerifier3.mCacheStack g_RxWorkVerifier = top :: rest ->
  bound top ->
  randomx.script w = [] ->
  live top \/ sha256dKeyBlock GetHash template <> VerifierCtx.m_key top ->
  let d := SetCompact (CBlockHeader.nBits template) in
  CheckProofOfWorkX GetHash rx_hash g_RxWorkVerifier w (with_nonce template nonce) params
    = Some (CheckProofOfWork hash (CBlockHeader.nBits template) params)
  /\ (CheckProofOfWorkX GetHash rx_hash g_RxWorkVerifier w (with_nonce template nonce) params
        = Some true
      <-> fNegative d = false /\ fOverflow d = false /\ target d <> 0
          /\ target d <= UintToArith256 (Consensus.powLimit params)).
Proof.
  intros Hret Hstack Hb Hs Hready. cbv zeta.
  rewrite Mine_search in Hret. cbn [RxWorkMiner_create RxWorkMiner.mVm RxWorkMiner.mBlockHeader] in Hret.
  apply search_found in Hret; [| apply repeat_length].
  destruct Hret as [Hhash Hle].
  assert (Hx : CheckProofOfWorkX GetHash rx_hash g_RxWorkVerifier w
                 (with_nonce template nonce) params
               = Some (CheckProofOfWork hash (CBlockHeader.nBits template) params)).
  { rewrite (CheckProofOfWorkX_ready GetHash rx_hash g_RxWorkVerifier w top rest
               (with_nonce template nonce) params Hstack Hb Hs Hready).
    rewrite Hhash. reflexivity. }
  split; [exact Hx |]. rewrite Hx.
  unfold CheckProofOfWork, UintToArith256 in *.
  destruct (fNegative (SetCompact (CBlockHeader.nBits template))); cbn [orb].
  { split; [discriminate | intros (Hc & _); discriminate]. }
  destruct (Z.eqb_spec (target (SetCompact (CBlockHeader.nBits template))) 0); cbn [orb].
  { split; [discriminate | intros (_ & _ & Hc & _); contradiction]. }
  destruct (fOverflow (SetCompact (CBlockHeader.nBits template))); cbn [orb].
  { split; [discriminate | intros (_ & Hc & _); discriminate]. }
  destruct (Z.gtb_spec (target (SetCompact (CBlockHeader.nBits template)))
              (Consensus.powLimit params)).
  { split; [discriminate | intros (_ & _ & _ & Hc); lia]. }
  destruct (Z.gtb_spec hash (target (SetCompact (CBlockHeader.nBits template)))); [lia |].
  split; [intros _; repeat split; auto | reflexivity].
Qed.

Lemma mined_block_verifies_witness :
  CheckProofOfWorkX sample_GetHash zero_rx_hash one_context_pool (fresh_world [])
    (with_nonce (template 0x1d00ffff) 0) mainnet_like
  = Some (CheckProofOfWork 0 0x1d00ffff mainnet_like).
Proof.
  refine (proj1 (mined_block_verifies sample_GetHash zero_rx_hash (template 0x1d00ffff)
                   1 None 0 0 one_context_pool (fresh_world []) blank_context []
                   mainnet_like _ _ _ _ _)).
  - vm_compute. reflexivity.
  - reflexivity.
  - exact I.
  - reflexivity.
  - right. vm_compute. discriminate.
Defined.


(** ** Dataset initialisation ranges *)




(** ** Digest blobs *)

(** X16. [HashBytesToUnit256] and the bytes of a blob: the value read is
    a 256-bit number, reading the bytes of a blob gives the blob back
    (reduced to 256 bits), and writing the value read from 32 bytes gives
    those bytes back. *)
Theorem HashBytesToUnit256_blob (hashBytes : list byte) (u : Z) :
  0 <= HashBytesToUnit256 hashBytes < 2 ^ 256
  /\ HashBytesToUnit256 (blob_bytes u) = wrap256 u
  /\ (length hashBytes = 32%nat ->
      blob_bytes (HashBytesToUnit256 hashBytes) = hashBytes).
Proof.
  unfold HashBytesToUnit256, blob_bytes. split; [| split].
  - pose proof (le_combine_bound (firstn 32 hashBytes)) as Hb.
    pose proof (firstn_le_length 32 hashBytes) as Hl.
    assert (2 ^ (8 * Z.of_nat (length (firstn 32 hashBytes))) <= 2 ^ 256)
      by (apply Z.pow_le_mono_r; lia).
    lia.
  - rewrite firstn_all2 by (rewrite length_le_split; lia).
    rewrite le_combine_split. reflexivity.
  - intros Hlen. rewrite firstn_all2 by lia.
    rewrite <- Hlen. apply split_le_combine.
Qed.


(** ** The built-in double SHA-256 *)

Lemma land_ff (z : Z) : Z.land z 0xff = z mod 2 ^ 8.
Proof. change 0xff with (Z.ones 8). apply Z.land_ones. lia. Qed.

Lemma of_Z_land_ff (z : Z) : byte.of_Z (Z.land z 0xff) = byte.of_Z z.
Proof.
  apply byte.unsigned_inj. rewrite !byte.unsigned_of_Z, land_ff.
  unfold byte.wrap. apply Z.mod_mod. lia.
Qed.

Lemma be32dec_bytes (a b c d : byte) (more : list byte) :
  sha2.be32dec (a :: b :: c :: d :: more)
  = byte.unsigned d + 2 ^ 8 * byte.unsigned c + 2 ^ 16 * byte.unsigned b
    + 2 ^ 24 * byte.unsigned a.
Proof.
  pose proof (byte.unsigned_range a). pose proof (byte.unsigned_range b).
  pose proof (byte.unsigned_range c). pose proof (byte.unsigned_range d).
  unfold sha2.be32dec, sha2.add32, sha2.shl32, sha2.u8, wrap32. cbn [nth].
  rewrite !Z.shiftl_mul_pow2 by lia.
  rewrite (Z.mod_small (byte.unsigned c * 2 ^ 8)) by lia.
  rewrite (Z.mod_small (byte.unsigned b * 2 ^ 16)) by lia.
  rewrite (Z.mod_small (byte.unsigned a * 2 ^ 24)) by lia.
  rewrite (Z.mod_small (byte.unsigned d + _)) by lia.
  rewrite (Z.mod_small (byte.unsigned d + _ + _)) by lia.
  rewrite Z.mod_small by lia. lia.
Qed.

Lemma be32dec_range (p : list byte) : 0 <= sha2.be32dec p < 2 ^ 32.
Proof. unfold sha2.be32dec, sha2.add32, wrap32. apply Z.mod_pos_bound. lia. Qed.

Lemma be32dec_be32enc (x : Z) :
  0 <= x < 2 ^ 32 -> sha2.be32dec (sha2.be32enc x) = x.
Proof.
  intros Hx. unfold sha2.be32enc. rewrite be32dec_bytes.
  rewrite !byte.unsigned_of_Z, !land_ff. unfold byte.wrap.
  rewrite !Z.mod_mod by lia. rewrite !Z.shiftr_div_pow2 by lia.
  change (2 ^ 8) with 256. change (2 ^ 16) with 65536.
  change (2 ^ 24) with 16777216. change (2 ^ 32) with 4294967296 in Hx.
  Z.to_euclidean_division_equations. lia.
Qed.

Lemma be32enc_be32dec (a b c d : byte) (more : list byte) :
  sha2.be32enc (sha2.be32dec (a :: b :: c :: d :: more)) = [a; b; c; d].
Proof.
  pose proof (byte.unsigned_range a). pose proof (byte.unsigned_range b).
  pose proof (byte.unsigned_range c). pose proof (byte.unsigned_range d).
  rewrite be32dec_bytes. unfold sha2.be32enc. rewrite !of_Z_land_ff.
  rewrite !Z.shiftr_div_pow2 by lia.
  assert (Hbyte : forall z u, z mod 2 ^ 8 = byte.unsigned u -> byte.of_Z z = u).
  { intros z u Hz. apply byte.unsigned_inj. rewrite byte.unsigned_of_Z. exact Hz. }
  change (2 ^ 8) with 256 in *. change (2 ^ 16) with 65536.
  change (2 ^ 24) with 16777216.
  repeat f_equal; apply Hbyte;
    Z.to_euclidean_division_equations; lia.
Qed.


Lemma be32dec_prefix (a b c d : byte) (more : list byte) :
  sha2.be32dec (a :: b :: c :: d :: more) = sha2.be32dec [a; b; c; d].
Proof. reflexivity. Qed.

Lemma words_of_map (n : nat) : forall bytes,
  map (fun i => sha2.be32dec (skipn (4 * i) bytes)) (seq 0 n) = words_of n bytes.
Proof.
  induction n as [| n IH]; intros bytes; [reflexivity |].
  cbn [seq map words_of]. f_equal.
  rewrite <- seq_shift, map_map, <- IH.
  apply map_ext. intros i. rewrite skipn_skipn. do 2 f_equal. lia.
Qed.

Lemma words_of_length (n : nat) : forall bytes, length (words_of n bytes) = n.
Proof. induction n as [| n IH]; intros bytes; cbn; [| rewrite IH]; reflexivity. Qed.

Lemma words_of_app (n m : nat) : forall front back,
  length front = (4 * n)%nat ->
  words_of (n + m) (front ++ back) = words_of n front ++ words_of m back.
Proof.
  induction n as [| n IH]; intros front back Hlen.
  - destruct front; [reflexivity | discriminate].
  - destruct front as [| a [| b [| c [| d front]]]]; cbn in Hlen; try lia.
    cbn [Nat.add words_of app skipn]. rewrite IH by lia.
    reflexivity.
Qed.

Lemma words_of_prefix (n : nat) (front back : list byte) :
  length front = (4 * n)%nat ->
  words_of n (front ++ back) = words_of n front.
Proof.
  intros Hlen. pose proof (words_of_app n 0 front back Hlen) as H.
  rewrite Nat.add_0_r in H. rewrite H. cbn. apply app_nil_r.
Qed.

Lemma words_of_be32enc : forall words,
  Forall (fun x => 0 <= x < 2 ^ 32) words ->
  words_of (length words) (flat_map sha2.be32enc words) = words.
Proof.
  induction 1 as [| x words Hx _ IH]; [reflexivity |].
  cbn [length flat_map words_of].
  change (sha2.be32enc x ++ flat_map sha2.be32enc words)
    with (byte.of_Z (Z.land (Z.shiftr x 24) 0xff)
          :: byte.of_Z (Z.land (Z.shiftr x 16) 0xff)
          :: byte.of_Z (Z.land (Z.shiftr x 8) 0xff)
          :: byte.of_Z (Z.land x 0xff) :: flat_map sha2.be32enc words).
  rewrite be32dec_prefix. cbn [skipn]. rewrite IH. f_equal.
  apply (be32dec_be32enc x Hx).
Qed.

Lemma be32enc_length (words : list Z) :
  length (flat_map sha2.be32enc words) = (4 * length words)%nat.
Proof. induction words as [| x words IH]; cbn in *; lia. Qed.

(** The compression function works on the first eight words of the state
    and returns words of 32 bits. *)
Lemma sha256_transform_app (state rest block : list Z) (swap : bool) :
  length state = 8%nat ->
  sha2.sha256_transform (state ++ rest) block swap
  = sha2.sha256_transform state block swap ++ rest.
Proof.
  intros Hlen. unfold sha2.sha256_transform.
  rewrite firstn_app, Hlen, Nat.sub_diag, firstn_O, app_nil_r.
  rewrite skipn_app, Hlen, Nat.sub_diag, skipn_O.
  rewrite (skipn_all2 state) by lia.
  rewrite (firstn_all2 state) by lia.
  cbn [app]. rewrite app_nil_r. f_equal.
  apply map_ext_in. intros i Hi. f_equal.
  apply in_map_iff in Hi. destruct Hi as (k & <- & Hk). apply in_seq in Hk.
  unfold sha2.word. rewrite Nat2Z.id. apply app_nth1. lia.
Qed.

Lemma sha256_transform_words (state block : list Z) (swap : bool) :
  length state = 8%nat ->
  length (sha2.sha256_transform state block swap) = 8%nat
  /\ Forall (fun x => 0 <= x < 2 ^ 32) (sha2.sha256_transform state block swap).
Proof.
  intros Hlen. unfold sha2.sha256_transform.
  rewrite (skipn_all2 state) by lia. rewrite app_nil_r. split.
  - rewrite !length_map, length_seq. reflexivity.
  - apply Forall_forall. intros x Hx.
    apply in_map_iff in Hx. destruct Hx as (i & <- & _).
    unfold sha2.add32, wrap32. apply Z.mod_pos_bound. lia.
Qed.

Lemma fold_transform_words (blocks : list (list Z)) : forall state,
  length state = 8%nat ->
  Forall (fun x => 0 <= x < 2 ^ 32) state ->
  length (fold_left compress blocks state) = 8%nat
  /\ Forall (fun x => 0 <= x < 2 ^ 32) (fold_left compress blocks state).
Proof.
  induction blocks as [| block blocks IH]; intros state Hlen Hall; [split; assumption |].
  cbn [fold_left].
  destruct (sha256_transform_words state block false Hlen) as [Hl Hr].
  apply IH; assumption.
Qed.

Lemma fold_transform_app (blocks : list (list Z)) (rest : list Z) : forall state,
  length state = 8%nat ->
  fold_left compress blocks (state ++ rest) = fold_left compress blocks state ++ rest.
Proof.
  induction blocks as [| block blocks IH]; intros state Hlen; [reflexivity |].
  cbn [fold_left]. unfold compress at 2 4.
  rewrite sha256_transform_app by exact Hlen.
  apply IH. apply sha256_transform_words. exact Hlen.
Qed.


Lemma of_Z_high (v k : Z) :
  0 <= v < 2 ^ 32 -> 32 <= k -> byte.of_Z (Z.shiftr v k) = Byte.x00.
Proof.
  intros Hv Hk. rewrite Z.shiftr_div_pow2 by lia.
  rewrite Z.div_small; [reflexivity |].
  assert (2 ^ 32 <= 2 ^ k) by (apply Z.pow_le_mono_r; lia). lia.
Qed.

Lemma be64_low (v : Z) :
  0 <= v < 2 ^ 32 ->
  rev (le_split 8 v) = [Byte.x00; Byte.x00; Byte.x00; Byte.x00] ++ sha2.be32enc v.
Proof.
  intros Hv. unfold sha2.be32enc. cbv [le_split rev app].
  rewrite !of_Z_land_ff, !Z.shiftr_shiftr by lia.
  rewrite !(of_Z_high v) by lia. reflexivity.
Qed.

Lemma skipn_repeat_byte (n m : nat) :
  (n <= m)%nat -> skipn n (repeat Byte.x00 m) = repeat Byte.x00 (m - n).
Proof.
  intros Hle. replace m with (n + (m - n))%nat at 1 by lia.
  rewrite repeat_app, skipn_app, repeat_length, Nat.sub_diag, skipn_O.
  rewrite skipn_all2 by (rewrite repeat_length; lia). reflexivity.
Qed.

(** The buffer after the copy of the last [r < 64] bytes and the store of
    the one bit. *)
Lemma last_chunk (suffix : list byte) :
  (length suffix < 64)%nat ->
  store_at (length suffix) [Byte.x80] (store_at 0 suffix (repeat Byte.x00 64))
  = suffix ++ Byte.x80 :: repeat Byte.x00 (63 - length suffix).
Proof.
  intros Hlen. unfold store_at. cbn [firstn Nat.add app length].
  rewrite skipn_repeat_byte by lia.
  rewrite firstn_app, Nat.sub_diag, firstn_O, app_nil_r, firstn_all2 by lia.
  do 2 f_equal.
  rewrite skipn_app.
  rewrite skipn_all2 by lia. cbn [app].
  replace (length suffix + 1 - length suffix)%nat with 1%nat by lia.
  rewrite skipn_repeat_byte by lia. f_equal. lia.
Qed.

Lemma set_length_word (front : list byte) (v : Z) :
  length front = 60%nat -> 0 <= v < 2 ^ 32 ->
  sha2.set_word
    (words_of 16 (front ++ [Byte.x00; Byte.x00; Byte.x00; Byte.x00])) 15 v
  = words_of 16 (front ++ sha2.be32enc v).
Proof.
  intros Hlen Hv.
  rewrite (words_of_app 15 1 front) by lia.
  rewrite (words_of_app 15 1 front) by lia.
  pose proof (words_of_length 15 front) as Hw.
  unfold sha2.set_word. change (Z.to_nat 15) with 15%nat.
  rewrite firstn_app, Hw, Nat.sub_diag, firstn_O, app_nil_r.
  rewrite firstn_all2 by lia.
  rewrite skipn_all2 by (rewrite length_app, Hw; cbn; lia).
  f_equal. cbn [words_of]. f_equal. symmetry. apply be32dec_be32enc. exact Hv.
Qed.

Lemma host_bytes_length (words : list Z) :
  length (sha2.host_bytes words) = (4 * length words)%nat.
Proof.
  unfold sha2.host_bytes. induction words as [| x words IH]; [reflexivity |].
  cbn [flat_map]. rewrite length_app, length_le_split, IH. cbn [length]. lia.
Qed.

Lemma sha256d_loop_step (fuel : nat) (S : list Z) (T data : list byte) (len r : Z) :
  sha2.sha256d_loop (Datatypes.S fuel) S T data len r
  = if r >? -9 then
      let T := if r <? 64 then repeat Byte.x00 64 else T in
      let n := if r >? 64 then 64 else if r <? 0 then 0 else r in
      let T := store_at 0 (firstn (Z.to_nat n) (skipn (Z.to_nat (len - r)) data)) T in
      let T := if (0 <=? r) && (r <? 64)
               then store_at (Z.to_nat r) [Byte.x80] T else T in
      let Tw := words_of 16 T in
      Tw <- (if r <? 56
             then bits <- int_mul 8 len ;; Some (sha2.set_word Tw 15 (wrap32 bits))
             else Some Tw) ;;
      sha2.sha256d_loop fuel (compress S Tw) (sha2.host_bytes Tw) data len (r - 64)
    else Some (S, T).
Proof.
  cbn [sha2.sha256d_loop]. destruct (r >? -9); [| reflexivity].
  cbv zeta. rewrite words_of_map. reflexivity.
Qed.

Lemma sha256d_loop_exit (fuel : nat) (S : list Z) (T data : list byte) (len r : Z) :
  r <= -9 -> sha2.sha256d_loop fuel S T data len r = Some (S, T).
Proof.
  intros Hr. destruct fuel; cbn [sha2.sha256d_loop];
    (destruct (Z.gtb_spec r (-9)); [lia | reflexivity]).
Qed.

Lemma store_at_full (chunk buf : list byte) :
  length chunk = length buf -> store_at 0 chunk buf = chunk.
Proof.
  intros Hlen. unfold store_at. cbn [firstn app Nat.add].
  rewrite skipn_all2 by lia. apply app_nil_r.
Qed.


Lemma final_block_words (suffix : list byte) (v : Z) :
  (length suffix < 56)%nat -> 0 <= v < 2 ^ 32 ->
  sha2.set_word
    (words_of 16 (suffix ++ Byte.x80 :: repeat Byte.x00 (63 - length suffix))) 15 v
  = words_of 16 (suffix ++ Byte.x80 :: repeat Byte.x00 (55 - length suffix)
                        ++ rev (le_split 8 v)).
Proof.
  intros Hlen Hv. rewrite be64_low by exact Hv.
  set (front := suffix ++ Byte.x80 :: repeat Byte.x00 (59 - length suffix)).
  assert (Hfront : length front = 60%nat).
  { subst front. rewrite length_app. cbn [length]. rewrite repeat_length. lia. }
  replace (suffix ++ Byte.x80 :: repeat Byte.x00 (63 - length suffix))
    with (front ++ [Byte.x00; Byte.x00; Byte.x00; Byte.x00]).
  2:{ subst front. replace (63 - length suffix)%nat with (59 - length suffix + 4)%nat by lia.
      rewrite repeat_app, <- app_assoc. reflexivity. }
  replace (suffix ++ Byte.x80 :: repeat Byte.x00 (55 - length suffix)
             ++ [Byte.x00; Byte.x00; Byte.x00; Byte.x00] ++ sha2.be32enc v)
    with (front ++ sha2.be32enc v).
  2:{ subst front. replace (59 - length suffix)%nat with (55 - length suffix + 4)%nat by lia.
      rewrite repeat_app, <- !app_assoc. cbn [app]. rewrite <- app_assoc. reflexivity. }
  apply set_length_word; assumption.
Qed.

Lemma zero_block_words (v : Z) :
  0 <= v < 2 ^ 32 ->
  sha2.set_word (words_of 16 (repeat Byte.x00 64)) 15 v
  = words_of 16 (repeat Byte.x00 56 ++ rev (le_split 8 v)).
Proof.
  intros Hv. rewrite be64_low by exact Hv.
  change (repeat Byte.x00 64)
    with (repeat Byte.x00 60 ++ [Byte.x00; Byte.x00; Byte.x00; Byte.x00]).
  replace (repeat Byte.x00 56 ++ [Byte.x00; Byte.x00; Byte.x00; Byte.x00] ++ sha2.be32enc v)
    with (repeat Byte.x00 60 ++ sha2.be32enc v) by reflexivity.
  apply set_length_word; [reflexivity | exact Hv].
Qed.

Lemma int_mul_fits (len : Z) :
  0 <= len -> 8 * len < 2 ^ 31 -> int_mul 8 len = Some (8 * len).
Proof.
  intros H0 Hfit. unfold int_mul. cbv zeta.
  destruct (Z.leb_spec (- 2 ^ 31) (8 * len)); [| lia].
  destruct (Z.ltb_spec (8 * len) (2 ^ 31)); [reflexivity | lia].
Qed.

Section Padding.

Variable data : list byte.
Hypothesis Hfit : 8 * Z.of_nat (length data) < 2 ^ 31.

Lemma suffix_length (r : Z) :
  0 <= r <= Z.of_nat (length data) ->
  length (skipn (Z.to_nat (Z.of_nat (length data) - r)) data) = Z.to_nat r.
Proof. intros Hr. rewrite length_skipn. lia. Qed.

(** One iteration with fewer than 56 bytes left: the last block. *)
Lemma sha256d_loop_last (fuel : nat) (S : list Z) (T : list byte) (r : Z) :
  0 <= r < 56 -> r <= Z.of_nat (length data) ->
  exists T',
    sha2.sha256d_loop (Datatypes.S fuel) S T data (Z.of_nat (length data)) r
    = Some (compress S (words_of 16 (padded_from data r)), T').
Proof.
  intros Hr Hle. rewrite sha256d_loop_step.
  pose proof (suffix_length r ltac:(lia)) as Hsuffix.
  set (suffix := skipn (Z.to_nat (Z.of_nat (length data) - r)) data) in *.
  destruct (Z.gtb_spec r (-9)); [| lia].
  destruct (Z.ltb_spec r 64); [| lia].
  destruct (Z.gtb_spec r 64); [lia |].
  destruct (Z.ltb_spec r 0); [lia |].
  destruct (Z.leb_spec 0 r); [| lia].
  destruct (Z.ltb_spec r 56); [| lia].
  cbn [andb]. cbv zeta.
  rewrite int_mul_fits by lia. cbn [bind].
  rewrite firstn_all2 by lia.
  rewrite <- Hsuffix, last_chunk by lia.
  unfold wrap32. rewrite Z.mod_small by lia.
  rewrite final_block_words by lia.
  replace (words_of 16 (padded_from data r))
    with (words_of 16 (suffix ++ Byte.x80 :: repeat Byte.x00 (55 - length suffix)
                         ++ rev (le_split 8 (8 * Z.of_nat (length data))))).
  2:{ unfold padded_from. fold suffix. do 5 f_equal.
      rewrite Z.mod_small by lia. lia. }
  rewrite sha256d_loop_exit by lia.
  eexists. reflexivity.
Qed.

(** With 56 to 63 bytes left the one bit fits the block and the length
    does not: a block of zeros and the length follows. *)
Lemma sha256d_loop_spill (fuel : nat) (S : list Z) (T : list byte) (r : Z) :
  56 <= r < 64 -> r <= Z.of_nat (length data) ->
  exists T',
    sha2.sha256d_loop (Datatypes.S (Datatypes.S fuel)) S T data
      (Z.of_nat (length data)) r
    = Some (compress (compress S (words_of 16 (padded_from data r)))
                     (words_of 16 (skipn 64 (padded_from data r))), T').
Proof.
  intros Hr Hle. rewrite sha256d_loop_step.
  pose proof (suffix_length r ltac:(lia)) as Hsuffix.
  set (suffix := skipn (Z.to_nat (Z.of_nat (length data) - r)) data) in *.
  destruct (Z.gtb_spec r (-9)); [| lia].
  destruct (Z.ltb_spec r 64); [| lia].
  destruct (Z.gtb_spec r 64); [lia |].
  destruct (Z.ltb_spec r 0); [lia |].
  destruct (Z.leb_spec 0 r); [| lia].
  destruct (Z.ltb_spec r 56); [lia |].
  cbn [andb bind]. cbv zeta.
  rewrite firstn_all2 by lia.
  rewrite <- Hsuffix, last_chunk by lia.
  set (head_block := suffix ++ Byte.x80 :: repeat Byte.x00 (63 - length suffix)).
  assert (Hfirst : length head_block = 64%nat).
  { subst head_block. rewrite length_app. cbn [length]. rewrite repeat_length. lia. }
  assert (Hsplit : padded_from data r
                   = head_block ++ repeat Byte.x00 56
                       ++ rev (le_split 8 (8 * Z.of_nat (length data)))).
  { unfold padded_from. fold suffix. subst head_block.
    replace ((55 - r) mod 64) with (119 - r).
    2:{ apply (Z.mod_unique_pos _ _ (-1)); lia. }
    replace (Z.to_nat (119 - r)) with (63 - length suffix + 56)%nat by lia.
    rewrite repeat_app, <- !app_assoc. reflexivity. }
  rewrite Hsplit, words_of_prefix by exact Hfirst.
  rewrite skipn_app, Hfirst, Nat.sub_diag, skipn_O.
  rewrite skipn_all2 by lia. cbn [app].
  (* the second iteration *)
  rewrite sha256d_loop_step.
  destruct (Z.gtb_spec (r - 64) (-9)); [| lia].
  destruct (Z.ltb_spec (r - 64) 64); [| lia].
  destruct (Z.gtb_spec (r - 64) 64); [lia |].
  destruct (Z.ltb_spec (r - 64) 0); [| lia].
  destruct (Z.leb_spec 0 (r - 64)); [lia |].
  destruct (Z.ltb_spec (r - 64) 56); [| lia].
  cbn [andb]. cbv zeta.
  rewrite int_mul_fits by lia. cbn [bind].
  change (Z.to_nat 0) with 0%nat. cbn [firstn].
  change (store_at 0 [] (repeat Byte.x00 64)) with (repeat Byte.x00 64).
  unfold wrap32. rewrite Z.mod_small by lia.
  rewrite zero_block_words by lia.
  rewrite sha256d_loop_exit by lia.
  eexists. reflexivity.
Qed.

(** With 64 bytes or more left, a block of data. *)
Lemma sha256d_loop_full (fuel : nat) (S : list Z) (T : list byte) (r : Z) :
  64 <= r <= Z.of_nat (length data) -> length T = 64%nat ->
  sha2.sha256d_loop (Datatypes.S fuel) S T data (Z.of_nat (length data)) r
  = sha2.sha256d_loop fuel (compress S (words_of 16 (padded_from data r)))
      (sha2.host_bytes (words_of 16 (padded_from data r))) data
      (Z.of_nat (length data)) (r - 64)
  /\ skipn 64 (padded_from data r) = padded_from data (r - 64).
Proof.
  intros Hr HT. rewrite sha256d_loop_step.
  pose proof (suffix_length r ltac:(lia)) as Hsuffix.
  set (suffix := skipn (Z.to_nat (Z.of_nat (length data) - r)) data) in *.
  assert (Hn : (if r >? 64 then 64 else if r <? 0 then 0 else r) = 64).
  { destruct (Z.gtb_spec r 64); [reflexivity |].
    destruct (Z.ltb_spec r 0); lia. }
  rewrite Hn.
  destruct (Z.gtb_spec r (-9)); [| lia].
  destruct (Z.ltb_spec r 64); [lia |].
  destruct (Z.leb_spec 0 r); [| lia].
  destruct (Z.ltb_spec r 56); [lia |].
  cbn [andb bind]. cbv zeta.
  assert (Hchunk : length (firstn 64 suffix) = 64%nat)
    by (rewrite length_firstn; lia).
  change (Z.to_nat 64) with 64%nat.
  rewrite (store_at_full (firstn 64 suffix) T) by lia.
  assert (Hwords : words_of 16 (padded_from data r) = words_of 16 (firstn 64 suffix)).
  { unfold padded_from. fold suffix.
    rewrite <- (firstn_skipn 64 suffix) at 1. rewrite <- app_assoc.
    apply words_of_prefix. exact Hchunk. }
  rewrite Hwords. split; [reflexivity |].
  unfold padded_from. fold suffix.
  rewrite skipn_app.
  replace (64 - length suffix)%nat with 0%nat by lia. rewrite skipn_O.
  subst suffix. rewrite skipn_skipn.
  replace (64 + Z.to_nat (Z.of_nat (length data) - r))%nat
    with (Z.to_nat (Z.of_nat (length data) - (r - 64))) by lia.
  replace ((55 - (r - 64)) mod 64) with ((55 - r) mod 64); [reflexivity |].
  replace (55 - (r - 64)) with (55 - r + 1 * 64) by lia.
  symmetry. apply Z.mod_add. lia.
Qed.

Lemma block_count_full (r : Z) :
  64 <= r -> block_count r = Datatypes.S (block_count (r - 64)).
Proof.
  intros Hr. unfold block_count.
  replace r with (r - 64 + 1 * 64) at 1 2 by lia.
  rewrite Z.div_add, Z.mod_add by lia.
  assert (0 <= (r - 64) / 64) by (apply Z.div_pos; lia).
  rewrite Z2Nat.inj_add by lia. change (Z.to_nat 1) with 1%nat. lia.
Qed.

Lemma block_count_small (r : Z) :
  0 <= r < 64 -> block_count r = if r <? 56 then 1%nat else 2%nat.
Proof.
  intros Hr. unfold block_count.
  rewrite Z.div_small, Z.mod_small by lia. reflexivity.
Qed.

(** The loop compresses the blocks of the padded message, one after the
    other. *)
Lemma sha256d_loop_blocks : forall (fuel : nat) (r : Z) (S : list Z) (T : list byte),
  0 <= r <= Z.of_nat (length data) -> r < Z.of_nat fuel -> length T = 64%nat ->
  exists T',
    sha2.sha256d_loop fuel S T data (Z.of_nat (length data)) r
    = Some (fold_left compress (blocks_of (block_count r) (padded_from data r)) S, T').
Proof.
  induction fuel as [| fuel IH]; intros r S T Hr Hfuel HT; [lia |].
  destruct (Z.le_gt_cases 64 r) as [Hfull | Hshort].
  - destruct (sha256d_loop_full fuel S T r ltac:(lia) HT) as [Hstep Hrest].
    rewrite Hstep, block_count_full by lia.
    cbn [blocks_of fold_left]. rewrite Hrest.
    apply IH; [lia | lia |].
    rewrite host_bytes_length, words_of_length. reflexivity.
  - rewrite block_count_small by lia.
    destruct (Z.ltb_spec r 56) as [Hlast | Hspill].
    + cbn [blocks_of fold_left]. apply sha256d_loop_last; lia.
    + destruct fuel as [| fuel]; [lia |].
      cbn [blocks_of fold_left]. apply sha256d_loop_spill; lia.
Qed.

End Padding.


Lemma sha256d_loop_overflow (data : list byte) (len : Z) :
  2 ^ 31 <= 8 * len ->
  forall (fuel : nat) (r : Z) (S : list Z) (T : list byte),
    -9 < r -> r < Z.of_nat fuel -> 0 < Z.of_nat fuel ->
    sha2.sha256d_loop fuel S T data len r = None.
Proof.
  intros Hbig. induction fuel as [| fuel IH]; intros r S T Hr Hfuel Hpos; [lia |].
  rewrite sha256d_loop_step.
  destruct (Z.gtb_spec r (-9)); [| lia].
  cbv zeta.
  destruct (Z.ltb_spec r 56) as [Hlast | Hmore].
  - unfold int_mul. cbv zeta.
    destruct (Z.ltb_spec (8 * len) (2 ^ 31)); [lia |].
    rewrite andb_false_r. reflexivity.
  - cbn [bind]. apply IH; lia.
Qed.

Lemma padding_mod (n : Z) :
  0 <= n ->
  (55 - n) mod 64 = if n mod 64 <? 56 then 55 - n mod 64 else 119 - n mod 64.
Proof.
  intros Hn. pose proof (Z.mod_pos_bound n 64 ltac:(lia)) as Hm.
  pose proof (Z.div_mod n 64 ltac:(lia)) as Hdm.
  destruct (Z.ltb_spec (n mod 64) 56).
  - symmetry. apply (Z.mod_unique_pos _ _ (- (n / 64))); lia.
  - symmetry. apply (Z.mod_unique_pos _ _ (- (n / 64) - 1)); lia.
Qed.

Lemma padding_length (data : list byte) :
  length (sha256_padding data) = (block_count (Z.of_nat (length data)) * 64)%nat.
Proof.
  unfold sha256_padding, block_count. cbv zeta.
  rewrite length_app. cbn [length]. rewrite length_app, repeat_length, length_rev.
  rewrite length_le_split, padding_mod by lia.
  set (n := Z.of_nat (length data)).
  assert (Hn : 0 <= n) by lia.
  pose proof (Z.mod_pos_bound n 64 ltac:(lia)) as Hm.
  pose proof (Z.div_mod n 64 ltac:(lia)) as Hdm.
  assert (0 <= n / 64) by (apply Z.div_pos; lia).
  destruct (Z.ltb_spec (n mod 64) 56); lia.
Qed.

Lemma padded_from_start (data : list byte) :
  padded_from data (Z.of_nat (length data)) = sha256_padding data.
Proof.
  unfold padded_from, sha256_padding. cbv zeta.
  rewrite Z.sub_diag. reflexivity.
Qed.

(** The second pass: the hard-wired words of [sha256d_hash1] are the
    padding of a 32-byte message. *)
Lemma second_block (digest : list Z) :
  length digest = 8%nat -> Forall (fun x => 0 <= x < 2 ^ 32) digest ->
  sha256_iterated (flat_map sha2.be32enc digest)
  = flat_map sha2.be32enc
      (compress sha2.sha256_h (digest ++ skipn 8 sha2.sha256d_hash1)).
Proof.
  intros Hlen Hall. unfold sha256_iterated. cbv zeta.
  rewrite padding_length. unfold sha256_padding. cbv zeta.
  rewrite be32enc_length, Hlen.
  change (block_count (Z.of_nat (4 * 8))) with 1%nat.
  change (1 * 64 / 64)%nat with 1%nat.
  cbn [blocks_of fold_left].
  rewrite (words_of_app 8 8) by (rewrite be32enc_length, Hlen; reflexivity).
  rewrite <- Hlen at 1. rewrite words_of_be32enc by exact Hall.
  reflexivity.
Qed.


(** X17. [be32enc] and [be32dec] are inverse to each other: a 32-bit
    word comes back from its four bytes, four bytes come back from their
    word, and the word of four bytes is a 32-bit value. *)
Theorem be32_round_trip (x : Z) (a b c d : byte) :
  0 <= x < 2 ^ 32 ->
  sha2.be32dec (sha2.be32enc x) = x
  /\ sha2.be32enc (sha2.be32dec [a; b; c; d]) = [a; b; c; d]
  /\ 0 <= sha2.be32dec [a; b; c; d] < 2 ^ 32.
Proof.
  intros Hx. split; [| split].
  - apply be32dec_be32enc. exact Hx.
  - apply be32enc_be32dec.
  - apply be32dec_range.
Qed.

Lemma be32_round_trip_witness :
  sha2.be32dec (sha2.be32enc 0x80000000) = 0x80000000
  /\ sha2.be32enc (sha2.be32dec [Byte.x12; Byte.x34; Byte.x56; Byte.x78])
     = [Byte.x12; Byte.x34; Byte.x56; Byte.x78].
Proof.
  destruct (be32_round_trip 0x80000000 Byte.x12 Byte.x34 Byte.x56 Byte.x78
              ltac:(lia)) as (Hdec & Henc & _).
  split; assumption.
Defined.

(** X18. [sha256d] is the same hash applied twice, whatever its two
    local arrays hold on entry. For an input shorter than [2 ^ 28] bytes
    it returns [sha256_iterated (sha256_iterated data)], where
    [sha256_iterated] runs [sha256_transform] from [sha256_h] over the
    64-byte blocks of the input padded as SHA-256 pads; the hard-wired
    words of [sha256d_hash1] are that padding for the 32 bytes of the
    first digest. From [2 ^ 28] bytes on, the bit length [8 * len]
    overflows [int] and there is no defined result. *)
Theorem sha256d_double (S : list Z) (T data : list byte) :
  length T = 64%nat ->
  (Z.of_nat (length data) < 2 ^ 28 ->
   sha2.sha256d S T data = Some (sha256_iterated (sha256_iterated data)))
  /\ (2 ^ 28 <= Z.of_nat (length data) -> sha2.sha256d S T data = None).
Proof.
  intros HT. split; intros Hlen.
  - unfold sha2.sha256d. cbv zeta. unfold sha2.sha256_init.
    assert (Hfit : 8 * Z.of_nat (length data) < 2 ^ 31) by lia.
    destruct (sha256d_loop_blocks data Hfit (Datatypes.S (length data))
                (Z.of_nat (length data)) (sha2.sha256_h ++ skipn 8 S) T)
      as [T' Hloop]; [lia | lia | exact HT |].
    rewrite Hloop. cbn [bind fst snd].
    rewrite padded_from_start.
    set (blocks := blocks_of (block_count (Z.of_nat (length data)))
                             (sha256_padding data)).
    rewrite fold_transform_app by reflexivity.
    destruct (fold_transform_words blocks sha2.sha256_h eq_refl) as [Hl Hr].
    { repeat constructor; cbv; congruence. }
    set (digest := fold_left compress blocks sha2.sha256_h) in *.
    assert (Hcut : forall (front back : list Z),
               length front = 8%nat -> firstn 8 (front ++ back) = front).
    { intros front back Hfront.
      rewrite firstn_app, Hfront, Nat.sub_diag, firstn_O, app_nil_r.
      apply firstn_all2. lia. }
    rewrite (Hcut digest) by exact Hl.
    rewrite sha256_transform_app by reflexivity.
    destruct (sha256_transform_words sha2.sha256_h
                (digest ++ skipn 8 sha2.sha256d_hash1) false eq_refl) as [Hl2 _].
    rewrite Hcut by exact Hl2.
    f_equal. fold (compress sha2.sha256_h (digest ++ skipn 8 sha2.sha256d_hash1)).
    rewrite <- second_block by assumption.
    f_equal. unfold sha256_iterated. cbv zeta.
    rewrite padding_length, Nat.div_mul by lia. reflexivity.
  - unfold sha2.sha256d. cbv zeta.
    rewrite (sha256d_loop_overflow data (Z.of_nat (length data))); [reflexivity | | | |]; lia.
Qed.

Lemma sha256d_double_witness :
  sha2.sha256d stale_words stale_bytes sha2_samples.hello_world
  = Some (sha256_iterated (sha256_iterated sha2_samples.hello_world)).
Proof.
  apply (sha256d_double stale_words stale_bytes sha2_samples.hello_world eq_refl).
  vm_compute. reflexivity.
Defined.

(** The digest that the source records for the text hello world. *)
Example sha256d_hello_world :
  sha2.doubleSHA256OpenSSL stale_words stale_bytes sha2_samples.hello_world
  = Some sha2_samples.hello_world_digest.
Proof. vm_compute. reflexivity. Qed.


Lemma hex_digit_code (n : Z) :
  0 <= n < 16 ->
  Z.of_nat (Ascii.nat_of_ascii (sha2.hex_digit n)) = if n <? 10 then 48 + n else 87 + n.
Proof.
  intros Hn. unfold sha2.hex_digit.
  rewrite Ascii.nat_ascii_embedding; destruct (Z.ltb_spec n 10); lia.
Qed.

Lemma hex_digit_inj (n m : Z) :
  0 <= n < 16 -> 0 <= m < 16 -> sha2.hex_digit n = sha2.hex_digit m -> n = m.
Proof.
  intros Hn Hm Heq.
  pose proof (hex_digit_code n Hn) as Hcn.
  pose proof (hex_digit_code m Hm) as Hcm.
  rewrite Heq in Hcn. rewrite Hcn in Hcm.
  destruct (Z.ltb_spec n 10), (Z.ltb_spec m 10); lia.
Qed.

Lemma hex_pair_inj (x y : byte) :
  sha2.hex_digit (byte.unsigned x / 16) = sha2.hex_digit (byte.unsigned y / 16) ->
  sha2.hex_digit (byte.unsigned x mod 16) = sha2.hex_digit (byte.unsigned y mod 16) ->
  x = y.
Proof.
  intros Hhigh Hlow.
  pose proof (byte.unsigned_range x) as Hx. pose proof (byte.unsigned_range y) as Hy.
  change (2 ^ 8) with 256 in *.
  apply hex_digit_inj in Hhigh;
    [| split; [apply Z.div_pos | apply Z.div_lt_upper_bound]; lia
     | split; [apply Z.div_pos | apply Z.div_lt_upper_bound]; lia].
  apply hex_digit_inj in Hlow; [| apply Z.mod_pos_bound; lia | apply Z.mod_pos_bound; lia].
  apply byte.unsigned_inj.
  rewrite (Z.div_mod (byte.unsigned x) 16), (Z.div_mod (byte.unsigned y) 16) by lia.
  congruence.
Qed.

Lemma hex_pairs_inj : forall (a b : list byte),
  length a = length b ->
  flat_map (fun x => [sha2.hex_digit (byte.unsigned x / 16);
                      sha2.hex_digit (byte.unsigned x mod 16)]) a
  = flat_map (fun x => [sha2.hex_digit (byte.unsigned x / 16);
                        sha2.hex_digit (byte.unsigned x mod 16)]) b ->
  a = b.
Proof.
  induction a as [| x a IH]; intros [| y b] Hlen Heq; try discriminate; [reflexivity |].
  cbn [flat_map app] in Heq. injection Heq as Hhigh Hlow Hrest.
  f_equal; [apply hex_pair_inj; assumption |].
  apply IH; [cbn in Hlen; lia | exact Hrest].
Qed.

Lemma sha256d_length (S : list Z) (T data hash : list byte) :
  sha2.sha256d S T data = Some hash -> length hash = 32%nat.
Proof.
  unfold sha2.sha256d. cbv zeta.
  destruct (sha2.sha256d_loop _ _ _ _ _ _) as [st |]; [| discriminate].
  cbn [bind]. intros Heq.
  assert (Hinj : forall a b : list byte, Some a = Some b -> a = b)
    by (intros a b Hab; congruence).
  apply Hinj in Heq. subst hash.
  rewrite be32enc_length. unfold sha2.sha256_init.
  rewrite sha256_transform_app by reflexivity.
  destruct (sha256_transform_words sha2.sha256_h
              (firstn 8 (fst st) ++ skipn 8 sha2.sha256d_hash1) false eq_refl)
    as [Hl _].
  rewrite firstn_app, Hl, Nat.sub_diag, firstn_O, app_nil_r.
  rewrite firstn_all2 by lia. rewrite Hl. reflexivity.
Qed.

Lemma hexStr_length (hash : list byte) (size : Z) :
  0 <= size <= Z.of_nat (length hash) ->
  Z.of_nat (length (sha2.hexStr hash size)) = 2 * size.
Proof.
  intros Hsize. unfold sha2.hexStr.
  assert (Hsum : forall l : list byte,
             length (flat_map (fun x => [sha2.hex_digit (byte.unsigned x / 16);
                                         sha2.hex_digit (byte.unsigned x mod 16)]) l)
             = (2 * length l)%nat).
  { induction l as [| x l IH]; cbn [flat_map app length] in *; lia. }
  rewrite Hsum, length_firstn. lia.
Qed.

(** X19. [hexStr] prints two characters per byte and loses nothing: the
    text has twice [size] characters, and two buffers with the same text
    agree on their first [size] bytes. Whatever [doubleSHA256OpenSSL]
    returns has 64 characters. *)
Theorem hexStr_faithful (a b : list byte) (size : Z) :
  0 <= size <= Z.of_nat (length a) ->
  size <= Z.of_nat (length b) ->
  Z.of_nat (length (sha2.hexStr a size)) = 2 * size
  /\ (sha2.hexStr a size = sha2.hexStr b size ->
      firstn (Z.to_nat size) a = firstn (Z.to_nat size) b)
  /\ (forall S T data text,
        sha2.doubleSHA256OpenSSL S T data = Some text ->
        Z.of_nat (length text) = 64).
Proof.
  intros Ha Hb. split; [| split].
  - apply hexStr_length. exact Ha.
  - unfold sha2.hexStr. apply hex_pairs_inj. rewrite !length_firstn. lia.
  - intros S T data text. unfold sha2.doubleSHA256OpenSSL.
    destruct (sha2.sha256d S T data) as [hash |] eqn:Hhash; [| discriminate].
    cbn [bind]. intros Heq.
    assert (Hinj : forall u v : list Ascii.ascii, Some u = Some v -> u = v)
      by (intros u v Huv; congruence).
    apply Hinj in Heq. subst text.
    apply sha256d_length in Hhash.
    rewrite hexStr_length; lia.
Qed.

Lemma hexStr_faithful_witness :
  Z.of_nat (length (sha2.hexStr (repeat Byte.xab 32) 32)) = 2 * 32.
Proof.
  apply (hexStr_faithful (repeat Byte.xab 32) (repeat Byte.xcd 32) 32);
    rewrite repeat_length; lia.
Defined.
